(** * Instant loopback recorder: capture / replay state machine and MIDI encoder

    A shallow embedding of [src/index.js].  The module-level variables of the
    program ([state], [recordedMessages], [recordingStartTime],
    [playbackTimeouts], [playbackCompleteTimeout]) become the fields of one
    record, [World], next to the part of the JavaScript runtime the program
    talks to: the table of pending [setTimeout] timers, the console, and the
    MIDI output device.  Every handler of the program is a function on
    [World]; the event loop is a step function over the stimuli the runtime
    can dispatch (a MIDI message, a key press, a timer that fires). *)

From Stdlib Require Import ZArith List String Ascii Bool Lia.
From Stdlib Require Import QArith Qreduction.
From Stdlib Require Import Floats.PrimFloat Floats.FloatClass.
From Stdlib Require Floats.SpecFloat Floats.FloatOps Floats.FloatAxioms.
From Stdlib Require Import Numbers.Cyclic.Int63.Uint63.
From Stdlib Require Import Sorting.Sorted.
#[local] Set Warnings "-inexact-float".
Import ListNotations.
Local Open Scope Z_scope.

(** ** Data *)

(** The three values the variable [state] takes. *)
Inductive State := listening | recording | playback.

Definition State_eqb (a b : State) : bool :=
  match a, b with
  | listening, listening | recording, recording | playback, playback => true
  | _, _ => false
  end.

(** A MIDI message as delivered by the input device: a JavaScript object
    whose fields depend on the kind of message.  A field that the object does
    not carry reads as [undefined], here [None]. *)
Record Msg := mkMsg {
  note : option Z;
  velocity : option Z;
  channel : option Z;
  controller : option Z;
  value : option Z
}.

(** One entry of [recordedMessages]: [{ type, msg: { ...msg }, timestamp }]. *)
Record Recorded := mkRecorded {
  type : string;
  msg : Msg;
  timestamp : Z
}.

(** What a timer does when it fires: the two closures [playBack] hands to
    [setTimeout].  The first one captured [recorded] and [index]. *)
Inductive Callback :=
| EmitMessage (index : nat) (recorded : Recorded)
| PlaybackComplete.

(** A pending timer of the runtime. *)
Record Timer := mkTimer {
  handle : nat;
  due : Z;
  callback : Callback
}.

(** Lines written to the console, one constructor per message of the source. *)
Inductive ConsoleLine :=
| LogRecording                                    (* Recording... (Press s to stop) *)
| LogRecordingStopped (elapsed_ms : Z) (count : nat) (* Recording stopped (..s, .. messages) *)
| LogListening                                    (* Listening for MIDI input... *)
| WarnAlreadyPlaying                              (* Already playing back *)
| WarnNoRecordedToPlay                            (* No recorded MIDI to play *)
| LogPlayingBack (count : nat)                    (* Playing back .. messages... *)
| ErrPlayingMessage (index : nat)                 (* Error playing message ..: *)
| LogPlaybackComplete                             (* Playback complete *)
| LogPlaybackStopped                              (* Playback stopped *)
| WarnNoRecordedToExport                          (* No recorded MIDI to export *)
| LogExported                                     (* MIDI file exported: .. *)
| LogLocation                                     (* Location: .. *)
| ErrExporting                                    (* Error exporting MIDI file: .. *)
| ErrStack.                                       (* the stack of the error *)

Record World := mkWorld {
  (* the program's variables *)
  state : State;
  recordedMessages : list Recorded;
  recordingStartTime : option Z;            (* null until the first recording *)
  playbackTimeouts : list nat;
  playbackCompleteTimeout : option nat;
  (* the runtime *)
  pending : list Timer;                     (* timers set and neither fired nor cleared *)
  next_handle : nat;
  clock : Z;                                (* latest reading of the clock *)
  console : list ConsoleLine;
  sent : list (string * Msg)                (* what output.send delivered *)
}.

Definition initial : World :=
  mkWorld listening [] None [] None [] 0%nat 0 [] [].

(** Field updates. *)
Definition set_state (s : State) (w : World) : World :=
  mkWorld s (recordedMessages w) (recordingStartTime w) (playbackTimeouts w)
    (playbackCompleteTimeout w) (pending w) (next_handle w) (clock w)
    (console w) (sent w).

Definition set_recordedMessages (l : list Recorded) (w : World) : World :=
  mkWorld (state w) l (recordingStartTime w) (playbackTimeouts w)
    (playbackCompleteTimeout w) (pending w) (next_handle w) (clock w)
    (console w) (sent w).

Definition set_recordingStartTime (t : option Z) (w : World) : World :=
  mkWorld (state w) (recordedMessages w) t (playbackTimeouts w)
    (playbackCompleteTimeout w) (pending w) (next_handle w) (clock w)
    (console w) (sent w).

Definition set_playbackTimeouts (l : list nat) (w : World) : World :=
  mkWorld (state w) (recordedMessages w) (recordingStartTime w) l
    (playbackCompleteTimeout w) (pending w) (next_handle w) (clock w)
    (console w) (sent w).

Definition set_playbackCompleteTimeout (h : option nat) (w : World) : World :=
  mkWorld (state w) (recordedMessages w) (recordingStartTime w)
    (playbackTimeouts w) h (pending w) (next_handle w) (clock w)
    (console w) (sent w).

Definition set_pending (l : list Timer) (w : World) : World :=
  mkWorld (state w) (recordedMessages w) (recordingStartTime w)
    (playbackTimeouts w) (playbackCompleteTimeout w) l (next_handle w)
    (clock w) (console w) (sent w).

Definition set_next_handle (n : nat) (w : World) : World :=
  mkWorld (state w) (recordedMessages w) (recordingStartTime w)
    (playbackTimeouts w) (playbackCompleteTimeout w) (pending w) n
    (clock w) (console w) (sent w).

Definition set_clock (t : Z) (w : World) : World :=
  mkWorld (state w) (recordedMessages w) (recordingStartTime w)
    (playbackTimeouts w) (playbackCompleteTimeout w) (pending w)
    (next_handle w) t (console w) (sent w).

Definition console_log (l : ConsoleLine) (w : World) : World :=
  mkWorld (state w) (recordedMessages w) (recordingStartTime w)
    (playbackTimeouts w) (playbackCompleteTimeout w) (pending w)
    (next_handle w) (clock w) (console w ++ [l]) (sent w).

Definition output_send (ty : string) (m : Msg) (w : World) : World :=
  mkWorld (state w) (recordedMessages w) (recordingStartTime w)
    (playbackTimeouts w) (playbackCompleteTimeout w) (pending w)
    (next_handle w) (clock w) (console w) (sent w ++ [(ty, m)]).

(** Statements of a handler run one after the other. *)
Definition andThen (f g : World -> World) : World -> World :=
  fun w => g (f w).
Notation "f ;; g" := (andThen f g) (at level 61, right associativity).

(** ** The runtime's timers *)

(** Node replaces a delay below 1 ms or above 2^31-1 ms by 1 ms. *)
Definition timer_delay (d : Z) : Z :=
  if (d <? 1) || (2147483647 <? d) then 1 else d.

(** [setTimeout(cb, delay)] called when the clock reads [now]: the new
    timer's handle and the world with the timer pending. *)
Definition setTimeout (now : Z) (cb : Callback) (delay : Z) (w : World)
  : nat * World :=
  let h := next_handle w in
  (h, set_next_handle (S h)
        (set_pending (pending w ++ [mkTimer h (now + timer_delay delay) cb]) w)).

(** [clearTimeout(h)]: the timer is no longer pending; nothing happens when
    it has fired or was cleared before. *)
Definition clearTimeout (h : nat) (w : World) : World :=
  set_pending (filter (fun t => negb (Nat.eqb (handle t) h)) (pending w)) w.

Definition clearTimeouts (hs : list nat) (w : World) : World :=
  fold_left (fun w h => clearTimeout h w) hs w.

Definition find_timer (h : nat) (w : World) : option Timer :=
  find (fun t => Nat.eqb (handle t) h) (pending w).

(** ** The handlers of [src/index.js] *)

(** [Date.now() - recordingStartTime]; [null] counts as 0 in a subtraction. *)
Definition since_start (now : Z) (w : World) : Z :=
  now - match recordingStartTime w with Some t => t | None => 0 end.

(** [recordMessage(type, msg)], the clock reading [now]. *)
Definition recordMessage (now : Z) (ty : string) (m : Msg) (w : World) : World :=
  let timestamp := since_start now w in
  set_recordedMessages (recordedMessages w ++ [mkRecorded ty m timestamp]) w.

(** [startRecording()], the clock reading [now]. *)
Definition startRecording (now : Z) (w : World) : World :=
  match state w with
  | recording => w
  | _ =>
      (set_recordedMessages [] ;;
       set_recordingStartTime (Some now) ;;
       set_state recording ;;
       console_log LogRecording) w
  end.

(** [stopRecording()]. *)
Definition stopRecording (now : Z) (w : World) : World :=
  match state w with
  | recording =>
      (set_state listening ;;
       console_log (LogRecordingStopped (since_start now w)
                      (List.length (recordedMessages w))) ;;
       console_log LogListening) w
  | _ => w
  end.

(** [type === 'cc' && msg.controller === 64]. *)
Definition is_sustain (ty : string) (m : Msg) : bool :=
  String.eqb ty "cc"%string &&
  match controller m with Some c => c =? 64 | None => false end.

(** [handleMIDIMessage(type, msg)].  [startRecording] and [recordMessage]
    each read the clock: [now] is the first reading, [now'] the second. *)
Definition handleMIDIMessage (now now' : Z) (ty : string) (m : Msg) (w : World)
  : World :=
  match state w with
  | listening =>
      if String.eqb ty "noteon"%string then
        (startRecording now ;; recordMessage now' ty m) w
      else if is_sustain ty m then
        (startRecording now ;; recordMessage now' ty m) w
      else w
  | recording => recordMessage now' ty m w
  | playback =>
      if String.eqb ty "noteon"%string then
        (startRecording now ;; recordMessage now' ty m) w
      else if is_sustain ty m then
        (startRecording now ;; recordMessage now' ty m) w
      else w
  end.

(** The [forEach] of [playBack]: one timer per recorded message, its handle
    pushed on [playbackTimeouts]. *)
Fixpoint schedule (now : Z) (index : nat) (rs : list Recorded) (w : World)
  : World :=
  match rs with
  | [] => w
  | recorded :: rs' =>
      let (timeout, w1) :=
        setTimeout now (EmitMessage index recorded) (timestamp recorded) w in
      schedule now (S index) rs'
        (set_playbackTimeouts (playbackTimeouts w1 ++ [timeout]) w1)
  end.

(** The "clear any existing timeouts" block shared by [playBack] and
    [stopPlayback]. *)
Definition clearPlaybackTimers (w : World) : World :=
  let w1 := set_playbackTimeouts [] (clearTimeouts (playbackTimeouts w) w) in
  match playbackCompleteTimeout w1 with
  | Some h => set_playbackCompleteTimeout None (clearTimeout h w1)
  | None => w1
  end.

(** [playBack()], called when the clock reads [now]. *)
Definition playBack (now : Z) (w : World) : World :=
  match state w with
  | playback => console_log WarnAlreadyPlaying w
  | _ =>
      match recordedMessages w with
      | [] => console_log WarnNoRecordedToPlay w
      | r0 :: _ =>
          let w1 :=
            (set_state playback ;;
             console_log (LogPlayingBack (List.length (recordedMessages w))) ;;
             clearPlaybackTimers ;;
             schedule now 0 (recordedMessages w)) w in
          let totalDuration := timestamp (last (recordedMessages w) r0) in
          let (h, w2) := setTimeout now PlaybackComplete (totalDuration + 100) w1 in
          set_playbackCompleteTimeout (Some h) w2
      end
  end.

(** [stopPlayback()]. *)
Definition stopPlayback (w : World) : World :=
  match state w with
  | playback =>
      (clearPlaybackTimers ;;
       set_state listening ;;
       console_log LogPlaybackStopped ;;
       console_log LogListening) w
  | _ => w
  end.

(** The body of a timer's callback.  [send_ok] tells whether [output.send]
    returns ([true]) or throws ([false]); a throw is caught by the [try] of
    the callback. *)
Definition run_callback (cb : Callback) (send_ok : bool) (w : World) : World :=
  match cb with
  | EmitMessage index recorded =>
      if send_ok then output_send (type recorded) (msg recorded) w
      else console_log (ErrPlayingMessage index) w
  | PlaybackComplete =>
      (set_state listening ;;
       console_log LogPlaybackComplete ;;
       console_log LogListening ;;
       set_playbackTimeouts [] ;;
       set_playbackCompleteTimeout None) w
  end.

(** The runtime fires timer [h]: it stops being pending, then its callback
    runs. *)
Definition fire (t : Timer) (send_ok : bool) (w : World) : World :=
  run_callback (callback t) send_ok (clearTimeout (handle t) w).

(** The part of [exportMIDI] that touches the program's variables: a warning
    on an empty log; otherwise the track is built and written to a file,
    and either the body of the [try] runs to its end ([write_ok]) and the
    file is reported, or it throws and the [catch] logs the error.  The
    [try] writes nothing to the console before its last two statements. *)
Definition exportMIDI_effect (write_ok : bool) (w : World) : World :=
  match recordedMessages w with
  | [] => console_log WarnNoRecordedToExport w
  | _ =>
      if write_ok then
        (console_log LogExported ;; console_log LogLocation) w
      else
        (console_log ErrExporting ;; console_log ErrStack) w
  end.

Definition key_is (key lower upper : string) : bool :=
  String.eqb key lower || String.eqb key upper.

Definition ctrl_c : string := String (ascii_of_nat 3) EmptyString.
Definition ctrl_d : string := String (ascii_of_nat 4) EmptyString.

(** The ['data'] handler of [setupKeyboardInput].  [None]: the key ends the
    process ([cleanup]).  The keys of the sheet viewer leave the variables of
    the recorder alone.  For the key [e] this is the run in which the export
    does not throw; the other one is the stimulus [ExportThrows] below. *)
Definition onKey (now : Z) (key : string) (w : World) : option World :=
  if String.eqb key ctrl_c then None
  else if String.eqb key ctrl_d then None
  else if key_is key "s"%string "S"%string then
    Some match state w with
         | recording => stopRecording now w
         | playback => stopPlayback w
         | listening => w
         end
  else if key_is key "p"%string "P"%string then Some (playBack now w)
  else if key_is key "e"%string "E"%string then
    Some (exportMIDI_effect true w)
  else Some w.

(** ** The event loop *)

Inductive Stimulus :=
| MidiIn (now now' : Z) (ty : string) (m : Msg)
| Key (now : Z) (key : string)
| TimerFires (now : Z) (h : nat) (send_ok : bool)
| ExportThrows (now : Z) (key : string).

(** One handler run to completion.  [ExportThrows]: the key [e] or [E] is
    pressed and the export throws.  [None] when the stimulus cannot occur in
    [w] (the clock would run backwards, the timer is not pending or not yet
    due) or when it ends the process. *)
Definition step (s : Stimulus) (w : World) : option World :=
  match s with
  | MidiIn now now' ty m =>
      if (clock w <=? now) && (now <=? now') then
        Some (set_clock now' (handleMIDIMessage now now' ty m w))
      else None
  | Key now key =>
      if clock w <=? now then
        option_map (set_clock now) (onKey now key w)
      else None
  | TimerFires now h send_ok =>
      if clock w <=? now then
        match find_timer h w with
        | Some t =>
            if due t <=? now then Some (set_clock now (fire t send_ok w))
            else None
        | None => None
        end
      else None
  | ExportThrows now key =>
      if (clock w <=? now) && key_is key "e" "E" then
        Some (set_clock now (exportMIDI_effect false w))
      else None
  end.

Fixpoint run (ss : list Stimulus) (w : World) : option World :=
  match ss with
  | [] => Some w
  | s :: ss' =>
      match step s w with
      | Some w' => run ss' w'
      | None => None
      end
  end.

(** ** Numbers of the encoder

    [exportMIDI] computes times in seconds with JavaScript numbers, that is
    IEEE 754 binary64.  The encoder below is written once over the four
    operations it uses, and has two readings: [binary64], on the kernel's
    primitive floats, is what the program computes, and the properties of
    times and durations are stated on it; [exact] replaces each operation
    by the rational one it rounds, and only serves to set the two side by
    side on the example of two notes. *)
Class JsNumber := {
  num : Type;
  of_ms : Z -> num;                  (* [x / 1000] for an integer [x] *)
  minus : num -> num -> num;         (* [a - b] *)
  Math_max : num -> num -> num;      (* [Math.max(a, b)] *)
  one_ms : num                       (* the literal [0.001] *)
}.

(** An integer as a binary64 number (exact below 2^53 in magnitude, which
    covers every difference of two [Date.now()] readings). *)
Definition float_of_Z (z : Z) : PrimFloat.float :=
  if z <? 0 then PrimFloat.opp (PrimFloat.of_uint63 (Uint63.of_Z (- z)))
  else PrimFloat.of_uint63 (Uint63.of_Z z).

(** [Math.max] on two numbers: NaN when either is NaN, the larger one
    otherwise, and +0 rather than -0 when both are zero. *)
Definition float_max (a b : PrimFloat.float) : PrimFloat.float :=
  if PrimFloat.is_nan a || PrimFloat.is_nan b then PrimFloat.nan
  else if PrimFloat.leb a b then
    if PrimFloat.leb b a then
      match PrimFloat.classify a with
      | FloatClass.NZero => b
      | _ => a
      end
    else b
  else a.

#[export] Instance binary64 : JsNumber := {|
  num := PrimFloat.float;
  of_ms z := PrimFloat.div (float_of_Z z) 1000%float;
  minus := PrimFloat.sub;
  Math_max := float_max;
  one_ms := 0.001%float
|}.

Definition Q_max (a b : Q) : Q := if Qle_bool a b then b else a.

(** Rationals are kept in lowest terms, so that equal numbers are equal
    terms. *)
#[export] Instance exact : JsNumber := {|
  num := Q;
  of_ms z := Qred (z # 1000);
  minus a b := Qred (a - b);
  Math_max := Q_max;
  one_ms := (1 # 1000)%Q
|}.

(** ** The objects of [exportMIDI] *)

(** The values of [activeNotes]: [{ startTime, velocity, channel }]. *)
Module NoteInfo.
Record t `{JsNumber} := mk {
  startTime : num;
  velocity : Z;
  channel : Z
}.
End NoteInfo.

(** The argument of [track.addNote]. *)
Module Note.
Record t `{JsNumber} := mk {
  midi : option Z;
  time : num;
  duration : num;
  velocity : Z;
  channel : Z
}.
End Note.

(** The argument of [track.addCC]. *)
Module CC.
Record t `{JsNumber} := mk {
  number : option Z;
  value : option Z;
  time : num;
  channel : Z
}.
End CC.

(** The track, as the calls the encoder makes on it, in order. *)
Inductive TrackCall `{JsNumber} :=
| addNote (n : Note.t)
| addCC (c : CC.t).

(** A JavaScript [Map] keyed by [msg.note]: entries in insertion order, which
    is the order [forEach] visits them in. *)
Module JsMap.
Definition key := option Z.

Definition key_eqb (a b : key) : bool :=
  match a, b with
  | Some x, Some y => x =? y
  | None, None => true
  | _, _ => false
  end.

Definition t (V : Type) := list (key * V).

(** [m.has(k)] followed by [m.get(k)], as one lookup: [None] when the key
    is absent. *)
Fixpoint get {V} (k : key) (m : t V) : option V :=
  match m with
  | [] => None
  | (k', v) :: m' => if key_eqb k' k then Some v else get k m'
  end.

Fixpoint delete {V} (k : key) (m : t V) : t V :=
  match m with
  | [] => []
  | (k', v) :: m' => if key_eqb k' k then m' else (k', v) :: delete k m'
  end.

(** [set] keeps the position of a key that is present and appends a new
    one. *)
Fixpoint set {V} (k : key) (v : V) (m : t V) : t V :=
  match m with
  | [] => [(k, v)]
  | (k', v') :: m' =>
      if key_eqb k' k then (k, v) :: m' else (k', v') :: set k v m'
  end.
End JsMap.

(** [x > 0] for a field [x]: false when the field is missing. *)
Definition js_gt0 (x : option Z) : bool :=
  match x with Some v => 0 <? v | None => false end.

(** [x === 0]. *)
Definition js_is0 (x : option Z) : bool :=
  match x with Some v => v =? 0 | None => false end.

(** [x || d]: [d] when [x] is missing or 0. *)
Definition js_or (x : option Z) (d : Z) : Z :=
  match x with
  | Some v => if v =? 0 then d else v
  | None => d
  end.

Section Encoder.
Context {N : JsNumber}.

Definition Track := list TrackCall.
Definition ActiveNotes := JsMap.t NoteInfo.t.

(** The note a call of [track.addNote] closes: from [noteInfo.startTime]
    to [time], with [Math.max(0.001, ..)] as duration. *)
Definition closeNote (noteNum : option Z) (noteInfo : NoteInfo.t)
           (time : num) (channel : Z) : TrackCall :=
  addNote (Note.mk _ noteNum
             (NoteInfo.startTime noteInfo)
             (Math_max one_ms (minus time (NoteInfo.startTime noteInfo)))
             (NoteInfo.velocity noteInfo)
             channel).

(** The body of [recordedMessages.forEach] in [exportMIDI]; [startTime] is
    the timestamp of the first message.  Timestamps are integers, so
    [recorded.timestamp - startTime] is exact; the division by 1000 is the
    first operation that rounds. *)
Definition encodeMessage (startTime : Z) (acc : Track * ActiveNotes)
           (recorded : Recorded) : Track * ActiveNotes :=
  let (track, activeNotes) := acc in
  let time := of_ms (timestamp recorded - startTime) in
  let ty := type recorded in
  let m := msg recorded in
  if String.eqb ty "noteon" && js_gt0 (velocity m) then
    let noteNum := note m in
    let channel := js_or (channel m) 0 in
    let velocity := js_or (velocity m) 100 in
    (* if the note is already active, close it first *)
    let (track1, active1) :=
      match JsMap.get noteNum activeNotes with
      | Some noteInfo =>
          (track ++ [closeNote noteNum noteInfo time channel],
           JsMap.delete noteNum activeNotes)
      | None => (track, activeNotes)
      end in
    (* start the new note *)
    (track1, JsMap.set noteNum (NoteInfo.mk _ time velocity channel) active1)
  else if String.eqb ty "noteoff"
          || (String.eqb ty "noteon" && js_is0 (velocity m)) then
    let noteNum := note m in
    match JsMap.get noteNum activeNotes with
    | Some noteInfo =>
        (track ++ [closeNote noteNum noteInfo time (NoteInfo.channel noteInfo)],
         JsMap.delete noteNum activeNotes)
    | None => (track, activeNotes)
    end
  else if String.eqb ty "cc" then
    (track ++ [addCC (CC.mk _ (controller m) (value m) time
                        (js_or (channel m) 0))],
     activeNotes)
  else (track, activeNotes).

(** The [activeNotes.forEach] that closes what is still active at
    [endTime]. *)
Definition closeRemaining (endTime : num) (activeNotes : ActiveNotes)
  : Track :=
  map (fun '(noteNum, noteInfo) =>
         closeNote noteNum noteInfo endTime (NoteInfo.channel noteInfo))
      activeNotes.

Definition encodeLoop (startTime : Z) (recordedMessages : list Recorded)
  : Track * ActiveNotes :=
  fold_left (encodeMessage startTime) recordedMessages ([], []).

(** [exportMIDI()], up to the calls made on the track: [None] when the log
    is empty (a warning, no file). *)
Definition exportMIDI (recordedMessages : list Recorded) : option Track :=
  match recordedMessages with
  | [] => None
  | first :: _ =>
      let startTime := timestamp first in
      let totalDuration :=
        timestamp (last recordedMessages first) - startTime in
      let (track, activeNotes) := encodeLoop startTime recordedMessages in
      let endTime := of_ms totalDuration in
      Some (track ++ closeRemaining endTime activeNotes)
  end.
End Encoder.

(** The notes of a track. *)
Definition notes `{JsNumber} (track : Track) : list Note.t :=
  flat_map (fun c => match c with addNote n => [n] | addCC _ => [] end) track.

(** ** Opened and closed notes *)

(** The messages that open a note: [type === 'noteon' && msg.velocity > 0]. *)
Definition opens (r : Recorded) : bool :=
  String.eqb (type r) "noteon" && js_gt0 (velocity (msg r)).

(** The messages that close one:
    [type === 'noteoff' || (type === 'noteon' && msg.velocity === 0)]. *)
Definition releases (r : Recorded) : bool :=
  String.eqb (type r) "noteoff"
  || (String.eqb (type r) "noteon" && js_is0 (velocity (msg r))).

Definition count_opens (log : list Recorded) : nat :=
  List.length (filter opens log).

(** No message of [l] opens or closes the note of number [k]. *)
Definition untouched (k : option Z) (l : list Recorded) : Prop :=
  Forall (fun r => opens r || releases r = true -> note (msg r) <> k) l.

Section Accounting.
Context {N : JsNumber}.
Variable t0 : Z.

(** The track holds a note for the message [r]: its pitch, the time of
    [r] as its start, its velocity. *)
Definition closed_in (track : Track) (r : Recorded) : Prop :=
  exists n, In n (notes track) /\
            Note.midi n = note (msg r) /\
            Note.time n = of_ms (timestamp r - t0) /\
            Note.velocity n = js_or (velocity (msg r)) 100.

(** The note opened by [r] is still active. *)
Definition active_in (active : ActiveNotes) (r : Recorded) : Prop :=
  exists info, JsMap.get (note (msg r)) active = Some info /\
               NoteInfo.startTime info = of_ms (timestamp r - t0) /\
               NoteInfo.velocity info = js_or (velocity (msg r)) 100.

Definition accounted (acc : Track * ActiveNotes) (r : Recorded) : Prop :=
  closed_in (fst acc) r \/ active_in (snd acc) r.

(** The notes of the track and the active ones add up to [n], and no note
    number is active twice. *)
Definition balance (acc : Track * ActiveNotes) (n : nat) : Prop :=
  NoDup (map fst (snd acc)) /\
  (List.length (notes (fst acc)) + List.length (snd acc))%nat = n.
End Accounting.

(** The duration of a note is some [Math.max(0.001, t - start)]. *)
Definition floored `{JsNumber} (n : Note.t) : Prop :=
  exists t, Note.duration n = Math_max one_ms (minus t (Note.time n)).

(** ** Logs used as examples *)

(** A note message: the note number, and the velocity and channel fields as
    the object carries them. *)
Definition noteMsg (n : Z) (v c : option Z) : Msg :=
  mkMsg (Some n) v c None None.

(** Two keys, each pressed and released. *)
Definition two_notes_log (c1 c2 c3 c4 v2 v4 : option Z) : list Recorded :=
  [mkRecorded "noteon" (noteMsg 60 (Some 100) c1) 0;
   mkRecorded "noteoff" (noteMsg 60 v2 c2) 500;
   mkRecorded "noteon" (noteMsg 64 (Some 90) c3) 500;
   mkRecorded "noteoff" (noteMsg 64 v4 c4) 1200].

(** The same key pressed twice without a release, first on channel 0, then
    on channel 1. *)
Definition retrigger_log : list Recorded :=
  [mkRecorded "noteon" (noteMsg 60 (Some 100) (Some 0)) 0;
   mkRecorded "noteon" (noteMsg 60 (Some 90) (Some 1)) 500].

(** A key pressed, the message without its velocity field, and released. *)
Definition no_velocity_log : list Recorded :=
  [mkRecorded "noteon" (noteMsg 60 None (Some 0)) 0;
   mkRecorded "noteoff" (noteMsg 60 (Some 0) (Some 0)) 500].

(** ** What [playBack] leaves pending *)

(** The timers the [forEach] of [playBack] sets for the messages [rs], the
    first with handle [h] and index [index]. *)
Fixpoint emission_timers (now : Z) (h index : nat) (rs : list Recorded)
  : list Timer :=
  match rs with
  | [] => []
  | r :: rs' =>
      mkTimer h (now + timer_delay (timestamp r)) (EmitMessage index r)
      :: emission_timers now (S h) (S index) rs'
  end.

(** The completion timer of a replay of [rs] started at [now]. *)
Definition completion_timer (now : Z) (h : nat) (r0 : Recorded)
           (rs : list Recorded) : Timer :=
  mkTimer h (now + timer_delay (timestamp (last rs r0) + 100)) PlaybackComplete.

(** The timers of [p] that remain after [clearTimeout] on each handle of
    [hs]. *)
Definition cancel (hs : list nat) (p : list Timer) : list Timer :=
  fold_left (fun p h => filter (fun t => negb (Nat.eqb (handle t) h)) p) hs p.

(** The timers that remain after the "clear any existing timeouts" block. *)
Definition cancelled (w : World) : list Timer :=
  match playbackCompleteTimeout w with
  | Some h => cancel [h] (cancel (playbackTimeouts w) (pending w))
  | None => cancel (playbackTimeouts w) (pending w)
  end.

(** Handles are handed out in increasing order: a pending timer has a handle
    below [next_handle]. *)
Definition handles_fresh (w : World) : Prop :=
  Forall (fun t => (handle t < next_handle w)%nat) (pending w).

(** ** Runs used as examples *)

Definition noteOn (n v : Z) : Msg := mkMsg (Some n) (Some v) (Some 0) None None.
Definition noteOff (n : Z) : Msg := mkMsg (Some n) (Some 0) (Some 0) None None.

(** A take of two messages: a key pressed at 0 ms and released at 1000 ms. *)
Definition take_stimuli : list Stimulus :=
  [MidiIn 0 0 "noteon" (noteOn 60 100);
   MidiIn 1000 1000 "noteoff" (noteOff 60)].

(** The world in the middle of that take. *)
Definition capturing : World :=
  mkWorld recording
    [mkRecorded "noteon" (noteOn 60 100) 0;
     mkRecorded "noteoff" (noteOff 60) 1000]
    (Some 0) [] None [] 0%nat 1000 [LogRecording] [].

(** The take is stopped at 1500 ms and played at 2000 ms; its first message
    is emitted; at 2500 ms, in the middle of the replay, a new key is
    pressed. *)
Definition replay_preempted : list Stimulus :=
  take_stimuli ++
  [Key 1500 "s"; Key 2000 "p"; TimerFires 2001 0 true;
   MidiIn 2500 2500 "noteon" (noteOn 72 80)].

(** ** A replay session run to its end *)

(** The stimuli that fire the timers [ts], one after the other, at the
    times [times], the sink accepting ([true]) or failing ([false]) as
    [oks] says. *)
Fixpoint firings (ts : list Timer) (times : list Z) (oks : list bool)
  : list Stimulus :=
  match ts, times, oks with
  | t :: ts', time :: times', ok :: oks' =>
      TimerFires time (handle t) ok :: firings ts' times' oks'
  | _, _, _ => []
  end.

(** The times [times] are possible firing times for [ts] after the clock
    read [c]: in order, and none before its timer is due. *)
Fixpoint on_schedule (c : Z) (ts : list Timer) (times : list Z) : Prop :=
  match ts, times with
  | [], [] => True
  | t :: ts', time :: times' =>
      c <= time /\ due t <= time /\ on_schedule time ts' times'
  | _, _ => False
  end.

(** The messages of [rs] whose send succeeds, in order. *)
Fixpoint delivered (rs : list Recorded) (oks : list bool)
  : list (string * Msg) :=
  match rs, oks with
  | r :: rs', ok :: oks' =>
      (if ok then [(type r, msg r)] else []) ++ delivered rs' oks'
  | _, _ => []
  end.

(** The errors logged for the messages of [rs] whose send fails. *)
Fixpoint send_errors (index : nat) (rs : list Recorded) (oks : list bool)
  : list ConsoleLine :=
  match rs, oks with
  | _ :: rs', ok :: oks' =>
      (if ok then [] else [ErrPlayingMessage index])
        ++ send_errors (S index) rs' oks'
  | _, _ => []
  end.

(** The world after the take was stopped at 1500 ms. *)
Definition stopped : World :=
  mkWorld listening
    [mkRecorded "noteon" (noteOn 60 100) 0;
     mkRecorded "noteoff" (noteOff 60) 1000]
    (Some 0) [] None [] 0%nat 1500
    [LogRecording; LogRecordingStopped 1500 2; LogListening] [].

(** The world [replay_preempted] leads to: a new take has started, the
    timers of the second message and of the completion of the interrupted
    replay are still pending, their handles still held. *)
Definition preempted : World :=
  mkWorld recording
    [mkRecorded "noteon" (noteOn 72 80) 0]
    (Some 2500) [0%nat; 1%nat] (Some 2%nat)
    [mkTimer 1 3000 (EmitMessage 1 (mkRecorded "noteoff" (noteOff 60) 1000));
     mkTimer 2 3100 PlaybackComplete]
    3%nat 2500
    [LogRecording; LogRecordingStopped 1500 2; LogListening; LogPlayingBack 2;
     LogRecording]
    [("noteon"%string, noteOn 60 100)].

(** The world in the middle of a replay of that take, started at 2000 ms:
    its first message went out at 2001 ms, the timers of the second one and
    of the completion are pending. *)
Definition replaying : World :=
  mkWorld playback
    [mkRecorded "noteon" (noteOn 60 100) 0;
     mkRecorded "noteoff" (noteOff 60) 1000]
    (Some 0) [0%nat; 1%nat] (Some 2%nat)
    [mkTimer 1 3000 (EmitMessage 1 (mkRecorded "noteoff" (noteOff 60) 1000));
     mkTimer 2 3100 PlaybackComplete]
    3%nat 2001
    [LogRecording; LogRecordingStopped 1500 2; LogListening; LogPlayingBack 2]
    [("noteon"%string, noteOn 60 100)].

(** The world after that replay ran to its end at 3100 ms. *)
Definition replayed : World :=
  mkWorld listening
    [mkRecorded "noteon" (noteOn 60 100) 0;
     mkRecorded "noteoff" (noteOff 60) 1000]
    (Some 0) [] None [] 3%nat 3100
    [LogRecording; LogRecordingStopped 1500 2; LogListening; LogPlayingBack 2;
     LogPlaybackComplete; LogListening]
    [("noteon"%string, noteOn 60 100); ("noteoff"%string, noteOff 60)].

(** A key pressed at 2500 ms, in the middle of that replay, starts a new
    take; the second message of the replay still goes out at 3000 ms and two
    exports are asked for before the key is released: the world at
    3061 ms. *)
Definition retaken : World :=
  mkWorld recording
    [mkRecorded "noteon" (noteOn 72 80) 0;
     mkRecorded "noteoff" (noteOff 72) 561]
    (Some 2500) [0%nat; 1%nat] (Some 2%nat)
    [mkTimer 2 3100 PlaybackComplete]
    3%nat 3061
    [LogRecording; LogRecordingStopped 1500 2; LogListening; LogPlayingBack 2;
     LogRecording; LogExported; LogLocation; ErrExporting; ErrStack]
    [("noteon"%string, noteOn 60 100); ("noteoff"%string, noteOff 60)].

(** ** Invariant of the log *)

Definition offsets (w : World) : list Z :=
  map timestamp (recordedMessages w).

(** The offsets are in order and none is ahead of the clock. *)
Definition log_inv (w : World) : Prop :=
  StronglySorted Z.le (offsets w) /\
  Forall (fun t => t <= since_start (clock w) w) (offsets w).

(** ** Invariant of the session *)

(** What holds of the program's variables in every world it reaches: the
    state is listening while nothing was recorded; a log that is not empty
    has a start time; the start time is not ahead of the clock; no offset is
    negative. *)
Definition session_inv (w : World) : Prop :=
  (recordedMessages w = [] -> state w = listening) /\
  (recordedMessages w <> [] -> exists s, recordingStartTime w = Some s) /\
  (forall s, recordingStartTime w = Some s -> s <= clock w) /\
  Forall (fun t => 0 <= t) (offsets w).

(** ** Messages arriving in a row *)

(** A MIDI message as the runtime delivers it: the two clock readings of
    its handler, its type and its fields. *)
Definition Arrival : Type := Z * Z * string * Msg.

Definition midi_stimuli (ms : list Arrival) : list Stimulus :=
  map (fun '(now, now', ty, m) => MidiIn now now' ty m) ms.

(** The entries [recordMessage] makes of them in a take started at [s]. *)
Definition recorded_since (s : Z) (ms : list Arrival) : list Recorded :=
  map (fun '(now, now', ty, m) => mkRecorded ty m (now' - s)) ms.

(** The messages that start a recording: a note-on, or the sustain pedal. *)
Definition is_trigger (ty : string) (m : Msg) : bool :=
  String.eqb ty "noteon" || is_sustain ty m.

(** The readings of the clock in [ms] are possible after the clock read
    [c]: none runs backwards. *)
Fixpoint arrivals_in_order (c : Z) (ms : list Arrival) : Prop :=
  match ms with
  | [] => True
  | (now, now', _, _) :: ms' =>
      c <= now /\ now <= now' /\ arrivals_in_order now' ms'
  end.

(** The clock after the messages [ms]: the second reading of the last
    one. *)
Definition last_reading (c : Z) (ms : list Arrival) : Z :=
  last (map (fun '(_, now', _, _) => now') ms) c.

(** What the output gets when the messages [ms] are sent. *)
Definition as_sent (ms : list Arrival) : list (string * Msg) :=
  map (fun '(_, _, ty, m) => (ty, m)) ms.

Definition is_midi (s : Stimulus) : bool :=
  match s with MidiIn _ _ _ _ => true | _ => false end.

Definition arrival_triggers (a : Arrival) : bool :=
  let '(_, _, ty, m) := a in is_trigger ty m.

(** ** What can happen during a take *)

(** The messages among the stimuli [ss], as they arrive. *)
Definition arrivals_of (ss : list Stimulus) : list Arrival :=
  flat_map (fun s => match s with
                     | MidiIn now now' ty m => [(now, now', ty, m)]
                     | _ => []
                     end) ss.

(** The stimuli that do not end a take: every message, every key but [s],
    [p], ctrl-C and ctrl-D, an export that throws, and every timer but the
    one whose handle [playbackCompleteTimeout] holds ([hc]). *)
Definition keeps_recording (hc : option nat) (s : Stimulus) : bool :=
  match s with
  | MidiIn _ _ _ _ => true
  | Key _ key =>
      negb (String.eqb key ctrl_c || String.eqb key ctrl_d
            || key_is key "s" "S" || key_is key "p" "P")
  | TimerFires _ h _ =>
      match hc with
      | Some h' => negb (Nat.eqb h h')
      | None => true
      end
  | ExportThrows _ _ => true
  end.

(** A pending timer that completes a replay is the one whose handle
    [playbackCompleteTimeout] holds. *)
Definition completion_tracked (w : World) : Prop :=
  Forall (fun t => callback t = PlaybackComplete ->
                   playbackCompleteTimeout w = Some (handle t)) (pending w).

(** ** Control changes and other messages in the encoder *)

Definition controlChanges `{JsNumber} (track : Track) : list CC.t :=
  flat_map (fun c => match c with addCC c => [c] | addNote _ => [] end) track.

Definition is_cc (r : Recorded) : bool := String.eqb (type r) "cc".

(** The record [track.addCC] gets for the message [r]. *)
Definition cc_record `{JsNumber} (t0 : Z) (r : Recorded) : CC.t :=
  CC.mk _ (controller (msg r)) (value (msg r)) (of_ms (timestamp r - t0))
    (js_or (channel (msg r)) 0).

(** The messages one of the three branches of the encoder takes. *)
Definition encoded (r : Recorded) : bool :=
  opens r || releases r || is_cc r.

(** The note [n] was opened by the message [r]. *)
Definition opened_by `{JsNumber} (t0 : Z) (n : Note.t) (r : Recorded) : Prop :=
  opens r = true /\
  Note.midi n = note (msg r) /\
  Note.time n = of_ms (timestamp r - t0) /\
  Note.velocity n = js_or (velocity (msg r)) 100.

(** ** Where notes come from *)

Section Provenance.
Context {N : JsNumber}.
Variable t0 : Z.
Variable log : list Recorded.

(** The note [n] was opened by a message of [log], and its channel is that
    of a message of [log] that opens a note of the same number. *)
Definition from_log (n : Note.t) : Prop :=
  (exists r, In r log /\ opened_by t0 n r) /\
  (exists r', In r' log /\ opens r' = true /\
              note (msg r') = Note.midi n /\
              Note.channel n = js_or (channel (msg r')) 0).

(** The active entry [(k, info)] was set by a message of [log]. *)
Definition set_by_log (e : JsMap.key * NoteInfo.t) : Prop :=
  exists r, In r log /\ opens r = true /\
            fst e = note (msg r) /\
            NoteInfo.startTime (snd e) = of_ms (timestamp r - t0) /\
            NoteInfo.velocity (snd e) = js_or (velocity (msg r)) 100 /\
            NoteInfo.channel (snd e) = js_or (channel (msg r)) 0.
End Provenance.

(** ** Binary64 numbers in the encoder *)

(** A number of the IEEE specification that is zero or finite, of sign
    [s]; neither NaN nor an infinity. *)
Definition sf_signed (s : bool) (x : SpecFloat.spec_float) : Prop :=
  match x with
  | SpecFloat.S754_zero s' | SpecFloat.S754_finite s' _ _ => s' = s
  | _ => False
  end.

Definition sf_finite (x : SpecFloat.spec_float) : Prop :=
  match x with
  | SpecFloat.S754_zero _ | SpecFloat.S754_finite _ _ _ => True
  | _ => False
  end.

(** [d] is the larger of [c] and [x] in the order of binary64: it is one
    of them and neither is above it. *)
Definition larger_of (d c x : PrimFloat.float) : Prop :=
  PrimFloat.leb c d = true /\
  PrimFloat.leb x d = true /\
  (d = c \/ d = x).

(** The note [n] starts at the time of a message [ro] of [log] and lasts
    [Math.max(0.001, t - start)] for the time [t] of a message [rc] of
    [log]. *)
Definition well_timed `{JsNumber} (t0 : Z) (log : list Recorded)
           (n : Note.t) : Prop :=
  exists ro rc,
    In ro log /\ In rc log /\
    Note.time n = of_ms (timestamp ro - t0) /\
    Note.duration n =
      Math_max one_ms (minus (of_ms (timestamp rc - t0))
                             (of_ms (timestamp ro - t0))).

(** The integer nearest to [T / 1000], the even one of the two when [T]
    is half way: what rounding to nearest, ties to even, makes of a
    quotient by 1000. *)
Definition rne_div (T : Z) : Z :=
  let q := T / 1000 in
  let r := T mod 1000 in
  if (500 <? r) || ((r =? 500) && Z.odd q) then q + 1 else q.

(** The mantissa of 1000 as a binary64 number: 1000 * 2^43. *)
Definition m1000 : Z := 8796093022208000.

(** Mantissa and exponent of the binary64 quotient by 1000 of the normal
    number of mantissa [m] (53 bits) and exponent [e]: the quotient scaled
    to 53 bits, then rounded. *)
Definition quot_m (m : Z) : Z :=
  rne_div (if m <? m1000 then m * 1024 else m * 512).

Definition quot_e (m e : Z) : Z :=
  if m <? m1000 then e - 10 else e - 9.

(** The position of a number between two integers once one more bit is
    shifted out: [odd] is that bit, [l] the position before. *)
Definition loc_half (odd : bool) (l : SpecFloat.location)
  : SpecFloat.location :=
  match odd, l with
  | false, SpecFloat.loc_Exact => SpecFloat.loc_Exact
  | false, _ => SpecFloat.loc_Inexact Lt
  | true, SpecFloat.loc_Exact => SpecFloat.loc_Inexact Eq
  | true, _ => SpecFloat.loc_Inexact Gt
  end.

(** * Properties of the state machine *)

(** The export changes the console and nothing else. *)
Lemma exportMIDI_effect_frame (write_ok : bool) (w : World) :
  exists ls,
    exportMIDI_effect write_ok w =
    mkWorld (state w) (recordedMessages w) (recordingStartTime w)
      (playbackTimeouts w) (playbackCompleteTimeout w) (pending w)
      (next_handle w) (clock w) (console w ++ ls) (sent w).
Proof.
  unfold exportMIDI_effect.
  destruct (recordedMessages w) eqn:El;
    [exists [WarnNoRecordedToExport]
    |destruct write_ok;
       [exists [LogExported; LogLocation] | exists [ErrExporting; ErrStack]]];
    unfold andThen, console_log; cbn; rewrite <- ?app_assoc, ?El; reflexivity.
Qed.

Lemma clearTimeouts_spec (hs : list nat) : forall w,
  clearTimeouts hs w = set_pending (cancel hs (pending w)) w.
Proof.
  induction hs as [|h hs IH]; intros w.
  - now destruct w.
  - unfold clearTimeouts, cancel in *. cbn [fold_left].
    rewrite IH. now destruct w.
Qed.

Lemma clearPlaybackTimers_spec (w : World) :
  clearPlaybackTimers w =
  mkWorld (state w) (recordedMessages w) (recordingStartTime w) [] None
    (cancelled w) (next_handle w) (clock w) (console w) (sent w).
Proof.
  unfold clearPlaybackTimers, cancelled.
  rewrite clearTimeouts_spec.
  destruct w as [s l t pt [h|] p n c co se]; reflexivity.
Qed.

Lemma schedule_spec (now : Z) (rs : list Recorded) : forall index w,
  schedule now index rs w =
  mkWorld (state w) (recordedMessages w) (recordingStartTime w)
    (playbackTimeouts w ++ seq (next_handle w) (List.length rs))
    (playbackCompleteTimeout w)
    (pending w ++ emission_timers now (next_handle w) index rs)
    (next_handle w + List.length rs) (clock w) (console w) (sent w).
Proof.
  induction rs as [|r rs IH]; intros index w.
  - destruct w; cbn. now rewrite !app_nil_r, Nat.add_0_r.
  - cbn [schedule setTimeout]. rewrite IH. destruct w; cbn.
    rewrite <- !app_assoc. cbn. f_equal. lia.
Qed.

(** What [playBack] does when it is not refused. *)
Lemma playBack_starts (now : Z) (w : World) (r : Recorded) (rs : list Recorded) :
  state w <> playback ->
  recordedMessages w = r :: rs ->
  playBack now w =
  mkWorld playback (r :: rs) (recordingStartTime w)
    (seq (next_handle w) (S (List.length rs)))
    (Some (next_handle w + S (List.length rs))%nat)
    (cancelled w
       ++ emission_timers now (next_handle w) 0 (r :: rs)
       ++ [completion_timer now (next_handle w + S (List.length rs)) r (r :: rs)])
    (S (next_handle w + S (List.length rs))) (clock w)
    (console w ++ [LogPlayingBack (S (List.length rs))]) (sent w).
Proof.
  intros Hs Hl. unfold playBack. rewrite Hl.
  destruct (state w) eqn:Es; try congruence;
    unfold andThen; rewrite schedule_spec, clearPlaybackTimers_spec;
    unfold cancelled, completion_timer, setTimeout;
    destruct w; cbn in Hl; subst; cbn -[last timer_delay];
    rewrite <- app_assoc; reflexivity.
Qed.

(** The key [p] runs [playBack] whatever the state is. *)
Lemma onKey_p (now : Z) (w : World) :
  onKey now "p" w = Some (playBack now w).
Proof. reflexivity. Qed.

(** C6: the play command with an empty log in the listening state, or in
    the playback state, only writes a warning: the state, the log, the
    pending timers and their handles, and what was sent stay as they were. *)
Theorem playBack_refused (now : Z) (w : World) :
  (state w = listening /\ recordedMessages w = []) \/ state w = playback ->
  let w' := playBack now w in
  onKey now "p" w = Some w' /\
  state w' = state w /\
  recordedMessages w' = recordedMessages w /\
  pending w' = pending w /\
  playbackTimeouts w' = playbackTimeouts w /\
  playbackCompleteTimeout w' = playbackCompleteTimeout w /\
  sent w' = sent w /\
  console w' =
    console w ++ [if State_eqb (state w) playback then WarnAlreadyPlaying
                  else WarnNoRecordedToPlay].
Proof.
  intros H w'. subst w'. rewrite onKey_p.
  assert (E : playBack now w =
              console_log (if State_eqb (state w) playback
                           then WarnAlreadyPlaying
                           else WarnNoRecordedToPlay) w).
  { unfold playBack.
    destruct H as [[Hs Hl]|Hs]; rewrite Hs; [rewrite Hl|]; reflexivity. }
  rewrite E. repeat split; reflexivity.
Qed.

Lemma playBack_refused_witness :
  ((state initial = listening /\ recordedMessages initial = []) \/
   state initial = playback) /\
  state (playBack 0 initial) = listening /\
  console (playBack 0 initial) = [WarnNoRecordedToPlay].
Proof.
  split; [left; split; reflexivity|].
  pose proof (playBack_refused 0 initial
                (or_introl (conj eq_refl eq_refl))) as H.
  cbv zeta in H. split; [apply H | apply H].
Defined.

(** C10: the play command in the recording state with a non-empty log is
    accepted: the state becomes playback without a stop in between, and one
    emission per message recorded so far is scheduled, with the completion
    timer after them. *)
Theorem playBack_while_recording (now : Z) (w : World)
        (r : Recorded) (rs : list Recorded) :
  state w = recording ->
  recordedMessages w = r :: rs ->
  let w' := playBack now w in
  onKey now "p" w = Some w' /\
  state w' = playback /\
  recordedMessages w' = r :: rs /\
  pending w' =
    cancelled w
      ++ emission_timers now (next_handle w) 0 (r :: rs)
      ++ [completion_timer now (next_handle w + List.length (r :: rs)) r (r :: rs)].
Proof.
  intros Hs Hl w'. subst w'. rewrite onKey_p.
  rewrite (playBack_starts now w r rs) by congruence.
  repeat split; reflexivity.
Qed.

Lemma playBack_while_recording_witness :
  state capturing = recording /\
  state (playBack 1200 capturing) = playback /\
  pending (playBack 1200 capturing) =
    [mkTimer 0 1201 (EmitMessage 0 (mkRecorded "noteon" (noteOn 60 100) 0));
     mkTimer 1 2200 (EmitMessage 1 (mkRecorded "noteoff" (noteOff 60) 1000));
     mkTimer 2 2300 PlaybackComplete].
Proof.
  split; [reflexivity|].
  pose proof (playBack_while_recording 1200 capturing _ _ eq_refl eq_refl) as H.
  cbv zeta in H. destruct H as (_ & H1 & _ & H3).
  split; [exact H1 | exact H3].
Defined.

(** [handleMIDIMessage] never touches the timers: a capture that starts in
    the playback state leaves every timer of the replay pending. *)
Lemma handleMIDIMessage_keeps_timers (now now' : Z) (ty : string) (m : Msg)
      (w : World) :
  pending (handleMIDIMessage now now' ty m w) = pending w.
Proof.
  unfold handleMIDIMessage, startRecording, recordMessage, andThen.
  destruct (state w) eqn:Es;
    destruct (String.eqb ty "noteon"); try reflexivity;
    destruct (is_sustain ty m); try rewrite Es; reflexivity.
Qed.

(** The completion callback sets the state without looking at it. *)
Lemma completion_sets_listening (send_ok : bool) (w : World) :
  state (run_callback PlaybackComplete send_ok w) = listening.
Proof. reflexivity. Qed.

(** C1: a key pressed during a replay starts a capture whose log holds that
    message alone, at offset 0, but the replay's timers stay pending: the
    emission of the old take that was due at 3000 ms is still delivered to
    the output after the capture has begun. *)
Theorem preempted_replay_still_emits :
  exists w1 w2,
    run replay_preempted initial = Some w1 /\
    state w1 = recording /\
    recordedMessages w1 = [mkRecorded "noteon" (noteOn 72 80) 0] /\
    sent w1 = [("noteon"%string, noteOn 60 100)] /\
    step (TimerFires 3000 1 true) w1 = Some w2 /\
    sent w2 = [("noteon"%string, noteOn 60 100);
               ("noteoff"%string, noteOff 60)].
Proof.
  eexists; eexists.
  split; [vm_compute; reflexivity|].
  repeat split; reflexivity.
Qed.

(** C2: after the same preemption, the completion timer of the old replay
    fires at 3100 ms while the state is recording, and the state becomes
    listening. *)
Theorem stale_completion_ends_capture :
  exists w1 w2,
    run (replay_preempted ++ [TimerFires 3000 1 true]) initial = Some w1 /\
    state w1 = recording /\
    step (TimerFires 3100 2 true) w1 = Some w2 /\
    state w2 = listening.
Proof.
  eexists; eexists.
  split; [vm_compute; reflexivity|].
  repeat split; reflexivity.
Qed.

(** ** The offsets of the log are in order *)

Lemma StronglySorted_snoc (l : list Z) (x : Z) :
  StronglySorted Z.le l ->
  Forall (fun t => t <= x) l ->
  StronglySorted Z.le (l ++ [x]).
Proof.
  induction 1 as [|a l Hl IH Ha]; intros Hx; cbn.
  - constructor; constructor.
  - inversion Hx; subst. constructor.
    + now apply IH.
    + apply Forall_app. split; [assumption | now constructor].
Qed.

(** A handler that leaves the log and its start alone keeps the invariant
    when the clock moves on. *)
Lemma log_inv_frame (w w' : World) :
  log_inv w ->
  recordedMessages w' = recordedMessages w ->
  recordingStartTime w' = recordingStartTime w ->
  clock w <= clock w' ->
  log_inv w'.
Proof.
  unfold log_inv, offsets, since_start. intros [Hs Hb] El Et Hc.
  rewrite El, Et. split; [assumption|].
  eapply Forall_impl; [|exact Hb]. cbn. intros; lia.
Qed.

Lemma log_inv_recordMessage (now : Z) (ty : string) (m : Msg) (w : World) :
  log_inv w ->
  clock w <= now ->
  log_inv (set_clock now (recordMessage now ty m w)).
Proof.
  unfold log_inv, offsets, since_start, recordMessage. intros [Hs Hb] Hc.
  destruct w as [s l t pt pc p n c co se]; cbn in *.
  unfold since_start in *; cbn in *.
  set (t0 := match t with Some t1 => t1 | None => 0 end) in *.
  rewrite map_app; cbn. split.
  - apply StronglySorted_snoc; [assumption|].
    eapply Forall_impl; [|exact Hb]. cbn. intros; lia.
  - apply Forall_app. split.
    + eapply Forall_impl; [|exact Hb]. cbn. intros; lia.
    + constructor; [lia | constructor].
Qed.

Lemma log_inv_startRecording (now now' : Z) (ty : string) (m : Msg)
      (w : World) :
  state w <> recording ->
  now <= now' ->
  log_inv (set_clock now' ((startRecording now ;; recordMessage now' ty m) w)).
Proof.
  intros Hs Hn.
  unfold andThen, startRecording, log_inv, offsets, recordMessage, since_start.
  destruct (state w) eqn:Es; try congruence; cbn;
    (split; [repeat constructor | constructor; [lia | constructor]]).
Qed.

Lemma playBack_keeps_log (now : Z) (w : World) :
  recordedMessages (playBack now w) = recordedMessages w /\
  recordingStartTime (playBack now w) = recordingStartTime w /\
  clock (playBack now w) = clock w.
Proof.
  destruct (State_eqb (state w) playback) eqn:Es.
  - unfold playBack. destruct (state w); try discriminate. now cbn.
  - destruct (recordedMessages w) as [|r rs] eqn:El.
    + unfold playBack. rewrite El. destruct (state w); now cbn.
    + rewrite (playBack_starts now w r rs); cbn; auto.
      intros E; rewrite E in Es; discriminate.
Qed.

Lemma stopPlayback_keeps_log (w : World) :
  recordedMessages (stopPlayback w) = recordedMessages w /\
  recordingStartTime (stopPlayback w) = recordingStartTime w /\
  clock (stopPlayback w) = clock w.
Proof.
  unfold stopPlayback, andThen. destruct (state w); auto.
  rewrite clearPlaybackTimers_spec. now cbn.
Qed.

Lemma onKey_keeps_log (now : Z) (key : string) (w w' : World) :
  onKey now key w = Some w' ->
  recordedMessages w' = recordedMessages w /\
  recordingStartTime w' = recordingStartTime w /\
  clock w' = clock w.
Proof.
  unfold onKey. intros H.
  repeat match type of H with
         | (if ?b then _ else _) = _ => destruct b
         end; try discriminate; inversion H; subst; clear H.
  - destruct (state w) eqn:Es; auto.
    + unfold stopRecording. rewrite Es. now cbn.
    + apply stopPlayback_keeps_log.
  - apply playBack_keeps_log.
  - unfold exportMIDI_effect.
    destruct (recordedMessages w) eqn:E; cbn; rewrite ?E; auto.
  - auto.
Qed.

Lemma fire_keeps_log (t : Timer) (send_ok : bool) (w : World) :
  recordedMessages (fire t send_ok w) = recordedMessages w /\
  recordingStartTime (fire t send_ok w) = recordingStartTime w /\
  clock (fire t send_ok w) = clock w.
Proof.
  unfold fire, run_callback. destruct (callback t); [destruct send_ok|];
    now cbn.
Qed.

Lemma step_log_inv (s : Stimulus) (w w' : World) :
  log_inv w -> step s w = Some w' -> log_inv w'.
Proof.
  intros Hi Hs.
  destruct s as [now now' ty m | now key | now h ok | now key]; cbn in Hs.
  - destruct (clock w <=? now) eqn:E1; [|discriminate].
    destruct (now <=? now') eqn:E2; [|discriminate].
    apply Z.leb_le in E1, E2. cbn in Hs. inversion Hs; subst; clear Hs.
    assert (Hskip : log_inv (set_clock now' w)).
    { apply (log_inv_frame w); auto. cbn. lia. }
    unfold handleMIDIMessage.
    destruct (state w) eqn:Es.
    + destruct (String.eqb ty "noteon");
        [|destruct (is_sustain ty m)]; auto;
        apply log_inv_startRecording; auto; congruence.
    + apply log_inv_recordMessage; auto. lia.
    + destruct (String.eqb ty "noteon");
        [|destruct (is_sustain ty m)]; auto;
        apply log_inv_startRecording; auto; congruence.
  - destruct (clock w <=? now) eqn:E1; [|discriminate].
    apply Z.leb_le in E1.
    destruct (onKey now key w) as [w1|] eqn:Ek; [|discriminate].
    cbn in Hs. inversion Hs; subst; clear Hs.
    destruct (onKey_keeps_log _ _ _ _ Ek) as (A & B & C).
    apply (log_inv_frame w); auto.
  - destruct (clock w <=? now) eqn:E1; [|discriminate].
    apply Z.leb_le in E1.
    destruct (find_timer h w) as [t|]; [|discriminate].
    destruct (due t <=? now); [|discriminate].
    inversion Hs; subst; clear Hs.
    destruct (fire_keeps_log t ok w) as (A & B & C).
    apply (log_inv_frame w); auto.
  - destruct (clock w <=? now) eqn:E1; [|discriminate].
    apply Z.leb_le in E1.
    destruct (key_is key "e" "E"); [|discriminate].
    cbn in Hs. inversion Hs; subst; clear Hs.
    destruct (exportMIDI_effect_frame false w) as [l ->].
    apply (log_inv_frame w); auto.
Qed.

Lemma run_log_inv (ss : list Stimulus) : forall w w',
  log_inv w -> run ss w = Some w' -> log_inv w'.
Proof.
  induction ss as [|s ss IH]; intros w w' Hi Hr; cbn in Hr.
  - now inversion Hr; subst.
  - destruct (step s w) as [w1|] eqn:Es; [|discriminate].
    eapply IH; [|exact Hr]. eapply step_log_inv; eauto.
Qed.

(** C9: in every world the program reaches from its start, whatever
    the stimuli and their times (the clock never runs backwards in a run),
    the timestamps of the recorded messages are in non-decreasing order. *)
Theorem offsets_monotonic (ss : list Stimulus) (w : World) :
  run ss initial = Some w ->
  StronglySorted Z.le (map timestamp (recordedMessages w)).
Proof.
  intros Hr. eapply (run_log_inv ss initial w); [|exact Hr].
  split; constructor.
Qed.

Lemma offsets_monotonic_witness :
  run take_stimuli initial = Some capturing /\
  StronglySorted Z.le (map timestamp (recordedMessages capturing)).
Proof.
  split; [reflexivity|].
  exact (offsets_monotonic take_stimuli capturing eq_refl).
Defined.

(** ** Timer handles *)

Lemma cancel_Forall (P : Timer -> Prop) (hs : list nat) : forall p,
  Forall P p -> Forall P (cancel hs p).
Proof.
  induction hs as [|h hs IH]; intros p Hp; cbn; [assumption|].
  apply IH. apply Forall_forall. intros t Ht.
  apply filter_In in Ht. rewrite Forall_forall in Hp. now apply Hp.
Qed.

Lemma cancelled_Forall (P : Timer -> Prop) (w : World) :
  Forall P (pending w) -> Forall P (cancelled w).
Proof.
  unfold cancelled. intros H.
  destruct (playbackCompleteTimeout w); repeat apply cancel_Forall; exact H.
Qed.

Lemma emission_timers_handles (now : Z) (rs : list Recorded) : forall h index,
  Forall (fun t => (h <= handle t < h + List.length rs)%nat)
         (emission_timers now h index rs).
Proof.
  induction rs as [|r rs IH]; intros h index; cbn; constructor.
  - cbn. lia.
  - eapply Forall_impl; [|apply (IH (S h) (S index))]. cbn. intros; lia.
Qed.

Lemma handleMIDIMessage_keeps_next_handle (now now' : Z) (ty : string)
      (m : Msg) (w : World) :
  next_handle (handleMIDIMessage now now' ty m w) = next_handle w.
Proof.
  unfold handleMIDIMessage, startRecording, recordMessage, andThen.
  destruct (state w) eqn:Es;
    destruct (String.eqb ty "noteon"); try reflexivity;
    destruct (is_sustain ty m); try rewrite Es; reflexivity.
Qed.

Lemma playBack_handles_fresh (now : Z) (w : World) :
  handles_fresh w -> handles_fresh (playBack now w).
Proof.
  intros Hf.
  destruct (State_eqb (state w) playback) eqn:Es.
  - unfold playBack. destruct (state w); try discriminate. exact Hf.
  - destruct (recordedMessages w) as [|r rs] eqn:El.
    + unfold playBack. rewrite El. destruct (state w); exact Hf.
    + rewrite (playBack_starts now w r rs); auto;
        [|intros E; rewrite E in Es; discriminate].
      unfold handles_fresh. cbn [pending next_handle].
      apply Forall_app. split; [|apply Forall_app; split].
      * eapply Forall_impl; [|apply cancelled_Forall; exact Hf].
        cbn. intros; lia.
      * eapply Forall_impl;
          [|apply (emission_timers_handles now (r :: rs) (next_handle w) 0)].
        cbn. intros; lia.
      * constructor; [cbn; lia | constructor].
Qed.

Lemma onKey_handles_fresh (now : Z) (key : string) (w w' : World) :
  handles_fresh w -> onKey now key w = Some w' -> handles_fresh w'.
Proof.
  unfold onKey. intros Hf H.
  repeat match type of H with
         | (if ?b then _ else _) = _ => destruct b
         end; try discriminate; inversion H; subst; clear H.
  - destruct (state w) eqn:Es; auto.
    + unfold stopRecording. rewrite Es. exact Hf.
    + unfold stopPlayback, andThen. rewrite Es, clearPlaybackTimers_spec.
      unfold handles_fresh. cbn. now apply cancelled_Forall.
  - now apply playBack_handles_fresh.
  - unfold exportMIDI_effect. destruct (recordedMessages w); exact Hf.
  - exact Hf.
Qed.

Lemma fire_handles_fresh (t : Timer) (send_ok : bool) (w : World) :
  handles_fresh w -> handles_fresh (fire t send_ok w).
Proof.
  unfold handles_fresh, fire, run_callback. intros Hf.
  assert (Hc : Forall (fun t0 => (handle t0 < next_handle w)%nat)
                 (pending (clearTimeout (handle t) w))).
  { cbn. apply Forall_forall. intros x Hx. apply filter_In in Hx.
    rewrite Forall_forall in Hf. now apply Hf. }
  destruct (callback t); [destruct send_ok|]; exact Hc.
Qed.

Lemma step_handles_fresh (s : Stimulus) (w w' : World) :
  handles_fresh w -> step s w = Some w' -> handles_fresh w'.
Proof.
  intros Hf Hs.
  destruct s as [now now' ty m | now key | now h ok | now key]; cbn in Hs.
  - destruct ((clock w <=? now) && (now <=? now')); [|discriminate].
    inversion Hs; subst; clear Hs. unfold handles_fresh. cbn.
    now rewrite handleMIDIMessage_keeps_timers,
      handleMIDIMessage_keeps_next_handle.
  - destruct (clock w <=? now); [|discriminate].
    destruct (onKey now key w) as [w1|] eqn:Ek; [|discriminate].
    inversion Hs; subst; clear Hs.
    apply (onKey_handles_fresh _ _ _ _ Hf) in Ek. exact Ek.
  - destruct (clock w <=? now); [|discriminate].
    destruct (find_timer h w) as [t|]; [|discriminate].
    destruct (due t <=? now); [|discriminate].
    inversion Hs; subst; clear Hs.
    now apply (fire_handles_fresh t ok) in Hf.
  - destruct ((clock w <=? now) && key_is key "e" "E"); [|discriminate].
    inversion Hs; subst; clear Hs.
    destruct (exportMIDI_effect_frame false w) as [l ->]. exact Hf.
Qed.

(** In every world the program reaches, the handles of the pending timers
    are below the next handle, hence different from those of later timers. *)
Lemma run_handles_fresh (ss : list Stimulus) : forall w w',
  handles_fresh w -> run ss w = Some w' -> handles_fresh w'.
Proof.
  induction ss as [|s ss IH]; intros w w' Hf Hr; cbn in Hr.
  - now inversion Hr; subst.
  - destruct (step s w) as [w1|] eqn:Es; [|discriminate].
    eapply IH; [|exact Hr]. eapply step_handles_fresh; eauto.
Qed.

(** ** A replay with sink failures *)

Lemma run_app (ss1 ss2 : list Stimulus) : forall w,
  run (ss1 ++ ss2) w =
  match run ss1 w with
  | Some w' => run ss2 w'
  | None => None
  end.
Proof.
  induction ss1 as [|s ss1 IH]; intros w; cbn; [reflexivity|].
  destruct (step s w); [apply IH | reflexivity].
Qed.

Lemma find_skip (h : nat) (P l : list Timer) :
  Forall (fun t => handle t <> h) P ->
  find (fun t => Nat.eqb (handle t) h) (P ++ l) =
  find (fun t => Nat.eqb (handle t) h) l.
Proof.
  induction 1 as [|t P Ht _ IH]; cbn; [reflexivity|].
  destruct (Nat.eqb_spec (handle t) h); [contradiction | exact IH].
Qed.

Lemma filter_keeps (h : nat) (l : list Timer) :
  Forall (fun t => handle t <> h) l ->
  filter (fun t => negb (Nat.eqb (handle t) h)) l = l.
Proof.
  induction 1 as [|t l Ht _ IH]; cbn; [reflexivity|].
  destruct (Nat.eqb_spec (handle t) h); [contradiction|].
  cbn. now rewrite IH.
Qed.

Lemma last_cons (a d : Z) (l : list Z) : last (a :: l) d = last l a.
Proof.
  revert a d. induction l as [|b l IH]; intros a d; [reflexivity|].
  change (last (a :: b :: l) d) with (last (b :: l) d).
  now rewrite !IH.
Qed.

(** Firing the emission timers of a session, each send succeeding or
    failing: the timers leave the table one by one, the messages whose send
    succeeds reach the output, the others leave an error on the console, and
    nothing else changes.  [P] and [Q] are the timers pending before and
    after those of the session. *)
Lemma run_emissions (now : Z) (rs : list Recorded) :
  forall (h index : nat) (times : list Z) (oks : list bool) (w : World)
         (P Q : list Timer),
    pending w = P ++ emission_timers now h index rs ++ Q ->
    Forall (fun t => (handle t < h)%nat) P ->
    Forall (fun t => (h + List.length rs <= handle t)%nat) Q ->
    List.length oks = List.length rs ->
    on_schedule (clock w) (emission_timers now h index rs) times ->
    run (firings (emission_timers now h index rs) times oks) w =
    Some (mkWorld (state w) (recordedMessages w) (recordingStartTime w)
            (playbackTimeouts w) (playbackCompleteTimeout w) (P ++ Q)
            (next_handle w) (last times (clock w))
            (console w ++ send_errors index rs oks)
            (sent w ++ delivered rs oks)).
Proof.
  induction rs as [|r rs IH]; intros h index times oks w P Q Hp HP HQ Hl Hs.
  - destruct times; [|contradiction]. cbn in *.
    destruct w; cbn in *; subst. now rewrite !app_nil_r.
  - destruct times as [|time times]; [contradiction|].
    destruct oks as [|ok oks]; [discriminate|].
    cbn in Hs. destruct Hs as (Hc & Hd & Hs).
    cbn [emission_timers firings handle run step].
    apply Z.leb_le in Hc. rewrite Hc.
    assert (HPh : Forall (fun t => handle t <> h) P).
    { eapply Forall_impl; [|exact HP]. cbn. intros; lia. }
    assert (HEh : Forall (fun t => handle t <> h)
                    (emission_timers now (S h) (S index) rs)).
    { eapply Forall_impl; [|apply emission_timers_handles]. cbn. intros; lia. }
    assert (HQh : Forall (fun t => handle t <> h) Q).
    { eapply Forall_impl; [|exact HQ]. cbn. intros; lia. }
    unfold find_timer. rewrite Hp. cbn [emission_timers app].
    rewrite find_skip by exact HPh.
    cbn [find handle]. rewrite Nat.eqb_refl. cbn [due].
    apply Z.leb_le in Hd. rewrite Hd.
    set (w1 := set_clock time (fire _ ok w)).
    assert (Hp1 : pending w1 =
                  P ++ emission_timers now (S h) (S index) rs ++ Q).
    { subst w1. unfold fire, run_callback. cbn [callback handle].
      assert (E : pending (clearTimeout h w) =
                  P ++ emission_timers now (S h) (S index) rs ++ Q).
      { cbn. rewrite Hp. cbn [emission_timers app].
        rewrite filter_app. cbn [filter handle].
        rewrite Nat.eqb_refl. cbn [negb].
        rewrite filter_app, !filter_keeps by assumption. reflexivity. }
      destruct ok; exact E. }
    rewrite (IH (S h) (S index) times oks w1 P Q Hp1).
    + f_equal. subst w1. unfold fire, run_callback. cbn [callback].
      rewrite last_cons.
      destruct ok; destruct w; cbn; rewrite <- ?app_assoc; reflexivity.
    + eapply Forall_impl; [|exact HP]. cbn. intros; lia.
    + eapply Forall_impl; [|exact HQ]. cbn. intros t Ht. cbn in Ht. lia.
    + now inversion Hl.
    + subst w1. exact Hs.
Qed.

(** C7: in any world the program reaches, a replay of the log [r :: rs]
    is started at [now] and its timers fire at any possible times, the send
    of each message succeeding or throwing as [oks] says.  Whatever [oks]
    is, every message whose send succeeds is delivered, in order; each
    failure leaves one error line and nothing else; the completion timer
    fires and the state is listening again, with no timer of the session
    left. *)
Theorem replay_survives_sink_failures
        (ss : list Stimulus) (w : World) (now : Z)
        (r : Recorded) (rs : list Recorded)
        (times : list Z) (oks : list bool) (tc : Z) (okc : bool) :
  run ss initial = Some w ->
  state w <> playback ->
  recordedMessages w = r :: rs ->
  clock w <= now ->
  List.length oks = List.length (r :: rs) ->
  let h := next_handle w in
  let n := List.length (r :: rs) in
  let E := emission_timers now h 0 (r :: rs) in
  let C := completion_timer now (h + n) r (r :: rs) in
  on_schedule now E times ->
  last times now <= tc ->
  due C <= tc ->
  exists w',
    run (Key now "p" :: firings E times oks ++ [TimerFires tc (handle C) okc]) w
      = Some w' /\
    sent w' = sent w ++ delivered (r :: rs) oks /\
    console w' =
      console w ++ [LogPlayingBack n] ++ send_errors 0 (r :: rs) oks
        ++ [LogPlaybackComplete; LogListening] /\
    state w' = listening /\
    pending w' = cancelled w.
Proof.
  intros Hr Hs Hl Hc Ho h n E C Hsch Htc Hdue.
  assert (Hf : handles_fresh w).
  { apply (run_handles_fresh ss initial w); [constructor | exact Hr]. }
  assert (HP : Forall (fun t => (handle t < h)%nat) (cancelled w)).
  { apply cancelled_Forall. exact Hf. }
  subst E C n h. cbn [List.length] in *.
  cbn [run step]. apply Z.leb_le in Hc. rewrite Hc.
  rewrite onKey_p. cbn [option_map].
  rewrite (playBack_starts now w r rs Hs Hl). rewrite run_app.
  match goal with |- context [run (firings _ _ _) ?x] => set (w1 := x) end.
  set (C := completion_timer _ _ _ _) in *.
  rewrite (run_emissions now (r :: rs) (next_handle w) 0%nat times oks w1
             (cancelled w) [C]); try assumption.
  - cbn [run]. unfold step. cbn [clock handle].
    apply Z.leb_le in Htc. subst w1. cbn [clock set_clock]. rewrite Htc.
    unfold find_timer. cbn [pending].
    rewrite find_skip.
    2:{ eapply Forall_impl; [|exact HP]. subst C. cbn. intros; lia. }
    subst C. cbn [find handle completion_timer]. rewrite Nat.eqb_refl.
    cbn [due completion_timer] in Hdue |- *.
    apply Z.leb_le in Hdue. rewrite Hdue.
    eexists. split; [reflexivity|].
    unfold fire, run_callback, andThen. cbn.
    repeat split.
    + now rewrite <- !app_assoc.
    + rewrite filter_app. cbn. rewrite Nat.eqb_refl. cbn.
      rewrite filter_keeps, app_nil_r; [reflexivity|].
      eapply Forall_impl; [|exact HP]. cbn. intros; lia.
  - reflexivity.
  - constructor; [|constructor]. subst C. cbn. lia.
Qed.

Lemma replay_survives_sink_failures_witness :
  run (take_stimuli ++ [Key 1500 "s"]) initial = Some stopped /\
  exists w',
    run [Key 2000 "p"; TimerFires 2001 0 false; TimerFires 3000 1 true;
         TimerFires 3100 2 true] stopped = Some w' /\
    sent w' = [("noteoff"%string, noteOff 60)] /\
    console w' =
      console stopped ++
        [LogPlayingBack 2; ErrPlayingMessage 0;
         LogPlaybackComplete; LogListening] /\
    state w' = listening /\
    pending w' = [].
Proof.
  split; [reflexivity|].
  refine (replay_survives_sink_failures
            (take_stimuli ++ [Key 1500 "s"]) stopped 2000 _ _
            [2001; 3000] [false; true] 3100 true
            eq_refl _ eq_refl _ eq_refl _ _ _).
  - discriminate.
  - cbn. lia.
  - cbn. lia.
  - cbn. lia.
  - cbn. lia.
Defined.

(** * Properties of the encoder *)

(** ** The map of active notes *)

Lemma key_eqb_spec (a b : JsMap.key) : reflect (a = b) (JsMap.key_eqb a b).
Proof.
  destruct a as [x|], b as [y|]; cbn; try (constructor; congruence).
  destruct (Z.eqb_spec x y); constructor; congruence.
Qed.

Section JsMapFacts.
Context {V : Type}.
Implicit Types (k : JsMap.key) (v : V) (m : JsMap.t V).

Lemma get_In k v m : JsMap.get k m = Some v -> In (k, v) m.
Proof.
  induction m as [|[k' v'] m IH]; cbn; [discriminate|].
  destruct (key_eqb_spec k' k); intros H.
  - inversion H; subst. now left.
  - right. now apply IH.
Qed.

Lemma get_None_keys k m :
  JsMap.get k m = None <-> ~ In k (map fst m).
Proof.
  induction m as [|[k' v'] m IH]; cbn; [tauto|].
  destruct (key_eqb_spec k' k); split; intros H.
  - discriminate.
  - exfalso. apply H. now left.
  - intros [E|E]; [contradiction | now apply IH in H].
  - apply IH. tauto.
Qed.

Lemma set_absent k v m :
  JsMap.get k m = None -> JsMap.set k v m = m ++ [(k, v)].
Proof.
  induction m as [|[k' v'] m IH]; cbn; [reflexivity|].
  destruct (key_eqb_spec k' k); [discriminate|].
  intros H. now rewrite IH.
Qed.

Lemma get_set_same k v m : JsMap.get k (JsMap.set k v m) = Some v.
Proof.
  induction m as [|[k' v'] m IH]; cbn.
  - now destruct (key_eqb_spec k k).
  - destruct (key_eqb_spec k' k) as [E|E]; cbn.
    + now destruct (key_eqb_spec k k).
    + destruct (key_eqb_spec k' k); [contradiction | exact IH].
Qed.

Lemma get_set_other k k' v m :
  k <> k' -> JsMap.get k' (JsMap.set k v m) = JsMap.get k' m.
Proof.
  intros Hk. induction m as [|[k0 v0] m IH]; cbn.
  - now destruct (key_eqb_spec k k').
  - destruct (key_eqb_spec k0 k) as [E|E]; cbn.
    + subst k0. destruct (key_eqb_spec k k'); [contradiction | reflexivity].
    + destruct (key_eqb_spec k0 k'); [reflexivity | exact IH].
Qed.

Lemma get_delete_other k k' m :
  k <> k' -> JsMap.get k' (JsMap.delete k m) = JsMap.get k' m.
Proof.
  intros Hk. induction m as [|[k0 v0] m IH]; cbn; [reflexivity|].
  destruct (key_eqb_spec k0 k) as [E|E]; cbn.
  - subst k0. now destruct (key_eqb_spec k k').
  - destruct (key_eqb_spec k0 k'); [reflexivity | exact IH].
Qed.

Lemma delete_length k v m :
  JsMap.get k m = Some v ->
  List.length m = S (List.length (JsMap.delete k m)).
Proof.
  induction m as [|[k0 v0] m IH]; cbn; [discriminate|].
  destruct (key_eqb_spec k0 k); [reflexivity|].
  intros H. cbn. now rewrite <- IH.
Qed.

Lemma delete_keys_incl k k' m :
  In k' (map fst (JsMap.delete k m)) -> In k' (map fst m).
Proof.
  induction m as [|[k0 v0] m IH]; cbn; [tauto|].
  destruct (key_eqb_spec k0 k); cbn; tauto.
Qed.

Lemma delete_NoDup k m :
  NoDup (map fst m) -> NoDup (map fst (JsMap.delete k m)).
Proof.
  induction m as [|[k0 v0] m IH]; cbn; [trivial|].
  intros H. inversion H; subst.
  destruct (key_eqb_spec k0 k); [assumption|].
  cbn. constructor; [|now apply IH].
  intros Hin. now apply delete_keys_incl in Hin.
Qed.

Lemma get_delete_same k m :
  NoDup (map fst m) -> JsMap.get k (JsMap.delete k m) = None.
Proof.
  induction m as [|[k0 v0] m IH]; cbn; [reflexivity|].
  intros H. inversion H; subst.
  destruct (key_eqb_spec k0 k) as [E|E].
  - subst k0. now apply get_None_keys.
  - cbn. destruct (key_eqb_spec k0 k); [contradiction | now apply IH].
Qed.

Lemma set_absent_NoDup k v m :
  JsMap.get k m = None ->
  NoDup (map fst m) -> NoDup (map fst (JsMap.set k v m)).
Proof.
  intros Hg Hn. rewrite set_absent by exact Hg.
  rewrite map_app. cbn.
  apply NoDup_app; [exact Hn | repeat constructor; intros [] |].
  intros x Hx [E|[]]. subst x.
  now apply get_None_keys in Hg.
Qed.
End JsMapFacts.

(** ** One message at a time *)

Section EncoderFacts.
Context {N : JsNumber}.
Variable t0 : Z.

Lemma notes_app (a b : Track) : notes (a ++ b) = notes a ++ notes b.
Proof. unfold notes. now rewrite flat_map_app. Qed.

(** A message that opens a note: the active note of the same number, if
    any, is closed with its own start and velocity and with the channel
    of the new message; then the new note is active. *)
Lemma encodeMessage_opens (track : Track) (active : ActiveNotes)
      (r : Recorded) :
  opens r = true ->
  let time := of_ms (timestamp r - t0) in
  let k := note (msg r) in
  let c := js_or (channel (msg r)) 0 in
  let v := js_or (velocity (msg r)) 100 in
  encodeMessage t0 (track, active) r =
  match JsMap.get k active with
  | Some info =>
      (track ++ [closeNote k info time c],
       JsMap.set k (NoteInfo.mk _ time v c) (JsMap.delete k active))
  | None => (track, JsMap.set k (NoteInfo.mk _ time v c) active)
  end.
Proof.
  unfold opens, encodeMessage. intros ->. cbn zeta.
  now destruct (JsMap.get (note (msg r)) active).
Qed.

Lemma encodeMessage_releases (track : Track) (active : ActiveNotes)
      (r : Recorded) :
  opens r = false ->
  releases r = true ->
  let time := of_ms (timestamp r - t0) in
  let k := note (msg r) in
  encodeMessage t0 (track, active) r =
  match JsMap.get k active with
  | Some info =>
      (track ++ [closeNote k info time (NoteInfo.channel info)],
       JsMap.delete k active)
  | None => (track, active)
  end.
Proof.
  unfold opens, releases, encodeMessage. intros -> ->. reflexivity.
Qed.

Lemma encodeMessage_other (track : Track) (active : ActiveNotes)
      (r : Recorded) :
  opens r = false ->
  releases r = false ->
  snd (encodeMessage t0 (track, active) r) = active /\
  notes (fst (encodeMessage t0 (track, active) r)) = notes track.
Proof.
  unfold opens, releases, encodeMessage. intros -> ->.
  destruct (String.eqb (type r) "cc"); split; cbn [fst snd];
    try reflexivity.
  rewrite notes_app. cbn. apply app_nil_r.
Qed.

Lemma closed_in_app (track ext : Track) (r : Recorded) :
  closed_in t0 track r -> closed_in t0 (track ++ ext) r.
Proof.
  intros (n & Hn & H). exists n. split; [|exact H].
  rewrite notes_app. apply in_or_app. now left.
Qed.

(** A message accounted for stays so after the next message. *)
Lemma accounted_step (acc : Track * ActiveNotes) (e r : Recorded) :
  accounted t0 acc r -> accounted t0 (encodeMessage t0 acc e) r.
Proof.
  destruct acc as [track active]. unfold accounted. cbn [fst snd].
  intros Hr.
  destruct (opens e) eqn:Eo; [|destruct (releases e) eqn:Er].
  - rewrite (encodeMessage_opens track active e Eo). cbn zeta.
    destruct Hr as [Hc|(info & Hg & Hst & Hv)].
    { left. destruct (JsMap.get (note (msg e)) active); cbn [fst];
        [now apply closed_in_app | exact Hc]. }
    destruct (key_eqb_spec (note (msg e)) (note (msg r))) as [E|E].
    + rewrite E, Hg. left. cbn [fst].
      exists (Note.mk _ (note (msg r)) (NoteInfo.startTime info)
                (Math_max one_ms
                   (minus (of_ms (timestamp e - t0))
                      (NoteInfo.startTime info)))
                (NoteInfo.velocity info)
                (js_or (channel (msg e)) 0)).
      split; [|cbn; auto].
      rewrite notes_app. apply in_or_app. right. now left.
    + right. exists info. split; [|auto].
      destruct (JsMap.get (note (msg e)) active); cbn [snd];
        rewrite get_set_other, ?get_delete_other by exact E; exact Hg.
  - rewrite (encodeMessage_releases track active e Eo Er). cbn zeta.
    destruct Hr as [Hc|(info & Hg & Hst & Hv)].
    { left. destruct (JsMap.get (note (msg e)) active); cbn [fst];
        [now apply closed_in_app | exact Hc]. }
    destruct (key_eqb_spec (note (msg e)) (note (msg r))) as [E|E].
    + rewrite E, Hg. left. cbn [fst].
      exists (Note.mk _ (note (msg r)) (NoteInfo.startTime info)
                (Math_max one_ms
                   (minus (of_ms (timestamp e - t0))
                      (NoteInfo.startTime info)))
                (NoteInfo.velocity info)
                (NoteInfo.channel info)).
      split; [|cbn; auto].
      rewrite notes_app. apply in_or_app. right. now left.
    + right. exists info. split; [|auto].
      destruct (JsMap.get (note (msg e)) active); cbn [snd];
        rewrite ?get_delete_other by exact E; exact Hg.
  - destruct (encodeMessage_other track active e Eo Er) as [Ha Hn].
    destruct Hr as [(n & Hin & H)|Hr].
    + left. exists n. split; [now rewrite Hn | exact H].
    + right. now rewrite Ha.
Qed.

(** A message that opens a note is accounted for at once. *)
Lemma accounted_new (acc : Track * ActiveNotes) (e : Recorded) :
  opens e = true -> accounted t0 (encodeMessage t0 acc e) e.
Proof.
  destruct acc as [track active]. intros Eo. right.
  rewrite (encodeMessage_opens track active e Eo). cbn zeta.
  destruct (JsMap.get (note (msg e)) active); cbn [snd];
    (eexists; split; [apply get_set_same | split; reflexivity]).
Qed.

Lemma accounted_fold (log : list Recorded) : forall acc r,
  accounted t0 acc r \/ (In r log /\ opens r = true) ->
  accounted t0 (fold_left (encodeMessage t0) log acc) r.
Proof.
  induction log as [|e log IH]; intros acc r H; cbn [fold_left].
  - destruct H as [H|[[] _]]. exact H.
  - apply IH. destruct H as [H|[[E|Hin] Ho]].
    + left. now apply accounted_step.
    + subst e. left. now apply accounted_new.
    + right. auto.
Qed.

(** One more note, closed or active, for each message that opens one. *)
Lemma balance_step (acc : Track * ActiveNotes) (e : Recorded) (n : nat) :
  balance acc n ->
  balance (encodeMessage t0 acc e) (if opens e then S n else n).
Proof.
  destruct acc as [track active]. unfold balance. cbn [fst snd].
  intros [Hnd Hn].
  destruct (opens e) eqn:Eo; [|destruct (releases e) eqn:Er].
  - rewrite (encodeMessage_opens track active e Eo). cbn zeta.
    destruct (JsMap.get (note (msg e)) active) as [info|] eqn:Hg;
      cbn [fst snd].
    + assert (Hd : JsMap.get (note (msg e))
                     (JsMap.delete (note (msg e)) active) = None)
        by now apply get_delete_same.
      split.
      * apply set_absent_NoDup; [exact Hd | now apply delete_NoDup].
      * rewrite (set_absent _ _ _ Hd), notes_app, !length_app. cbn.
        rewrite (delete_length _ _ _ Hg) in Hn. lia.
    + split.
      * now apply set_absent_NoDup.
      * rewrite (set_absent _ _ _ Hg), length_app. cbn. lia.
  - rewrite (encodeMessage_releases track active e Eo Er). cbn zeta.
    destruct (JsMap.get (note (msg e)) active) as [info|] eqn:Hg;
      cbn [fst snd]; [|auto].
    split; [now apply delete_NoDup|].
    rewrite notes_app, length_app. cbn.
    rewrite (delete_length _ _ _ Hg) in Hn. lia.
  - destruct (encodeMessage_other track active e Eo Er) as [Ha Hno].
    now rewrite Ha, Hno.
Qed.

Lemma balance_fold (log : list Recorded) : forall acc n,
  balance acc n ->
  balance (fold_left (encodeMessage t0) log acc) (n + count_opens log).
Proof.
  unfold count_opens.
  induction log as [|e log IH]; intros acc n H; cbn [fold_left filter].
  - cbn. now rewrite Nat.add_0_r.
  - apply (balance_step acc e) in H. apply IH in H.
    destruct (opens e); cbn [List.length];
      [now rewrite Nat.add_succ_r | exact H].
Qed.

(** Every note of the track has a floored duration. *)
Lemma floored_step (acc : Track * ActiveNotes) (e : Recorded) :
  Forall floored (notes (fst acc)) ->
  Forall floored (notes (fst (encodeMessage t0 acc e))).
Proof.
  destruct acc as [track active]. cbn [fst]. intros H.
  assert (Hc : forall k info t c,
             Forall floored (notes (track ++ [closeNote k info t c]))).
  { intros. rewrite notes_app. apply Forall_app. split; [exact H|].
    constructor; [|constructor]. now exists t. }
  destruct (opens e) eqn:Eo; [|destruct (releases e) eqn:Er].
  - rewrite (encodeMessage_opens track active e Eo). cbn zeta.
    destruct (JsMap.get (note (msg e)) active); cbn [fst]; auto.
  - rewrite (encodeMessage_releases track active e Eo Er). cbn zeta.
    destruct (JsMap.get (note (msg e)) active); cbn [fst]; auto.
  - destruct (encodeMessage_other track active e Eo Er) as [_ Hn].
    now rewrite Hn.
Qed.

Lemma floored_fold (log : list Recorded) : forall acc,
  Forall floored (notes (fst acc)) ->
  Forall floored (notes (fst (fold_left (encodeMessage t0) log acc))).
Proof.
  induction log as [|e log IH]; intros acc H; cbn [fold_left];
    [exact H | now apply IH, floored_step].
Qed.

Lemma notes_closeRemaining (endTime : num) (active : ActiveNotes) :
  notes (closeRemaining endTime active) =
  map (fun '(k, info) =>
         Note.mk _ k (NoteInfo.startTime info)
           (Math_max one_ms (minus endTime (NoteInfo.startTime info)))
           (NoteInfo.velocity info) (NoteInfo.channel info))
      active.
Proof.
  induction active as [|[k info] active IH]; cbn; [reflexivity|].
  f_equal. exact IH.
Qed.
End EncoderFacts.

(** ** Durations *)

(** The same bound on binary64, for a difference that is a number. *)
Lemma float_max_floor (x : PrimFloat.float) :
  PrimFloat.is_nan x = false ->
  PrimFloat.leb 0.001%float (float_max 0.001%float x) = true.
Proof.
  intros Hx. unfold float_max.
  change (PrimFloat.is_nan 0.001%float) with false. rewrite Hx. cbn [orb].
  destruct (PrimFloat.leb 0.001%float x) eqn:E1; [|reflexivity].
  destruct (PrimFloat.leb x 0.001%float); [reflexivity | exact E1].
Qed.

(** ** The claims on the encoder *)

(** C3: the log of two keys, each pressed and released, at 0, 500, 500 and
    1200 ms, is encoded as two notes: pitch 60 from 0 s for 0.5 s at
    velocity 100, and pitch 64 from 0.5 s for 0.7 s at velocity 90, in
    binary64 as the program computes them, and in exact arithmetic.  The
    channel fields of the messages and the velocities of the releases are
    arbitrary. *)
Theorem exportMIDI_two_notes (c1 c2 c3 c4 v2 v4 : option Z) :
  exportMIDI (N := binary64) (two_notes_log c1 c2 c3 c4 v2 v4) =
    Some [addNote (Note.mk binary64 (Some 60) 0%float 0.5%float
                     100 (js_or c1 0));
          addNote (Note.mk binary64 (Some 64) 0.5%float 0.7%float
                     90 (js_or c3 0))]
  /\
  exportMIDI (N := exact) (two_notes_log c1 c2 c3 c4 v2 v4) =
    Some [addNote (Note.mk exact (Some 60) 0%Q (1 # 2)%Q 100 (js_or c1 0));
          addNote (Note.mk exact (Some 64) (1 # 2)%Q (7 # 10)%Q
                     90 (js_or c3 0))].
Proof.
  split; vm_compute; reflexivity.
Qed.

(** What a second press of an active note does, for any log position: the
    note closed keeps its start and velocity and gets the channel of the
    new message. *)
Lemma retrigger_closes_with_new_channel `{JsNumber} (t0 : Z) (track : Track)
      (active : ActiveNotes) (r : Recorded) (info : NoteInfo.t) :
  opens r = true ->
  JsMap.get (note (msg r)) active = Some info ->
  fst (encodeMessage t0 (track, active) r) =
  track ++ [addNote (Note.mk _ (note (msg r)) (NoteInfo.startTime info)
                       (Math_max one_ms
                          (minus (of_ms (timestamp r - t0))
                             (NoteInfo.startTime info)))
                       (NoteInfo.velocity info)
                       (js_or (channel (msg r)) 0))].
Proof.
  intros Ho Hg. rewrite (encodeMessage_opens t0 track active r Ho).
  cbn zeta. now rewrite Hg.
Qed.

(** C4: a key pressed on channel 0 and pressed again on channel 1 without a
    release.  The first note is closed with its own start, the floored
    duration and its own velocity, but on channel 1, the channel of the
    second press. *)
Theorem retrigger_uses_new_channel :
  exportMIDI (N := binary64) retrigger_log =
    Some [addNote (Note.mk binary64 (Some 60) 0%float 0.5%float 100 1);
          addNote (Note.mk binary64 (Some 60) 0.5%float 0.001%float 90 1)].
Proof.
  vm_compute. reflexivity.
Qed.

(** A note-on without a velocity field passes neither [velocity > 0] nor
    [velocity === 0]: the encoder skips it, and [velocity || 100] is never
    reached with a missing velocity. *)
Lemma missing_velocity_skipped `{JsNumber} (t0 : Z)
      (acc : Track * ActiveNotes) (r : Recorded) :
  type r = "noteon"%string ->
  velocity (msg r) = None ->
  encodeMessage t0 acc r = acc.
Proof.
  intros Ht Hv. destruct acc as [track active].
  unfold encodeMessage. rewrite Ht, Hv. reflexivity.
Qed.

Lemma opens_velocity (r : Recorded) :
  opens r = true ->
  exists v, velocity (msg r) = Some v /\ 0 < v /\
            js_or (velocity (msg r)) 100 = v.
Proof.
  unfold opens, js_gt0, js_or. intros H.
  apply andb_prop in H. destruct H as [_ H].
  destruct (velocity (msg r)) as [v|]; [|discriminate].
  apply Z.ltb_lt in H. exists v. repeat split; [exact H|].
  destruct (Z.eqb_spec v 0); [lia | reflexivity].
Qed.

(** A message without a channel field is encoded on channel 0. *)
Lemma missing_channel_is_0 `{JsNumber} (t0 : Z) (track : Track)
      (active : ActiveNotes) (r : Recorded) :
  type r = "cc"%string ->
  channel (msg r) = None ->
  encodeMessage t0 (track, active) r =
  (track ++ [addCC (CC.mk _ (controller (msg r)) (value (msg r))
                      (of_ms (timestamp r - t0)) 0)],
   active).
Proof.
  intros Ht Hc. unfold encodeMessage. rewrite Ht, Hc. reflexivity.
Qed.

(** C8: a note-on whose message has no velocity field, then its release.
    No note is written: the press is skipped, so velocity 100 is not put in
    its place, and the release finds nothing to close. *)
Theorem missing_velocity_drops_note :
  exportMIDI (N := binary64) no_velocity_log = Some [].
Proof.
  vm_compute. reflexivity.
Qed.

Lemma exportMIDI_cons `{JsNumber} (first : Recorded) (rest : list Recorded) :
  exportMIDI (first :: rest) =
  Some (fst (encodeLoop (timestamp first) (first :: rest))
          ++ closeRemaining
               (of_ms (timestamp (last (first :: rest) first)
                       - timestamp first))
               (snd (encodeLoop (timestamp first) (first :: rest)))).
Proof.
  unfold exportMIDI.
  now destruct (encodeLoop (timestamp first) (first :: rest)).
Qed.

(** The encoder on a log that is not empty, whatever the arithmetic: the
    track has one note per message that opens one, each such message has
    its note, every duration is a floored one, and what is still active
    after the last message is closed at the time of that message. *)
Lemma exportMIDI_closes_all `{JsNumber} (first : Recorded)
      (rest : list Recorded) :
  let log := first :: rest in
  let t0 := timestamp first in
  let end_s := of_ms (timestamp (last log first) - t0) in
  exists track,
    exportMIDI log = Some track /\
    List.length (notes track) = count_opens log /\
    (forall r, In r log -> opens r = true -> closed_in t0 track r) /\
    Forall floored (notes track) /\
    (forall k info,
        In (k, info) (snd (encodeLoop t0 log)) ->
        In (Note.mk _ k (NoteInfo.startTime info)
              (Math_max one_ms (minus end_s (NoteInfo.startTime info)))
              (NoteInfo.velocity info) (NoteInfo.channel info))
           (notes track)).
Proof.
  intros log t0 end_s. unfold log at 1. rewrite exportMIDI_cons.
  fold log t0 end_s.
  destruct (encodeLoop t0 log) as [track active] eqn:E. cbn [fst snd].
  eexists. split; [reflexivity|].
  unfold encodeLoop in E.
  pose proof (balance_fold t0 log ([], []) 0%nat
                (conj (NoDup_nil _) eq_refl)) as Hb.
  pose proof (fun r H => accounted_fold t0 log ([], []) r (or_intror H))
    as Ha.
  pose proof (floored_fold t0 log ([], []) (Forall_nil _)) as Hf.
  rewrite E in Hb, Ha, Hf. cbn [fst snd] in *.
  assert (Hrem : forall k info, In (k, info) active ->
            In (Note.mk _ k (NoteInfo.startTime info)
                  (Math_max one_ms (minus end_s (NoteInfo.startTime info)))
                  (NoteInfo.velocity info) (NoteInfo.channel info))
               (notes (track ++ closeRemaining end_s active))).
  { intros k info Hin. rewrite notes_app, notes_closeRemaining.
    apply in_or_app. right.
    apply (in_map (fun '(k, info) => _) active (k, info) Hin). }
  repeat split.
  - rewrite notes_app, notes_closeRemaining, length_app, length_map.
    destruct Hb as [_ Hb]. exact Hb.
  - intros r Hin Ho.
    destruct (Ha r (conj Hin Ho)) as [Hc|(info & Hg & Hs & Hv)].
    + now apply closed_in_app.
    + apply get_In, Hrem in Hg.
      eexists. split; [exact Hg|]. cbn. auto.
  - rewrite notes_app. apply Forall_app. split; [exact Hf|].
    rewrite notes_closeRemaining. apply Forall_forall.
    intros n Hn. apply in_map_iff in Hn.
    destruct Hn as ([k info] & <- & _). now exists end_s.
  - exact Hrem.
Qed.

(** * Further properties of the state machine *)

(** ** The session invariant *)

Lemma session_inv_frame (w w' : World) :
  session_inv w ->
  recordedMessages w' = recordedMessages w ->
  recordingStartTime w' = recordingStartTime w ->
  clock w <= clock w' ->
  (recordedMessages w = [] -> state w' = listening) ->
  session_inv w'.
Proof.
  unfold session_inv, offsets. intros (I1 & I2 & I3 & I4) El Et Hc Hs.
  rewrite El, Et. repeat split; auto.
  intros s Hs'. specialize (I3 s Hs'). lia.
Qed.

Lemma session_inv_record (now : Z) (ty : string) (m : Msg) (w : World) :
  session_inv w ->
  state w = recording ->
  clock w <= now ->
  session_inv (set_clock now (recordMessage now ty m w)).
Proof.
  unfold session_inv, offsets, recordMessage, since_start.
  intros (I1 & I2 & I3 & I4) Hs Hc.
  assert (Hl : recordedMessages w <> []).
  { intros E. apply I1 in E. congruence. }
  destruct (I2 Hl) as [s Es]. specialize (I3 s Es).
  destruct w as [st l t pt pc p n c co se]; cbn in *. subst t.
  repeat split.
  - intros E. now destruct l.
  - intros _. now exists s.
  - intros s' E. inversion E; subst. lia.
  - rewrite map_app. apply Forall_app. split; [exact I4|].
    constructor; [cbn; lia | constructor].
Qed.

Lemma session_inv_start (now now' : Z) (ty : string) (m : Msg) (w : World) :
  state w <> recording ->
  now <= now' ->
  session_inv (set_clock now' ((startRecording now ;; recordMessage now' ty m) w)).
Proof.
  intros Hs Hn.
  unfold andThen, startRecording, session_inv, offsets, recordMessage,
    since_start.
  destruct (state w) eqn:Es; try congruence; cbn;
    (repeat split;
     [discriminate | intros _; now exists now
      | intros s E; inversion E; subst; lia
      | constructor; [lia | constructor]]).
Qed.

Lemma playBack_state (now : Z) (w : World) :
  recordedMessages w = [] -> state (playBack now w) = state w.
Proof.
  intros El. unfold playBack. rewrite El.
  destruct (state w) eqn:Es; cbn; congruence.
Qed.

Lemma step_session_inv (s : Stimulus) (w w' : World) :
  session_inv w -> step s w = Some w' -> session_inv w'.
Proof.
  intros Hi Hs.
  destruct s as [now now' ty m | now key | now h ok | now key]; cbn in Hs.
  - destruct (clock w <=? now) eqn:E1; [|discriminate].
    destruct (now <=? now') eqn:E2; [|discriminate].
    apply Z.leb_le in E1, E2. cbn in Hs. inversion Hs; subst; clear Hs.
    assert (Hskip : state w <> recording -> session_inv (set_clock now' w)).
    { intros Hn. apply (session_inv_frame w);
        [exact Hi | reflexivity | reflexivity | cbn; lia | apply Hi]. }
    unfold handleMIDIMessage.
    destruct (state w) eqn:Es.
    + destruct (String.eqb ty "noteon");
        [|destruct (is_sustain ty m)];
        try (apply session_inv_start; auto; congruence).
      apply Hskip. congruence.
    + apply session_inv_record; auto. lia.
    + destruct (String.eqb ty "noteon");
        [|destruct (is_sustain ty m)];
        try (apply session_inv_start; auto; congruence).
      apply Hskip. congruence.
  - destruct (clock w <=? now) eqn:E1; [|discriminate].
    apply Z.leb_le in E1.
    destruct (onKey now key w) as [w1|] eqn:Ek; [|discriminate].
    cbn in Hs. inversion Hs; subst; clear Hs.
    destruct (onKey_keeps_log _ _ _ _ Ek) as (A & B & C).
    apply (session_inv_frame w);
      [exact Hi | exact A | exact B | cbn; lia |].
    intros El. destruct Hi as (I1 & _). specialize (I1 El). cbn.
    unfold onKey in Ek.
    repeat match type of Ek with
           | (if ?b then _ else _) = _ => destruct b
           end; try discriminate; inversion Ek; subst; clear Ek; auto.
    + now rewrite I1.
    + now rewrite playBack_state.
    + unfold exportMIDI_effect. now rewrite El.
  - destruct (clock w <=? now) eqn:E1; [|discriminate].
    apply Z.leb_le in E1.
    destruct (find_timer h w) as [t|]; [|discriminate].
    destruct (due t <=? now); [|discriminate].
    inversion Hs; subst; clear Hs.
    destruct (fire_keeps_log t ok w) as (A & B & C).
    apply (session_inv_frame w);
      [exact Hi | exact A | exact B | cbn; lia |].
    intros El. destruct Hi as (I1 & _). specialize (I1 El). cbn.
    unfold fire, run_callback.
    destruct (callback t); [destruct ok|]; auto.
  - destruct (clock w <=? now) eqn:E1; [|discriminate].
    apply Z.leb_le in E1.
    destruct (key_is key "e" "E"); [|discriminate].
    cbn in Hs. inversion Hs; subst; clear Hs.
    destruct (exportMIDI_effect_frame false w) as [l ->].
    apply (session_inv_frame w);
      [exact Hi | reflexivity | reflexivity | cbn; lia | apply Hi].
Qed.

Lemma run_session_inv (ss : list Stimulus) : forall w w',
  session_inv w -> run ss w = Some w' -> session_inv w'.
Proof.
  induction ss as [|s ss IH]; intros w w' Hi Hr; cbn in Hr.
  - now inversion Hr; subst.
  - destruct (step s w) as [w1|] eqn:Es; [|discriminate].
    eapply IH; [|exact Hr]. eapply step_session_inv; eauto.
Qed.

Lemma session_inv_initial : session_inv initial.
Proof.
  repeat split; cbn; try discriminate; auto. intros H. now contradiction H.
Qed.

(** X1: in every world the program reaches, the state is recording or
    playback only with a log that is not empty and a start time that is
    set: [playBack] never reads the last element of an empty array and
    [recordMessage] never subtracts [null]. *)
Theorem state_needs_log (ss : list Stimulus) (w : World) :
  run ss initial = Some w ->
  state w <> listening ->
  recordedMessages w <> [] /\ exists s, recordingStartTime w = Some s.
Proof.
  intros Hr Hs.
  destruct (run_session_inv ss initial w session_inv_initial Hr)
    as (I1 & I2 & _).
  assert (Hl : recordedMessages w <> []) by (intros E; auto).
  split; [exact Hl | exact (I2 Hl)].
Qed.

Lemma state_needs_log_witness :
  run take_stimuli initial = Some capturing /\
  state capturing <> listening /\
  recordedMessages capturing <> [] /\
  exists s, recordingStartTime capturing = Some s.
Proof.
  split; [reflexivity|]. split; [discriminate|].
  apply (state_needs_log take_stimuli capturing eq_refl). discriminate.
Defined.

(** X2: in every world the program reaches, each recorded timestamp lies
    between 0 and the time elapsed since the recording started. *)
Theorem offsets_within_take (ss : list Stimulus) (w : World) :
  run ss initial = Some w ->
  Forall (fun r => 0 <= timestamp r <= since_start (clock w) w)
         (recordedMessages w).
Proof.
  intros Hr.
  destruct (run_session_inv ss initial w session_inv_initial Hr)
    as (_ & _ & _ & I4).
  assert (Hl : log_inv initial) by (split; constructor).
  destruct (run_log_inv ss initial w Hl Hr) as (_ & Hu).
  unfold offsets in *. rewrite Forall_map in I4, Hu.
  rewrite Forall_forall in *. intros r Hin. split; auto.
Qed.

Lemma offsets_within_take_witness :
  run take_stimuli initial = Some capturing /\
  Forall (fun r => 0 <= timestamp r <= 1000) (recordedMessages capturing).
Proof.
  split; [reflexivity|].
  exact (offsets_within_take take_stimuli capturing eq_refl).
Defined.

(** ** A take, message by message *)

(** While the state is recording, every message that arrives is appended,
    whatever its type, with the time since the start of the take. *)
Lemma run_recording (s : Z) (ms : list Arrival) : forall w,
  state w = recording ->
  recordingStartTime w = Some s ->
  arrivals_in_order (clock w) ms ->
  exists w',
    run (midi_stimuli ms) w = Some w' /\
    state w' = recording /\
    recordedMessages w' = recordedMessages w ++ recorded_since s ms /\
    recordingStartTime w' = Some s /\
    pending w' = pending w.
Proof.
  induction ms as [|[[[now now'] ty] m] ms IH]; intros w Hs Ht Ha.
  - exists w. cbn. now rewrite app_nil_r.
  - cbn in Ha. destruct Ha as (H1 & H2 & Ha).
    cbn [midi_stimuli map run step].
    apply Z.leb_le in H1, H2. rewrite H1, H2. cbn [andb].
    unfold handleMIDIMessage. rewrite Hs.
    set (w1 := set_clock now' (recordMessage now' ty m w)).
    destruct (IH w1) as (w' & Hr & Hs' & Hl & Ht' & Hp);
      [exact Hs | exact Ht | exact Ha |].
    exists w'. split; [exact Hr|]. repeat split; try assumption.
    rewrite Hl. subst w1. unfold recordMessage, since_start.
    cbn. rewrite Ht, <- app_assoc. reflexivity.
Qed.

(** X3: in the recording state every message that arrives is kept: after
    the messages [ms], of any types, the log is the log before followed by
    one entry per message, in order of arrival, each with the time since
    the start of the take; the state is still recording. *)
Theorem recording_keeps_every_message (s : Z) (ms : list Arrival) (w : World) :
  state w = recording ->
  recordingStartTime w = Some s ->
  arrivals_in_order (clock w) ms ->
  exists w',
    run (midi_stimuli ms) w = Some w' /\
    state w' = recording /\
    recordedMessages w' = recordedMessages w ++ recorded_since s ms.
Proof.
  intros Hs Ht Ha.
  destruct (run_recording s ms w Hs Ht Ha) as (w' & Hr & Hs' & Hl & _).
  exists w'. auto.
Qed.

Lemma recording_keeps_every_message_witness :
  exists w',
    run [MidiIn 1200 1200 "cc" (mkMsg None None (Some 0) (Some 64) (Some 127));
         MidiIn 1300 1301 "noteon" (noteOn 64 90);
         MidiIn 1400 1400 "clock" (mkMsg None None None None None)]
        capturing = Some w' /\
    state w' = recording /\
    recordedMessages w' =
      recordedMessages capturing ++
      [mkRecorded "cc" (mkMsg None None (Some 0) (Some 64) (Some 127)) 1200;
       mkRecorded "noteon" (noteOn 64 90) 1301;
       mkRecorded "clock" (mkMsg None None None None None) 1400].
Proof.
  refine (recording_keeps_every_message 0
            [(1200, 1200, "cc"%string, mkMsg None None (Some 0) (Some 64) (Some 127));
             (1300, 1301, "noteon"%string, noteOn 64 90);
             (1400, 1400, "clock"%string, mkMsg None None None None None)]
            capturing eq_refl eq_refl _).
  cbn. lia.
Defined.

(** ** Stopping a replay *)

Lemma cancel_app (hs : list nat) : forall p q,
  cancel hs (p ++ q) = cancel hs p ++ cancel hs q.
Proof.
  induction hs as [|h hs IH]; intros p q; cbn; [reflexivity|].
  now rewrite filter_app, IH.
Qed.

Lemma cancel_keeps (hs : list nat) : forall p,
  Forall (fun t => ~ In (handle t) hs) p -> cancel hs p = p.
Proof.
  induction hs as [|h hs IH]; intros p Hp; cbn; [reflexivity|].
  rewrite filter_keeps.
  - apply IH. eapply Forall_impl; [|exact Hp]. cbn. tauto.
  - eapply Forall_impl; [|exact Hp]. cbn. intros t Ht E. apply Ht. now left.
Qed.

Lemma cancel_drops (hs : list nat) : forall p,
  Forall (fun t => In (handle t) hs) p -> cancel hs p = [].
Proof.
  induction hs as [|h hs IH]; intros p Hp; cbn.
  - destruct p as [|t p]; [reflexivity|]. inversion Hp; subst. contradiction.
  - apply IH. rewrite Forall_forall in *. intros t Ht.
    apply filter_In in Ht. destruct Ht as [Hin Hne].
    destruct (Hp t Hin) as [E|E]; [|exact E].
    subst h. rewrite Nat.eqb_refl in Hne. discriminate.
Qed.

Lemma cancel_incl (hs : list nat) : forall p t,
  In t (cancel hs p) -> In t p.
Proof.
  induction hs as [|h hs IH]; intros p t Ht; cbn in Ht; [exact Ht|].
  apply IH in Ht. apply filter_In in Ht. tauto.
Qed.

(** The clearing block sets no timer: what it leaves was pending. *)
Lemma cancelled_incl (w : World) (t : Timer) :
  In t (cancelled w) -> In t (pending w).
Proof.
  unfold cancelled. destruct (playbackCompleteTimeout w); intros Ht.
  - now apply cancel_incl in Ht; apply cancel_incl in Ht.
  - now apply cancel_incl in Ht.
Qed.

Lemma find_absent (h : nat) (p : list Timer) :
  Forall (fun t => handle t <> h) p ->
  find (fun t => Nat.eqb (handle t) h) p = None.
Proof.
  intros H. rewrite <- (app_nil_r p). now rewrite find_skip.
Qed.

Lemma emission_timers_app (now : Z) (a b : list Recorded) : forall h index,
  emission_timers now h index (a ++ b) =
  emission_timers now h index a
    ++ emission_timers now (h + List.length a) (index + List.length a) b.
Proof.
  induction a as [|r a IH]; intros h index; cbn.
  - now rewrite !Nat.add_0_r.
  - rewrite IH. do 3 f_equal; lia.
Qed.

Lemma emission_timers_length (now : Z) (rs : list Recorded) : forall h index,
  List.length (emission_timers now h index rs) = List.length rs.
Proof.
  induction rs as [|r rs IH]; intros h index; cbn; [reflexivity|].
  now rewrite IH.
Qed.

(** X5: in any world the program reaches that is not in the playback
    state, with a log that is not empty, a replay is started, the timers
    of the messages [played] fire, and the key [s] is pressed before those
    of [rest] do.  Then the state is listening, only the messages of
    [played] whose send succeeded were delivered, and the timers left are
    exactly the timers [cancelled w]: those pending before the replay whose
    handles were not in [playbackTimeouts] or [playbackCompleteTimeout],
    which [playBack] clears before it sets its own.  Each of them was
    pending before the replay, and no timer set by the replay can fire any
    more. *)
Theorem stop_cancels_replay
        (ss : list Stimulus) (w : World) (now : Z)
        (played rest : list Recorded)
        (times : list Z) (oks : list bool) (ts : Z) :
  run ss initial = Some w ->
  state w <> playback ->
  recordedMessages w = played ++ rest ->
  played ++ rest <> [] ->
  clock w <= now ->
  List.length oks = List.length played ->
  on_schedule now (emission_timers now (next_handle w) 0 played) times ->
  last times now <= ts ->
  exists w',
    run (Key now "p"
           :: firings (emission_timers now (next_handle w) 0 played) times oks
           ++ [Key ts "s"]) w = Some w' /\
    state w' = listening /\
    sent w' = sent w ++ delivered played oks /\
    pending w' = cancelled w /\
    (forall t, In t (pending w') -> In t (pending w)) /\
    (forall t h ok,
        (next_handle w <= h)%nat -> step (TimerFires t h ok) w' = None).
Proof.
  intros Hr Hs Hl Hne Hc Ho Hsch Hts.
  assert (Hf : handles_fresh w).
  { apply (run_handles_fresh ss initial w); [constructor | exact Hr]. }
  assert (HP : Forall (fun t => (handle t < next_handle w)%nat) (cancelled w)).
  { apply cancelled_Forall. exact Hf. }
  destruct (played ++ rest) as [|r rs] eqn:EL; [congruence|].
  cbn [run step]. apply Z.leb_le in Hc. rewrite Hc.
  rewrite onKey_p. cbn [option_map].
  rewrite (playBack_starts now w r rs Hs Hl). rewrite run_app.
  set (h := next_handle w) in *.
  set (n := S (List.length rs)).
  assert (Hn : (List.length played + List.length rest)%nat = n).
  { subst n. rewrite <- length_app, EL. reflexivity. }
  set (C := completion_timer now (h + n) r (r :: rs)).
  set (Erest := emission_timers now (h + List.length played)
                  (0 + List.length played) rest).
  match goal with |- context [run (firings _ _ _) ?x] => set (w1 := x) end.
  assert (Hp1 : pending w1 =
                cancelled w ++ emission_timers now h 0 played
                  ++ (Erest ++ [C])).
  { subst w1. cbn [pending set_clock]. rewrite <- EL, emission_timers_app.
    now rewrite <- !app_assoc. }
  assert (HErest : Forall (fun t => (h + List.length played <= handle t
                                     < h + n)%nat) Erest).
  { eapply Forall_impl; [|apply emission_timers_handles].
    cbn. intros; lia. }
  rewrite (run_emissions now played h 0%nat times oks w1 (cancelled w)
             (Erest ++ [C]) Hp1 HP); try assumption.
  2:{ apply Forall_app. split.
      - eapply Forall_impl; [|exact HErest]. cbn. intros; lia.
      - constructor; [|constructor]. subst C. cbn. lia. }
  cbn [run]. unfold step. subst w1. cbn [clock set_clock].
  apply Z.leb_le in Hts. rewrite Hts.
  match goal with
  | |- context [onKey ts "s" ?x] =>
      change (onKey ts "s" x) with (Some (stopPlayback x))
  end.
  cbn [option_map]. eexists. split; [reflexivity|].
  unfold stopPlayback, andThen. cbn [state].
  rewrite clearPlaybackTimers_spec.
  assert (Hcan : cancel [(h + n)%nat]
                   (cancel (seq h n) (cancelled w ++ Erest ++ [C]))
                 = cancelled w).
  { rewrite !cancel_app.
    rewrite (cancel_keeps (seq h n) (cancelled w)).
    2:{ eapply Forall_impl; [|exact HP]. intros t Ht Hin.
        apply in_seq in Hin. cbv beta in Ht. lia. }
    rewrite (cancel_drops (seq h n) Erest).
    2:{ eapply Forall_impl; [|exact HErest]. intros t Ht.
        apply in_seq. cbv beta in Ht. lia. }
    rewrite (cancel_keeps (seq h n) [C]).
    2:{ constructor; [|constructor]. subst C. cbn [handle completion_timer].
        intros Hin. apply in_seq in Hin. lia. }
    rewrite (cancel_keeps [(h + n)%nat] (cancelled w)).
    2:{ eapply Forall_impl; [|exact HP]. cbn. intros t Ht [E|[]]. lia. }
    rewrite (cancel_drops [(h + n)%nat] [C]).
    2:{ constructor; [|constructor]. subst C. cbn. now left. }
    cbn. apply app_nil_r. }
  assert (Hcan' : forall st l t nh c co se,
             cancelled (mkWorld st l t (seq h n) (Some (h + n)%nat)
                          (cancelled w ++ Erest ++ [C]) nh c co se)
             = cancelled w).
  { intros. unfold cancelled at 1.
    cbn [playbackCompleteTimeout playbackTimeouts pending]. exact Hcan. }
  cbn [state recordedMessages recordingStartTime playbackTimeouts
       playbackCompleteTimeout pending next_handle clock console sent].
  rewrite Hcan'.
  cbn [state sent pending set_state console_log set_clock clock].
  split; [reflexivity|]. split; [reflexivity|]. split; [reflexivity|].
  split; [intros t; apply cancelled_incl|].
  intros t h' ok Hh. cbn.
  rewrite (find_absent h' (cancelled w)); [now destruct (ts <=? t)|].
  eapply Forall_impl; [|exact HP]. cbn. intros; lia.
Qed.

Lemma stop_cancels_replay_witness :
  run replay_preempted initial = Some preempted /\
  List.length (pending preempted) = 2%nat /\
  exists w',
    run [Key 2600 "p"; TimerFires 2601 3 true; Key 2700 "s"] preempted
      = Some w' /\
    state w' = listening /\
    sent w' = sent preempted ++ [("noteon"%string, noteOn 72 80)] /\
    pending w' = [] /\
    (forall t, In t (pending w') -> In t (pending preempted)) /\
    (forall t h ok, (3 <= h)%nat -> step (TimerFires t h ok) w' = None).
Proof.
  split; [reflexivity|]. split; [reflexivity|].
  refine (stop_cancels_replay
            replay_preempted preempted 2600
            [mkRecorded "noteon" (noteOn 72 80) 0] []
            [2601] [true] 2700
            eq_refl _ eq_refl _ _ eq_refl _ _).
  - discriminate.
  - discriminate.
  - cbn. lia.
  - cbn. lia.
  - cbn. lia.
Defined.

(** ** When a replay ends *)

Lemma sorted_below_last (l : list Z) :
  StronglySorted Z.le l -> forall d, Forall (fun x => x <= last l d) l.
Proof.
  induction 1 as [|a l Hl IH Ha]; intros d; [constructor|].
  rewrite last_cons. constructor.
  - destruct l as [|b l]; [cbn; lia|].
    specialize (IH a). inversion Ha; subst. inversion IH; subst. lia.
  - apply IH.
Qed.

Lemma last_map_timestamp (rs : list Recorded) (r : Recorded) :
  last (map timestamp rs) (timestamp r) = timestamp (last rs r).
Proof.
  induction rs as [|a rs IH]; [reflexivity|].
  destruct rs as [|b rs]; [reflexivity|]. exact IH.
Qed.

Lemma emission_timers_due (now M : Z) (rs : list Recorded) : forall h index,
  Forall (fun r => 0 <= timestamp r <= M) rs ->
  M + 100 <= 2147483647 ->
  Forall (fun t => due t + 99 <= now + timer_delay (M + 100))
         (emission_timers now h index rs).
Proof.
  intros h index Hrs HM. revert h index.
  induction Hrs as [|r rs Hr _ IH]; intros h index; cbn; constructor.
  - cbn. unfold timer_delay.
    destruct (Z.ltb_spec (timestamp r) 1), (Z.ltb_spec 2147483647 (timestamp r)),
      (Z.ltb_spec (M + 100) 1), (Z.ltb_spec 2147483647 (M + 100));
      cbn; lia.
  - apply IH.
Qed.

(** X6: in any world the program reaches that is not in the playback
    state (where [playBack] is refused), with a log that is not empty and
    whose last timestamp is at most 2^31 - 101 ms, [playBack] leaves
    pending the timers [cancelled w] that its clearing block does not
    clear, then one emission timer per message, then the completion timer,
    and the completion is due at least 99 ms after every emission: the
    replay is declared complete only once all its messages are out. *)
Theorem completion_after_emissions
        (ss : list Stimulus) (w : World) (now : Z)
        (r : Recorded) (rs : list Recorded) :
  run ss initial = Some w ->
  state w <> playback ->
  recordedMessages w = r :: rs ->
  timestamp (last (r :: rs) r) + 100 <= 2147483647 ->
  exists E C,
    pending (playBack now w) = cancelled w ++ E ++ [C] /\
    map callback E =
      map (fun '(i, m) => EmitMessage i m)
          (combine (seq 0 (List.length (r :: rs))) (r :: rs)) /\
    callback C = PlaybackComplete /\
    Forall (fun t => due t + 99 <= due C) E.
Proof.
  intros Hr Hs Hl HM.
  rewrite (playBack_starts now w r rs Hs Hl). cbn [pending].
  eexists. eexists. split; [reflexivity|].
  split; [|split; [reflexivity|]].
  - generalize (r :: rs) as l. generalize 0%nat as i.
    generalize (next_handle w) as h.
    intros h i l. revert h i.
    induction l as [|a l IH]; intros h i; cbn; [reflexivity|].
    now rewrite IH.
  - cbn [due completion_timer].
    apply emission_timers_due; [|exact HM].
    destruct (run_session_inv ss initial w session_inv_initial Hr)
      as (_ & _ & _ & I4).
    assert (Hli : log_inv initial) by (split; constructor).
    destruct (run_log_inv ss initial w Hli Hr) as (Hsorted & _).
    pose proof (sorted_below_last _ Hsorted (timestamp r)) as Hb.
    unfold offsets in *. rewrite Hl in *.
    rewrite last_map_timestamp in Hb.
    rewrite Forall_map in I4, Hb.
    rewrite Forall_forall in *. intros x Hx. split; auto.
Qed.

Lemma completion_after_emissions_witness :
  exists E C,
    pending (playBack 2000 stopped) = [] ++ E ++ [C] /\
    map callback E =
      [EmitMessage 0 (mkRecorded "noteon" (noteOn 60 100) 0);
       EmitMessage 1 (mkRecorded "noteoff" (noteOff 60) 1000)] /\
    callback C = PlaybackComplete /\
    Forall (fun t => due t + 99 <= due C) E.
Proof.
  refine (completion_after_emissions
            (take_stimuli ++ [Key 1500 "s"]) stopped 2000 _ _
            eq_refl _ eq_refl _).
  - discriminate.
  - cbn. lia.
Defined.

(** ** A take among other stimuli *)

Lemma cancel_handles (hs : list nat) : forall p t,
  In t (cancel hs p) -> ~ In (handle t) hs.
Proof.
  induction hs as [|h hs IH]; intros p t Ht; cbn in Ht; [tauto|].
  intros [E|Hin].
  - apply cancel_incl in Ht. apply filter_In in Ht. destruct Ht as [_ Hne].
    subst h. rewrite Nat.eqb_refl in Hne. discriminate.
  - exact (IH _ _ Ht Hin).
Qed.

(** The clearing block leaves no completion timer. *)
Lemma cancelled_no_completion (w : World) :
  completion_tracked w ->
  Forall (fun t => callback t <> PlaybackComplete) (cancelled w).
Proof.
  intros Hc. apply Forall_forall. intros t Ht Hcb.
  pose proof (cancelled_incl w t Ht) as Hin.
  unfold completion_tracked in Hc. rewrite Forall_forall in Hc.
  specialize (Hc t Hin Hcb).
  unfold cancelled in Ht. rewrite Hc in Ht.
  apply cancel_handles in Ht. apply Ht. now left.
Qed.

Lemma emission_timers_callbacks (now : Z) (rs : list Recorded) : forall h index,
  Forall (fun t => callback t <> PlaybackComplete)
         (emission_timers now h index rs).
Proof.
  induction rs as [|r rs IH]; intros h index; cbn; constructor.
  - cbn. discriminate.
  - apply IH.
Qed.

Lemma completion_tracked_frame (w w' : World) :
  pending w' = pending w ->
  playbackCompleteTimeout w' = playbackCompleteTimeout w ->
  completion_tracked w -> completion_tracked w'.
Proof. unfold completion_tracked. intros -> ->. auto. Qed.

Lemma no_completion_tracked (hc : option nat) (p : list Timer) :
  Forall (fun t => callback t <> PlaybackComplete) p ->
  Forall (fun t => callback t = PlaybackComplete -> hc = Some (handle t)) p.
Proof.
  intros H. eapply Forall_impl; [|exact H]. cbn. intros t Hne Hcb.
  contradiction.
Qed.

Lemma handleMIDIMessage_keeps_completion (now now' : Z) (ty : string)
      (m : Msg) (w : World) :
  playbackCompleteTimeout (handleMIDIMessage now now' ty m w) =
  playbackCompleteTimeout w.
Proof.
  unfold handleMIDIMessage, startRecording, recordMessage, andThen.
  destruct (state w) eqn:Es;
    destruct (String.eqb ty "noteon"); try reflexivity;
    destruct (is_sustain ty m); try rewrite Es; reflexivity.
Qed.

Lemma playBack_completion_tracked (now : Z) (w : World) :
  completion_tracked w -> completion_tracked (playBack now w).
Proof.
  intros Hc.
  destruct (State_eqb (state w) playback) eqn:Es.
  - unfold playBack. destruct (state w); try discriminate. exact Hc.
  - destruct (recordedMessages w) as [|r rs] eqn:El.
    + unfold playBack. rewrite El.
      destruct (state w); try discriminate; exact Hc.
    + rewrite (playBack_starts now w r rs);
        [|destruct (state w); discriminate | exact El].
      unfold completion_tracked. cbn [pending playbackCompleteTimeout].
      apply Forall_app. split; [|apply Forall_app; split].
      * apply no_completion_tracked, cancelled_no_completion, Hc.
      * apply no_completion_tracked, emission_timers_callbacks.
      * constructor; [|constructor]. intros _. reflexivity.
Qed.

Lemma stopPlayback_completion_tracked (w : World) :
  completion_tracked w -> completion_tracked (stopPlayback w).
Proof.
  intros Hc. unfold stopPlayback. destruct (state w) eqn:Es; auto.
  unfold andThen. rewrite clearPlaybackTimers_spec.
  unfold completion_tracked. cbn.
  apply no_completion_tracked, cancelled_no_completion, Hc.
Qed.

Lemma onKey_completion_tracked (now : Z) (key : string) (w w' : World) :
  completion_tracked w -> onKey now key w = Some w' -> completion_tracked w'.
Proof.
  unfold onKey. intros Hc H.
  repeat match type of H with
         | (if ?b then _ else _) = _ => destruct b
         end; try discriminate; inversion H; subst; clear H.
  - destruct (state w) eqn:Es; auto.
    + unfold stopRecording. rewrite Es. exact Hc.
    + now apply stopPlayback_completion_tracked.
  - now apply playBack_completion_tracked.
  - destruct (exportMIDI_effect_frame true w) as [l ->]. exact Hc.
  - exact Hc.
Qed.

Lemma fire_completion_tracked (t : Timer) (send_ok : bool) (w : World) :
  In t (pending w) ->
  completion_tracked w -> completion_tracked (fire t send_ok w).
Proof.
  unfold completion_tracked, fire, run_callback. intros Hin Hc.
  rewrite Forall_forall in Hc.
  destruct (callback t) eqn:Ecb.
  - assert (H : Forall (fun t0 => callback t0 = PlaybackComplete ->
                          playbackCompleteTimeout w = Some (handle t0))
                  (pending (clearTimeout (handle t) w))).
    { cbn. apply Forall_forall. intros x Hx. apply filter_In in Hx.
      now apply Hc. }
    destruct send_ok; exact H.
  - unfold andThen. cbn. apply Forall_forall. intros x Hx Hcb.
    apply filter_In in Hx. destruct Hx as [Hx Hne].
    pose proof (Hc x Hx Hcb) as E1. pose proof (Hc t Hin Ecb) as E2.
    rewrite E1 in E2. inversion E2 as [E]. rewrite E, Nat.eqb_refl in Hne.
    discriminate.
Qed.

Lemma step_completion_tracked (s : Stimulus) (w w' : World) :
  completion_tracked w -> step s w = Some w' -> completion_tracked w'.
Proof.
  intros Hc Hs.
  destruct s as [now now' ty m | now key | now h ok | now key]; cbn in Hs.
  - destruct ((clock w <=? now) && (now <=? now')); [|discriminate].
    inversion Hs; subst; clear Hs.
    apply (completion_tracked_frame w); [| |exact Hc]; cbn.
    + apply handleMIDIMessage_keeps_timers.
    + apply handleMIDIMessage_keeps_completion.
  - destruct (clock w <=? now); [|discriminate].
    destruct (onKey now key w) as [w1|] eqn:Ek; [|discriminate].
    inversion Hs; subst; clear Hs.
    apply (onKey_completion_tracked _ _ _ _ Hc) in Ek. exact Ek.
  - destruct (clock w <=? now); [|discriminate].
    destruct (find_timer h w) as [t|] eqn:Ef; [|discriminate].
    destruct (due t <=? now); [|discriminate].
    inversion Hs; subst; clear Hs.
    apply find_some in Ef. destruct Ef as [Hin _].
    now apply (fire_completion_tracked t ok) in Hc.
  - destruct ((clock w <=? now) && key_is key "e" "E"); [|discriminate].
    inversion Hs; subst; clear Hs.
    destruct (exportMIDI_effect_frame false w) as [l ->]. exact Hc.
Qed.

(** In every world the program reaches, no completion timer is pending
    but the one of the last replay. *)
Lemma run_completion_tracked (ss : list Stimulus) : forall w w',
  completion_tracked w -> run ss w = Some w' -> completion_tracked w'.
Proof.
  induction ss as [|s ss IH]; intros w w' Hc Hr; cbn in Hr.
  - now inversion Hr; subst.
  - destruct (step s w) as [w1|] eqn:Es; [|discriminate].
    eapply IH; [|exact Hr]. eapply step_completion_tracked; eauto.
Qed.

Lemma arrivals_of_cons (s : Stimulus) (ss : list Stimulus) :
  arrivals_of (s :: ss) = arrivals_of [s] ++ arrivals_of ss.
Proof. unfold arrivals_of. cbn. now rewrite app_nil_r. Qed.

(** One stimulus that does not end the take. *)
Lemma step_keeps_recording (hc : option nat) (s0 : Z) (s : Stimulus)
      (w w' : World) :
  state w = recording ->
  recordingStartTime w = Some s0 ->
  playbackCompleteTimeout w = hc ->
  completion_tracked w ->
  keeps_recording hc s = true ->
  step s w = Some w' ->
  state w' = recording /\
  recordingStartTime w' = Some s0 /\
  playbackCompleteTimeout w' = hc /\
  recordedMessages w' =
    recordedMessages w ++ recorded_since s0 (arrivals_of [s]).
Proof.
  intros Hst Ht Hh Hc Hk Hs.
  destruct s as [now now' ty m | now key | now h ok | now key]; cbn in Hs.
  - destruct ((clock w <=? now) && (now <=? now')); [|discriminate].
    inversion Hs; subst; clear Hs.
    unfold handleMIDIMessage. rewrite Hst.
    unfold recordMessage, since_start. rewrite Ht. cbn. auto.
  - destruct (clock w <=? now); [|discriminate].
    cbn in Hk. apply negb_true_iff in Hk.
    apply orb_false_iff in Hk. destruct Hk as [Hk Hp].
    apply orb_false_iff in Hk. destruct Hk as [Hk Hs'].
    apply orb_false_iff in Hk. destruct Hk as [Hcc Hcd].
    unfold onKey in Hs. rewrite Hcc, Hcd, Hs', Hp in Hs.
    cbn [arrivals_of flat_map recorded_since map app]. rewrite app_nil_r.
    destruct (key_is key "e" "E"); cbn in Hs;
      inversion Hs; subst; clear Hs; cbn; auto.
    destruct (exportMIDI_effect_frame true w) as [l ->]. cbn. auto.
  - destruct (clock w <=? now); [|discriminate].
    destruct (find_timer h w) as [t|] eqn:Ef; [|discriminate].
    destruct (due t <=? now); [|discriminate].
    inversion Hs; subst; clear Hs.
    apply find_some in Ef. destruct Ef as [Hin Eh].
    apply Nat.eqb_eq in Eh.
    cbn [arrivals_of flat_map recorded_since map app]. rewrite app_nil_r.
    unfold fire, run_callback.
    destruct (callback t) eqn:Ecb.
    + destruct ok; cbn; auto.
    + unfold completion_tracked in Hc. rewrite Forall_forall in Hc.
      rewrite (Hc t Hin Ecb), Eh in Hk. cbn in Hk.
      rewrite Nat.eqb_refl in Hk. discriminate.
  - destruct ((clock w <=? now) && key_is key "e" "E"); [|discriminate].
    inversion Hs; subst; clear Hs.
    cbn [arrivals_of flat_map recorded_since map app]. rewrite app_nil_r.
    destruct (exportMIDI_effect_frame false w) as [l ->]. cbn. auto.
Qed.

(** Any number of them. *)
Lemma run_keeps_recording (hc : option nat) (s0 : Z) (ss : list Stimulus) :
  forall w w',
  state w = recording ->
  recordingStartTime w = Some s0 ->
  playbackCompleteTimeout w = hc ->
  completion_tracked w ->
  forallb (keeps_recording hc) ss = true ->
  run ss w = Some w' ->
  state w' = recording /\
  recordingStartTime w' = Some s0 /\
  recordedMessages w' = recordedMessages w ++ recorded_since s0 (arrivals_of ss).
Proof.
  induction ss as [|s ss IH]; intros w w' Hst Ht Hh Hc Hk Hr; cbn in Hr.
  - inversion Hr; subst. cbn. now rewrite app_nil_r.
  - destruct (step s w) as [w1|] eqn:Es; [|discriminate].
    cbn in Hk. apply andb_true_iff in Hk. destruct Hk as [Hk Hks].
    pose proof (step_completion_tracked s w w1 Hc Es) as Hc1.
    destruct (step_keeps_recording hc s0 s w w1 Hst Ht Hh Hc Hk Es)
      as (Hst1 & Ht1 & Hh1 & Hl1).
    destruct (IH w1 w' Hst1 Ht1 Hh1 Hc1 Hks Hr) as (Hst' & Ht' & Hl').
    split; [exact Hst'|]. split; [exact Ht'|].
    rewrite Hl', Hl1, (arrivals_of_cons s ss).
    unfold recorded_since. now rewrite map_app, app_assoc.
Qed.

(** X4: in any world the program reaches in the listening or the playback
    state, a note-on or a sustain-pedal message starts a take that holds
    nothing of the log before.  Whatever follows it, in any order, among
    further messages, keys other than [s], [p], ctrl-C and ctrl-D, exports
    and timers other than the completion timer of the last replay (the
    handle in [playbackCompleteTimeout]), the state is still recording and
    the log is exactly the trigger and the messages after it, timed from
    the first clock reading of the trigger. *)
Theorem new_capture_overwrites
        (ss0 : list Stimulus) (w : World)
        (now now' : Z) (ty : string) (m : Msg)
        (ss : list Stimulus) (w' : World) :
  run ss0 initial = Some w ->
  state w <> recording ->
  is_trigger ty m = true ->
  forallb (keeps_recording (playbackCompleteTimeout w)) ss = true ->
  run (MidiIn now now' ty m :: ss) w = Some w' ->
  state w' = recording /\
  recordedMessages w' =
    recorded_since now ((now, now', ty, m) :: arrivals_of ss) /\
  recordingStartTime w' = Some now.
Proof.
  intros Hr Hs Htr Hk Hrun.
  assert (Hc : completion_tracked w).
  { apply (run_completion_tracked ss0 initial w); [constructor | exact Hr]. }
  cbn [run] in Hrun.
  destruct (step (MidiIn now now' ty m) w) as [w1|] eqn:E1; [|discriminate].
  pose proof (step_completion_tracked _ _ _ Hc E1) as Hc1.
  cbn in E1.
  destruct ((clock w <=? now) && (now <=? now')); [|discriminate].
  inversion E1; subst w1; clear E1.
  set (w1 := set_clock now' (handleMIDIMessage now now' ty m w)) in *.
  assert (E : state w1 = recording /\
              recordingStartTime w1 = Some now /\
              recordedMessages w1 = [mkRecorded ty m (now' - now)] /\
              playbackCompleteTimeout w1 = playbackCompleteTimeout w).
  { subst w1. unfold handleMIDIMessage, is_trigger in *.
    unfold andThen, startRecording, recordMessage, since_start.
    destruct (state w); try congruence;
      destruct (String.eqb ty "noteon"); cbn in Htr |- *;
      rewrite ?Htr; cbn; auto. }
  destruct E as (Es & Et & El & Eh).
  destruct (run_keeps_recording (playbackCompleteTimeout w) now ss w1 w'
              Es Et Eh Hc1 Hk Hrun) as (Hs' & Ht' & Hl').
  split; [exact Hs'|]. split; [|exact Ht'].
  rewrite Hl', El. reflexivity.
Qed.

Lemma new_capture_overwrites_witness :
  run (take_stimuli ++ [Key 1500 "s"; Key 2000 "p"; TimerFires 2001 0 true])
      initial = Some replaying /\
  run [MidiIn 2500 2500 "noteon" (noteOn 72 80);
       TimerFires 3000 1 true; Key 3050 "e"; ExportThrows 3055 "E";
       MidiIn 3060 3061 "noteoff" (noteOff 72)] replaying = Some retaken /\
  state retaken = recording /\
  recordedMessages retaken =
    [mkRecorded "noteon" (noteOn 72 80) 0;
     mkRecorded "noteoff" (noteOff 72) 561] /\
  recordingStartTime retaken = Some 2500.
Proof.
  split; [reflexivity|]. split; [reflexivity|].
  refine (new_capture_overwrites
            (take_stimuli ++ [Key 1500 "s"; Key 2000 "p"; TimerFires 2001 0 true])
            replaying 2500 2500 "noteon" (noteOn 72 80)
            [TimerFires 3000 1 true; Key 3050 "e"; ExportThrows 3055 "E";
             MidiIn 3060 3061 "noteoff" (noteOff 72)]
            retaken eq_refl _ eq_refl eq_refl eq_refl).
  discriminate.
Defined.

(** * Further properties of the encoder *)

Lemma In_delete {V : Type} (k : JsMap.key) (x : JsMap.key * V)
      (m : JsMap.t V) :
  In x (JsMap.delete k m) -> In x m.
Proof.
  induction m as [|[k0 v0] m IH]; cbn; [tauto|].
  destruct (key_eqb_spec k0 k); cbn; tauto.
Qed.

Lemma In_set {V : Type} (k : JsMap.key) (v : V) (x : JsMap.key * V)
      (m : JsMap.t V) :
  In x (JsMap.set k v m) -> x = (k, v) \/ In x m.
Proof.
  induction m as [|[k0 v0] m IH]; cbn.
  - intros [E|[]]. now left.
  - destruct (key_eqb_spec k0 k); cbn; intros [E|H]; auto.
    destruct (IH H); auto.
Qed.

Lemma is_cc_kind (r : Recorded) :
  is_cc r = true -> opens r = false /\ releases r = false.
Proof.
  unfold is_cc, opens, releases. intros H.
  apply String.eqb_eq in H. rewrite H. now cbn.
Qed.

Lemma opens_not_releases (r : Recorded) :
  opens r = true -> releases r = false /\ is_cc r = false.
Proof.
  unfold is_cc, opens, releases, js_gt0, js_is0. intros H.
  apply andb_prop in H. destruct H as [Ht Hv].
  apply String.eqb_eq in Ht. rewrite Ht. cbn.
  destruct (velocity (msg r)) as [v|]; [|discriminate].
  apply Z.ltb_lt in Hv. split; [|reflexivity].
  destruct (Z.eqb_spec v 0); [lia | reflexivity].
Qed.

Lemma releases_not_cc (r : Recorded) :
  releases r = true -> is_cc r = false.
Proof.
  unfold is_cc, releases. intros H.
  apply orb_prop in H. destruct H as [H|H].
  - apply String.eqb_eq in H. now rewrite H.
  - apply andb_prop in H. destruct H as [H _].
    apply String.eqb_eq in H. now rewrite H.
Qed.

Section MoreEncoderFacts.
Context {N : JsNumber}.
Variable t0 : Z.

Lemma controlChanges_app (a b : Track) :
  controlChanges (a ++ b) = controlChanges a ++ controlChanges b.
Proof. unfold controlChanges. now rewrite flat_map_app. Qed.

(** A message the encoder has no branch for changes nothing. *)
Lemma encodeMessage_ignored (acc : Track * ActiveNotes) (r : Recorded) :
  encoded r = false -> encodeMessage t0 acc r = acc.
Proof.
  unfold encoded, opens, releases, is_cc. intros H.
  apply orb_false_elim in H. destruct H as [H Hc].
  apply orb_false_elim in H. destruct H as [Ho Hr].
  destruct acc as [track active]. unfold encodeMessage.
  now rewrite Ho, Hr, Hc.
Qed.

Lemma encodeMessage_cc (track : Track) (active : ActiveNotes) (r : Recorded) :
  is_cc r = true ->
  encodeMessage t0 (track, active) r =
  (track ++ [addCC (cc_record t0 r)], active).
Proof.
  intros H. destruct (is_cc_kind r H) as [Ho Hr].
  unfold opens, releases, is_cc in *. unfold encodeMessage.
  now rewrite Ho, Hr, H.
Qed.

Lemma controlChanges_step (acc : Track * ActiveNotes) (r : Recorded) :
  controlChanges (fst (encodeMessage t0 acc r)) =
  controlChanges (fst acc) ++ (if is_cc r then [cc_record t0 r] else []).
Proof.
  destruct acc as [track active]. cbn [fst].
  destruct (is_cc r) eqn:Ec.
  - rewrite encodeMessage_cc by exact Ec. cbn [fst].
    now rewrite controlChanges_app.
  - rewrite app_nil_r.
    destruct (opens r) eqn:Eo; [|destruct (releases r) eqn:Er].
    + rewrite (encodeMessage_opens t0 track active r Eo). cbn zeta.
      destruct (JsMap.get (note (msg r)) active); cbn [fst];
        [|reflexivity].
      rewrite controlChanges_app. cbn. apply app_nil_r.
    + rewrite (encodeMessage_releases t0 track active r Eo Er). cbn zeta.
      destruct (JsMap.get (note (msg r)) active); cbn [fst];
        [|reflexivity].
      rewrite controlChanges_app. cbn. apply app_nil_r.
    + rewrite encodeMessage_ignored; [reflexivity|].
      unfold encoded. now rewrite Eo, Er, Ec.
Qed.

Lemma controlChanges_fold (log : list Recorded) : forall acc,
  controlChanges (fst (fold_left (encodeMessage t0) log acc)) =
  controlChanges (fst acc) ++ map (cc_record t0) (filter is_cc log).
Proof.
  induction log as [|r log IH]; intros acc; cbn [fold_left filter].
  - cbn. now rewrite app_nil_r.
  - rewrite IH, controlChanges_step, <- app_assoc.
    now destruct (is_cc r).
Qed.

Lemma controlChanges_closeRemaining (endTime : num) (active : ActiveNotes) :
  controlChanges (closeRemaining endTime active) = [].
Proof.
  induction active as [|[k info] active IH]; cbn; [reflexivity | exact IH].
Qed.

Lemma fold_ignores_other_kinds (log : list Recorded) : forall acc,
  fold_left (encodeMessage t0) (filter encoded log) acc =
  fold_left (encodeMessage t0) log acc.
Proof.
  induction log as [|r log IH]; intros acc; cbn [fold_left filter];
    [reflexivity|].
  destruct (encoded r) eqn:E; cbn [fold_left].
  - apply IH.
  - now rewrite IH, encodeMessage_ignored.
Qed.
End MoreEncoderFacts.

(** X7: the control changes of the track are the [cc] messages of the
    log, all of them and in their order, each with its controller and value
    as recorded, the time of the message and its channel or 0. *)
Theorem controlChanges_exported `{JsNumber} (first : Recorded)
        (rest : list Recorded) :
  exists track,
    exportMIDI (first :: rest) = Some track /\
    controlChanges track =
      map (cc_record (timestamp first)) (filter is_cc (first :: rest)).
Proof.
  rewrite exportMIDI_cons. eexists. split; [reflexivity|].
  rewrite controlChanges_app, controlChanges_closeRemaining, app_nil_r.
  unfold encodeLoop. now rewrite controlChanges_fold.
Qed.

(** X8: messages of the other kinds (program, pitch, clock, a note-on
    without velocity, ...) count only through the first and the last
    timestamp of the log: two logs with the same first and last timestamps
    and the same note-on, note-off and cc messages give the same track. *)
Theorem other_kinds_ignored `{JsNumber} (f1 f2 : Recorded)
        (l1 l2 : list Recorded) :
  timestamp f1 = timestamp f2 ->
  timestamp (last (f1 :: l1) f1) = timestamp (last (f2 :: l2) f2) ->
  filter encoded (f1 :: l1) = filter encoded (f2 :: l2) ->
  exportMIDI (f1 :: l1) = exportMIDI (f2 :: l2).
Proof.
  intros Hf Hl He. rewrite !exportMIDI_cons. unfold encodeLoop.
  rewrite <- (fold_ignores_other_kinds (timestamp f1) (f1 :: l1)).
  rewrite <- (fold_ignores_other_kinds (timestamp f2) (f2 :: l2)).
  now rewrite He, Hf, Hl.
Qed.

Lemma other_kinds_ignored_witness :
  exportMIDI (N := binary64)
    [mkRecorded "noteon" (noteOn 60 100) 0;
     mkRecorded "clock" (mkMsg None None None None None) 200;
     mkRecorded "noteoff" (noteOff 60) 500] =
  exportMIDI (N := binary64)
    [mkRecorded "noteon" (noteOn 60 100) 0;
     mkRecorded "noteoff" (noteOff 60) 500].
Proof.
  exact (other_kinds_ignored
           (mkRecorded "noteon" (noteOn 60 100) 0)
           (mkRecorded "noteon" (noteOn 60 100) 0)
           [mkRecorded "clock" (mkMsg None None None None None) 200;
            mkRecorded "noteoff" (noteOff 60) 500]
           [mkRecorded "noteoff" (noteOff 60) 500]
           eq_refl eq_refl eq_refl).
Defined.

(** ** No note without a press *)

Section ProvenanceFacts.
Context {N : JsNumber}.
Variable t0 : Z.
Variable log : list Recorded.

Lemma closeNote_from_log (k : JsMap.key) (info : NoteInfo.t) (time : num)
      (c : Z) (track : Track) :
  set_by_log t0 log (k, info) ->
  (exists r', In r' log /\ opens r' = true /\ note (msg r') = k /\
              c = js_or (channel (msg r')) 0) ->
  Forall (from_log t0 log) (notes track) ->
  Forall (from_log t0 log) (notes (track ++ [closeNote k info time c])).
Proof.
  intros (r & Hin & Ho & Hk & Hs & Hv & Hc) Hch Ht.
  rewrite notes_app. apply Forall_app. split; [exact Ht|].
  constructor; [|constructor]. cbn in *. split.
  - exists r. repeat split; auto.
  - exact Hch.
Qed.

Lemma provenance_step (acc : Track * ActiveNotes) (e : Recorded) :
  In e log ->
  Forall (from_log t0 log) (notes (fst acc)) /\
  Forall (set_by_log t0 log) (snd acc) ->
  Forall (from_log t0 log) (notes (fst (encodeMessage t0 acc e))) /\
  Forall (set_by_log t0 log) (snd (encodeMessage t0 acc e)).
Proof.
  destruct acc as [track active]. cbn [fst snd]. intros Hin [Ht Ha].
  assert (Hget : forall info, JsMap.get (note (msg e)) active = Some info ->
                              set_by_log t0 log (note (msg e), info)).
  { intros info Hg. apply get_In in Hg.
    rewrite Forall_forall in Ha. now apply Ha. }
  assert (Hdel : Forall (set_by_log t0 log)
                   (JsMap.delete (note (msg e)) active)).
  { rewrite Forall_forall in *. intros x Hx. apply Ha.
    now apply In_delete in Hx. }
  destruct (opens e) eqn:Eo; [|destruct (releases e) eqn:Er].
  - rewrite (encodeMessage_opens t0 track active e Eo). cbn zeta.
    assert (Hnew : set_by_log t0 log
                     (note (msg e),
                      NoteInfo.mk _ (of_ms (timestamp e - t0))
                        (js_or (velocity (msg e)) 100)
                        (js_or (channel (msg e)) 0))).
    { exists e. cbn. auto 7. }
    destruct (JsMap.get (note (msg e)) active) as [info|] eqn:Hg;
      cbn [fst snd]; split.
    + apply closeNote_from_log; auto.
      exists e. auto.
    + rewrite Forall_forall in *. intros x Hx.
      apply In_set in Hx. destruct Hx as [->|Hx]; auto.
    + exact Ht.
    + rewrite Forall_forall in *. intros x Hx.
      apply In_set in Hx. destruct Hx as [->|Hx]; auto.
  - rewrite (encodeMessage_releases t0 track active e Eo Er). cbn zeta.
    destruct (JsMap.get (note (msg e)) active) as [info|] eqn:Hg;
      cbn [fst snd]; [|auto].
    split; [|exact Hdel].
    apply closeNote_from_log; auto.
    destruct (Hget info eq_refl) as (r & Hr & Ho & Hk & _ & _ & Hc).
    exists r. cbn in *. auto.
  - destruct (encodeMessage_other t0 track active e Eo Er) as [Hs Hn].
    now rewrite Hs, Hn.
Qed.

Lemma provenance_fold (l : list Recorded) : forall acc,
  incl l log ->
  Forall (from_log t0 log) (notes (fst acc)) /\
  Forall (set_by_log t0 log) (snd acc) ->
  Forall (from_log t0 log)
         (notes (fst (fold_left (encodeMessage t0) l acc))) /\
  Forall (set_by_log t0 log) (snd (fold_left (encodeMessage t0) l acc)).
Proof.
  induction l as [|e l IH]; intros acc Hi H; cbn [fold_left]; [exact H|].
  apply IH.
  - intros x Hx. apply Hi. now right.
  - apply provenance_step; [|exact H]. apply Hi. now left.
Qed.
End ProvenanceFacts.

(** Every note of the track of a log that is not empty comes from the
    log. *)
Lemma exportMIDI_from_log `{JsNumber} (first : Recorded)
      (rest : list Recorded) :
  exists track,
    exportMIDI (first :: rest) = Some track /\
    Forall (from_log (timestamp first) (first :: rest)) (notes track).
Proof.
  rewrite exportMIDI_cons. eexists. split; [reflexivity|].
  set (t0 := timestamp first). set (log := first :: rest).
  destruct (provenance_fold t0 log log ([], []) (incl_refl _))
    as [Ht Ha]; [split; constructor|].
  fold (encodeLoop t0 log) in Ht, Ha.
  rewrite notes_app. apply Forall_app. split; [exact Ht|].
  rewrite notes_closeRemaining. apply Forall_forall.
  intros n Hn. apply in_map_iff in Hn.
  destruct Hn as ([k info] & <- & Hin).
  rewrite Forall_forall in Ha.
  destruct (Ha _ Hin) as (r & Hr & Ho & Hk & Hs & Hv & Hc). cbn in *.
  split.
  - exists r. repeat split; auto.
  - exists r. auto.
Qed.

(** X9: the encoder invents no note.  Each note of the track was opened by
    a note-on of the log with a velocity above 0: it has the note number
    of that message, its time as start and its velocity; and its channel is
    the channel, or 0, of a note-on of the log with the same note number. *)
Theorem notes_come_from_presses `{JsNumber} (first : Recorded)
        (rest : list Recorded) :
  let log := first :: rest in
  let t0 := timestamp first in
  exists track,
    exportMIDI log = Some track /\
    forall n, In n (notes track) ->
      (exists r, In r log /\ opens r = true /\
                 Note.midi n = note (msg r) /\
                 Note.time n = of_ms (timestamp r - t0) /\
                 velocity (msg r) = Some (Note.velocity n) /\
                 0 < Note.velocity n) /\
      (exists r', In r' log /\ opens r' = true /\
                  note (msg r') = Note.midi n /\
                  Note.channel n = js_or (channel (msg r')) 0).
Proof.
  intros log t0.
  destruct (exportMIDI_from_log first rest) as (track & He & Hf).
  exists track. split; [exact He|].
  rewrite Forall_forall in Hf. intros n Hn.
  destruct (Hf n Hn) as [(r & Hr & Ho & Hm & Ht & Hv) Hc].
  split; [|exact Hc].
  exists r. destruct (opens_velocity r Ho) as (v & Ev & Hpos & Ej).
  rewrite Ej in Hv. subst v. auto 7.
Qed.

(** * From the keys pressed to the notes replayed *)

Lemma handleMIDIMessage_keeps_sent (now now' : Z) (ty : string) (m : Msg)
      (w : World) :
  sent (handleMIDIMessage now now' ty m w) = sent w.
Proof.
  unfold handleMIDIMessage, startRecording, recordMessage, andThen.
  destruct (state w) eqn:Es;
    destruct (String.eqb ty "noteon"); try reflexivity;
    destruct (is_sustain ty m); try rewrite Es; reflexivity.
Qed.

(** MIDI messages leave the runtime alone. *)
Lemma run_midi_runtime (ms : list Arrival) : forall w w',
  run (midi_stimuli ms) w = Some w' ->
  pending w' = pending w /\
  next_handle w' = next_handle w /\
  sent w' = sent w /\
  clock w' = last_reading (clock w) ms.
Proof.
  induction ms as [|[[[now now'] ty] m] ms IH]; intros w w' Hr.
  - cbn in Hr. inversion Hr; subst. auto.
  - cbn [midi_stimuli map run step] in Hr.
    destruct ((clock w <=? now) && (now <=? now')); [|discriminate].
    apply IH in Hr. destruct Hr as (Hp & Hn & Hs & Hc).
    cbn in Hp, Hn, Hs, Hc.
    rewrite handleMIDIMessage_keeps_timers in Hp.
    rewrite handleMIDIMessage_keeps_next_handle in Hn.
    rewrite handleMIDIMessage_keeps_sent in Hs.
    repeat split; auto.
    rewrite Hc. unfold last_reading. cbn [map]. now rewrite last_cons.
Qed.

(** A trigger and the messages after it, from a state that is not
    recording. *)
Lemma run_capture (now now' : Z) (ty : string) (m : Msg)
      (ms : list Arrival) (w : World) :
  state w <> recording ->
  is_trigger ty m = true ->
  arrivals_in_order (clock w) ((now, now', ty, m) :: ms) ->
  exists w',
    run (midi_stimuli ((now, now', ty, m) :: ms)) w = Some w' /\
    state w' = recording /\
    recordedMessages w' = recorded_since now ((now, now', ty, m) :: ms).
Proof.
  intros Hs Htr Ha. cbn in Ha. destruct Ha as (H1 & H2 & Ha).
  cbn [midi_stimuli map run step].
  apply Z.leb_le in H1, H2. rewrite H1, H2. cbn [andb].
  set (w1 := set_clock now' (handleMIDIMessage now now' ty m w)).
  assert (E1 : state w1 = recording /\
               recordingStartTime w1 = Some now /\
               recordedMessages w1 = [mkRecorded ty m (now' - now)] /\
               clock w1 = now').
  { subst w1. unfold handleMIDIMessage, is_trigger in *.
    unfold andThen, startRecording, recordMessage, since_start.
    destruct (state w); try congruence;
      destruct (String.eqb ty "noteon"); cbn in Htr |- *;
      rewrite ?Htr; cbn; auto. }
  destruct E1 as (Es & Et & El & Ec).
  destruct (run_recording now ms w1 Es Et) as (w' & Hr & Hs' & Hl & _).
  { now rewrite Ec. }
  exists w'. split; [exact Hr|]. split; [exact Hs'|].
  rewrite Hl, El. reflexivity.
Qed.

(** A replay run to its end, from a world with fresh handles. *)
Lemma run_replay (w : World) (now : Z) (r : Recorded) (rs : list Recorded)
      (times : list Z) (oks : list bool) (tc : Z) (okc : bool) :
  handles_fresh w ->
  state w <> playback ->
  recordedMessages w = r :: rs ->
  clock w <= now ->
  List.length oks = List.length (r :: rs) ->
  on_schedule now (emission_timers now (next_handle w) 0 (r :: rs)) times ->
  last times now <= tc ->
  now + timer_delay (timestamp (last (r :: rs) r) + 100) <= tc ->
  exists w',
    run (Key now "p"
           :: firings (emission_timers now (next_handle w) 0 (r :: rs))
                times oks
           ++ [TimerFires tc (next_handle w + List.length (r :: rs)) okc]) w
      = Some w' /\
    sent w' = sent w ++ delivered (r :: rs) oks /\
    state w' = listening /\
    pending w' = cancelled w.
Proof.
  intros Hf Hs Hl Hc Ho Hsch Htc Hdue.
  assert (HP : Forall (fun t => (handle t < next_handle w)%nat) (cancelled w)).
  { apply cancelled_Forall. exact Hf. }
  cbn [List.length] in *.
  cbn [run step]. apply Z.leb_le in Hc. rewrite Hc.
  rewrite onKey_p. cbn [option_map].
  rewrite (playBack_starts now w r rs Hs Hl). rewrite run_app.
  match goal with |- context [run (firings _ _ _) ?x] => set (w1 := x) end.
  set (C := completion_timer now (next_handle w + S (List.length rs)) r
              (r :: rs)).
  rewrite (run_emissions now (r :: rs) (next_handle w) 0%nat times oks w1
             (cancelled w) [C]); try assumption.
  - cbn [run]. unfold step. cbn [clock handle].
    apply Z.leb_le in Htc. subst w1. cbn [clock set_clock]. rewrite Htc.
    unfold find_timer. cbn [pending].
    rewrite find_skip.
    2:{ eapply Forall_impl; [|exact HP]. cbn. intros; lia. }
    subst C. cbn [find handle completion_timer]. rewrite Nat.eqb_refl.
    cbn [due completion_timer].
    apply Z.leb_le in Hdue. rewrite Hdue.
    eexists. split; [reflexivity|].
    unfold fire, run_callback, andThen. cbn.
    split; [reflexivity|]. split; [reflexivity|].
    rewrite filter_app. cbn. rewrite Nat.eqb_refl. cbn.
    rewrite filter_keeps, app_nil_r; [reflexivity|].
    eapply Forall_impl; [|exact HP]. cbn. intros; lia.
  - reflexivity.
  - constructor; [|constructor]. subst C. cbn. lia.
Qed.

Lemma timer_delay_mono (a b : Z) :
  0 <= a <= b -> b <= 2147483647 -> timer_delay a <= timer_delay b.
Proof.
  intros Hab Hb. unfold timer_delay.
  destruct (Z.ltb_spec a 1), (Z.ltb_spec 2147483647 a),
    (Z.ltb_spec b 1), (Z.ltb_spec 2147483647 b); cbn; lia.
Qed.

Lemma emission_timers_dues (now : Z) (P : Z -> Prop) (rs : list Recorded) :
  forall h index,
  Forall (fun r => P (now + timer_delay (timestamp r))) rs ->
  Forall P (map due (emission_timers now h index rs)).
Proof.
  induction rs as [|r rs IH]; intros h index Hrs; cbn; [constructor|].
  inversion Hrs; subst. constructor; [assumption | now apply IH].
Qed.

(** With offsets in order, none negative and none above 2^31 - 1, the
    timers of a replay are due in the order of the log. *)
Lemma emission_timers_sorted (now M : Z) (rs : list Recorded) :
  forall h index,
  StronglySorted Z.le (map timestamp rs) ->
  Forall (fun r => 0 <= timestamp r <= M) rs ->
  M <= 2147483647 ->
  StronglySorted Z.le (map due (emission_timers now h index rs)).
Proof.
  induction rs as [|r rs IH]; intros h index Hs Hb HM; cbn; [constructor|].
  inversion Hs as [|? ? Hs' Hr]; subst. inversion Hb as [|? ? Hr0 Hb']; subst.
  constructor; [now apply IH|].
  apply emission_timers_dues. cbn [due].
  rewrite Forall_map in Hr. rewrite Forall_forall in *.
  intros x Hx. specialize (Hr x Hx). specialize (Hb' x Hx).
  pose proof (timer_delay_mono (timestamp r) (timestamp x)). lia.
Qed.

Lemma sorted_snoc (l : list Z) (c : Z) :
  StronglySorted Z.le l -> Forall (fun x => x <= c) l ->
  StronglySorted Z.le (l ++ [c]).
Proof.
  induction 1 as [|a l Hl IH Ha]; intros Hc; cbn.
  - constructor; constructor.
  - inversion Hc; subst. constructor; [now apply IH|].
    apply Forall_app. split; [exact Ha|]. now constructor.
Qed.

Lemma delivered_all (rs : list Recorded) :
  delivered rs (repeat true (List.length rs)) =
  map (fun r => (type r, msg r)) rs.
Proof.
  induction rs as [|r rs IH]; cbn; [reflexivity|]. now rewrite IH.
Qed.

Lemma recorded_since_sent (s : Z) (ms : list Arrival) :
  map (fun r => (type r, msg r)) (recorded_since s ms) = as_sent ms.
Proof.
  unfold recorded_since, as_sent. rewrite map_map.
  apply map_ext. now intros [[[now now'] ty] m].
Qed.

(** X11: the loopback.  In any world the program reaches in the listening
    or the playback state with no timer pending: a trigger and the messages
    [ms] after it arrive and make a take that lasts at most 2^31 - 101 ms,
    the key [s] stops the take and the key [p] replays it.  Then the timers
    of the replay are due in the order of the take, the completion timer
    last, and when they fire in that order, every send succeeding, the
    output has received exactly the messages of the take, trigger first, in
    the order they arrived; the state is listening again and no timer is
    pending. *)
Theorem loopback_round_trip
        (ss : list Stimulus) (w : World)
        (now now' : Z) (ty : string) (m : Msg) (ms : list Arrival)
        (ts tp : Z) (times : list Z) (tc : Z) :
  let arrivals := (now, now', ty, m) :: ms in
  let take := recorded_since now arrivals in
  let first := mkRecorded ty m (now' - now) in
  let E := emission_timers tp (next_handle w) 0 take in
  let C := completion_timer tp (next_handle w + List.length take) first take in
  run ss initial = Some w ->
  state w <> recording ->
  pending w = [] ->
  is_trigger ty m = true ->
  arrivals_in_order (clock w) arrivals ->
  timestamp (last take first) + 100 <= 2147483647 ->
  last_reading (clock w) arrivals <= ts ->
  ts <= tp ->
  on_schedule tp E times ->
  last times tp <= tc ->
  due C <= tc ->
  StronglySorted Z.le (map due (E ++ [C])) /\
  exists w',
    run (midi_stimuli arrivals
           ++ [Key ts "s"]
           ++ Key tp "p"
              :: firings E times (repeat true (List.length take))
              ++ [TimerFires tc (handle C) true]) w
      = Some w' /\
    sent w' = sent w ++ as_sent arrivals /\
    state w' = listening /\
    pending w' = [].
Proof.
  intros arrivals take first E C Hr Hs Hp Htr Ha HM Hts Htp Hsch Htc Hdue.
  assert (Hf : handles_fresh w).
  { apply (run_handles_fresh ss initial w); [constructor | exact Hr]. }
  destruct (run_capture now now' ty m ms w Hs Htr Ha) as (w1 & Hr1 & Hs1 & Hl1).
  destruct (run_midi_runtime arrivals w w1 Hr1) as (Hp1 & Hn1 & Hse1 & Hc1).
  fold arrivals in Hr1, Hl1. fold take in Hl1.
  assert (Hreach : run (ss ++ midi_stimuli arrivals) initial = Some w1).
  { now rewrite run_app, Hr. }
  assert (Hbounds : StronglySorted Z.le (map timestamp take) /\
                    Forall (fun r => 0 <= timestamp r
                                     <= timestamp (last take first)) take).
  { destruct (run_session_inv _ initial w1 session_inv_initial Hreach)
      as (_ & _ & _ & I4).
    assert (Hli : log_inv initial) by (split; constructor).
    destruct (run_log_inv _ initial w1 Hli Hreach) as (Hsorted & _).
    pose proof (sorted_below_last _ Hsorted (timestamp first)) as Hb.
    unfold offsets in *. rewrite Hl1 in *.
    rewrite last_map_timestamp in Hb.
    split; [exact Hsorted|].
    rewrite Forall_map in I4, Hb.
    rewrite Forall_forall in *. intros x Hx. split; auto. }
  destruct Hbounds as [Hsorted Hbounds].
  split.
  { rewrite map_app. apply sorted_snoc.
    - apply (emission_timers_sorted tp (timestamp (last take first)));
        [exact Hsorted | exact Hbounds | lia].
    - apply Forall_map.
      eapply Forall_impl;
        [|apply (emission_timers_due tp (timestamp (last take first)));
          [exact Hbounds | exact HM]].
      cbn. intros t Ht. subst C. cbn [due completion_timer]. lia. }
  rewrite run_app, Hr1.
  cbn [app run]. unfold step at 1. rewrite Hc1.
  apply Z.leb_le in Hts. rewrite Hts.
  change (onKey ts "s" w1)
    with (Some match state w1 with
               | recording => stopRecording ts w1
               | playback => stopPlayback w1
               | listening => w1
               end).
  rewrite Hs1. cbn [option_map].
  set (w2 := set_clock ts (stopRecording ts w1)).
  assert (E2 : state w2 = listening /\
               recordedMessages w2 = take /\
               pending w2 = [] /\
               playbackTimeouts w2 = playbackTimeouts w1 /\
               playbackCompleteTimeout w2 = playbackCompleteTimeout w1 /\
               next_handle w2 = next_handle w /\
               sent w2 = sent w /\
               clock w2 = ts).
  { subst w2. unfold stopRecording. rewrite Hs1. cbn.
    rewrite Hp1, Hp. auto 9. }
  destruct E2 as (Es2 & El2 & Ep2 & _ & _ & En2 & Ese2 & Ec2).
  assert (Hf2 : handles_fresh w2).
  { unfold handles_fresh. rewrite Ep2. constructor. }
  assert (Hne2 : state w2 <> playback) by congruence.
  assert (Hclk : clock w2 <= tp) by (rewrite Ec2; exact Htp).
  assert (Hsch2 : on_schedule tp
                    (emission_timers tp (next_handle w2) 0 take) times)
    by (rewrite En2; exact Hsch).
  assert (Hcan : cancelled w2 = []).
  { unfold cancelled. rewrite Ep2.
    destruct (playbackCompleteTimeout w2);
      [rewrite (cancel_drops _ []); [|constructor]|];
      apply cancel_drops; constructor. }
  destruct (run_replay w2 tp first
              (recorded_since now ms) times
              (repeat true (List.length take)) tc true
              Hf2 Hne2 El2 Hclk (repeat_length _ _) Hsch2 Htc Hdue)
    as (w' & Hr' & Hse' & Hs' & Hp').
  exists w'. rewrite En2 in Hr'. split; [exact Hr'|].
  split; [|split; [exact Hs'|]].
  - rewrite Hse', Ese2. f_equal.
    change (first :: recorded_since now ms) with take.
    rewrite delivered_all. apply recorded_since_sent.
  - now rewrite Hp', Hcan.
Qed.

Lemma loopback_round_trip_witness :
  run (take_stimuli
         ++ [Key 1500 "s"; Key 2000 "p"; TimerFires 2001 0 true;
             TimerFires 3000 1 true; TimerFires 3100 2 true]) initial
    = Some replayed /\
  StronglySorted Z.le [5001; 5100; 5200] /\
  exists w',
    run [MidiIn 4000 4000 "noteon" (noteOn 72 80);
         MidiIn 4100 4100 "noteoff" (noteOff 72);
         Key 4500 "s"; Key 5000 "p";
         TimerFires 5001 3 true; TimerFires 5100 4 true;
         TimerFires 5200 5 true] replayed = Some w' /\
    sent w' = sent replayed ++ [("noteon"%string, noteOn 72 80);
                                ("noteoff"%string, noteOff 72)] /\
    state w' = listening /\
    pending w' = [].
Proof.
  split; [reflexivity|].
  refine (loopback_round_trip
            (take_stimuli
               ++ [Key 1500 "s"; Key 2000 "p"; TimerFires 2001 0 true;
                   TimerFires 3000 1 true; TimerFires 3100 2 true])
            replayed 4000 4000 "noteon" (noteOn 72 80)
            [(4100, 4100, "noteoff"%string, noteOff 72)]
            4500 5000 [5001; 5100] 5200
            eq_refl _ eq_refl eq_refl _ _ _ _ _ _ _).
  - discriminate.
  - cbn. lia.
  - cbn. lia.
  - cbn. lia.
  - lia.
  - cbn. lia.
  - cbn. lia.
  - cbn. lia.
Defined.

(** * What keys, timers and other messages leave alone *)

(** X12: the key [s] always leads to the listening state, so pressing it
    again changes nothing at all. *)
Theorem stop_is_idempotent (t1 t2 : Z) (w w1 : World) :
  onKey t1 "s" w = Some w1 ->
  state w1 = listening /\ onKey t2 "s" w1 = Some w1.
Proof.
  intros H.
  change (onKey t1 "s" w)
    with (Some match state w with
               | recording => stopRecording t1 w
               | playback => stopPlayback w
               | listening => w
               end) in H.
  inversion H; subst; clear H.
  assert (Hs : state match state w with
                     | recording => stopRecording t1 w
                     | playback => stopPlayback w
                     | listening => w
                     end = listening).
  { destruct (state w) eqn:Es; [exact Es | |].
    - unfold stopRecording. now rewrite Es.
    - unfold stopPlayback. now rewrite Es. }
  split; [exact Hs|].
  match goal with |- onKey t2 "s" ?x = _ =>
    change (onKey t2 "s" x)
      with (Some match state x with
                 | recording => stopRecording t2 x
                 | playback => stopPlayback x
                 | listening => x
                 end)
  end.
  now rewrite Hs.
Qed.

Lemma stop_is_idempotent_witness :
  onKey 1500 "s" capturing = Some (stopRecording 1500 capturing) /\
  state (stopRecording 1500 capturing) = listening /\
  onKey 1600 "s" (stopRecording 1500 capturing)
    = Some (stopRecording 1500 capturing).
Proof.
  split; [reflexivity|].
  exact (stop_is_idempotent 1500 1600 capturing _ eq_refl).
Defined.

(** X13: only MIDI input changes the take.  Whatever keys are pressed and
    whatever timers fire, in any order, the recorded messages and the start
    time of the recording stay as they were. *)
Theorem keys_and_timers_keep_take (ss : list Stimulus) (w w' : World) :
  Forall (fun s => is_midi s = false) ss ->
  run ss w = Some w' ->
  recordedMessages w' = recordedMessages w /\
  recordingStartTime w' = recordingStartTime w.
Proof.
  intros Hm. revert w. induction Hm as [|s ss Hs _ IH]; intros w Hr.
  - cbn in Hr. inversion Hr; subst. auto.
  - cbn [run] in Hr. destruct (step s w) as [w1|] eqn:Es; [|discriminate].
    destruct (IH w1 Hr) as [Hl Ht]. rewrite Hl, Ht. clear IH Hr Hl Ht.
    destruct s as [now now' ty m | now key | now h ok | now key];
      [discriminate | | |]; cbn in Es.
    + destruct (clock w <=? now); [|discriminate].
      destruct (onKey now key w) as [w2|] eqn:Ek; [|discriminate].
      cbn in Es. inversion Es; subst.
      destruct (onKey_keeps_log _ _ _ _ Ek) as (A & B & _). auto.
    + destruct (clock w <=? now); [|discriminate].
      destruct (find_timer h w) as [t|]; [|discriminate].
      destruct (due t <=? now); [|discriminate].
      inversion Es; subst.
      destruct (fire_keeps_log t ok w) as (A & B & _). auto.
    + destruct ((clock w <=? now) && key_is key "e" "E"); [|discriminate].
      inversion Es; subst.
      destruct (exportMIDI_effect_frame false w) as [l ->]. auto.
Qed.

Lemma keys_and_timers_keep_take_witness :
  run [Key 1500 "s"] capturing = Some stopped /\
  recordedMessages stopped = recordedMessages capturing /\
  recordingStartTime stopped = recordingStartTime capturing.
Proof.
  split; [reflexivity|].
  refine (keys_and_timers_keep_take [Key 1500 "s"] capturing stopped
            _ eq_refl).
  repeat constructor.
Defined.

(** X14: in the listening and the playback state, messages that are
    neither a note-on nor the sustain pedal are discarded: after any number
    of them the world is the one before, but for the clock. *)
Theorem non_triggers_discarded (ms : list Arrival) : forall (w : World),
  state w <> recording ->
  Forall (fun a => arrival_triggers a = false) ms ->
  arrivals_in_order (clock w) ms ->
  run (midi_stimuli ms) w = Some (set_clock (last_reading (clock w) ms) w).
Proof.
  induction ms as [|[[[now now'] ty] m] ms IH]; intros w Hs Hn Ha.
  - cbn. now destruct w.
  - inversion Hn as [|a l Hty Hn']; subst.
    cbn in Ha. destruct Ha as (H1 & H2 & Ha).
    cbn [midi_stimuli map run step].
    apply Z.leb_le in H1, H2. rewrite H1, H2. cbn [andb].
    assert (E : handleMIDIMessage now now' ty m w = w).
    { unfold handleMIDIMessage. cbn in Hty. unfold is_trigger in Hty.
      apply orb_false_elim in Hty. destruct Hty as [Hon Hsu].
      destruct (state w); try congruence; now rewrite Hon, Hsu. }
    rewrite E.
    fold (midi_stimuli ms).
    rewrite (IH (set_clock now' w)); [|exact Hs|exact Hn'|exact Ha].
    unfold last_reading. cbn [map clock set_clock]. rewrite last_cons.
    now destruct w.
Qed.

Lemma non_triggers_discarded_witness :
  run [MidiIn 1600 1600 "noteoff" (noteOff 60);
       MidiIn 1700 1700 "cc" (mkMsg None None (Some 0) (Some 1) (Some 40));
       MidiIn 1800 1801 "clock" (mkMsg None None None None None)] stopped
  = Some (set_clock 1801 stopped).
Proof.
  refine (non_triggers_discarded
            [(1600, 1600, "noteoff"%string, noteOff 60);
             (1700, 1700, "cc"%string, mkMsg None None (Some 0) (Some 1) (Some 40));
             (1800, 1801, "clock"%string, mkMsg None None None None None)]
            stopped _ _ _).
  - discriminate.
  - repeat constructor.
  - cbn. lia.
Defined.


(** * Binary64 arithmetic of the encoder

    What the encoder computes, read through the specification of the
    primitive floats: the times it derives from integer timestamps are
    finite numbers, their differences are numbers, and [Math.max] returns
    the larger of its arguments. *)

Module Binary64Facts.
Import SpecFloat FloatOps FloatAxioms.

Lemma digits2_pos_lower (p : positive) :
  2 ^ (Zpos (digits2_pos p) - 1) <= Zpos p.
Proof.
  induction p as [p IH|p IH|]; cbn [digits2_pos].
  - rewrite Pos2Z.inj_succ.
    replace (Z.succ (Zpos (digits2_pos p)) - 1)
      with (Z.succ (Zpos (digits2_pos p) - 1)) by lia.
    rewrite Z.pow_succ_r by lia. lia.
  - rewrite Pos2Z.inj_succ.
    replace (Z.succ (Zpos (digits2_pos p)) - 1)
      with (Z.succ (Zpos (digits2_pos p) - 1)) by lia.
    rewrite Z.pow_succ_r by lia. lia.
  - cbn. lia.
Qed.

Lemma digits2_pos_upper (p : positive) :
  Zpos p < 2 ^ Zpos (digits2_pos p).
Proof.
  induction p as [p IH|p IH|]; cbn [digits2_pos].
  - rewrite Pos2Z.inj_succ, Z.pow_succ_r by lia. lia.
  - rewrite Pos2Z.inj_succ, Z.pow_succ_r by lia. lia.
  - cbn. lia.
Qed.

Lemma Zdigits2_bound (m k : Z) :
  0 <= m -> 0 <= k -> m < 2 ^ k -> Zdigits2 m <= k.
Proof.
  intros Hm Hk Hlt. destruct m as [|p|p]; cbn; [lia | | lia].
  destruct (Z_le_gt_dec (Zpos (digits2_pos p)) k) as [H|H]; [exact H|].
  pose proof (digits2_pos_lower p) as Hl.
  assert (2 ^ k <= 2 ^ (Zpos (digits2_pos p) - 1))
    by (apply Z.pow_le_mono_r; lia).
  lia.
Qed.

Lemma Zdigits2_nonneg (m : Z) : 0 <= Zdigits2 m.
Proof. destruct m; cbn; lia. Qed.

Lemma Zdigits2_succ (m : Z) :
  0 <= m -> Zdigits2 (m + 1) <= Zdigits2 m + 1.
Proof.
  intros Hm. destruct m as [|p|p]; [cbn; lia | | lia].
  change (Zpos p + 1) with (Zpos (p + 1)). cbn [Zdigits2].
  rewrite Pos.add_1_r.
  enough (H : (digits2_pos (Pos.succ p) <= Pos.succ (digits2_pos p))%positive)
    by lia.
  induction p as [p IH|p IH|]; cbn [digits2_pos Pos.succ]; lia.
Qed.

(** one shift *)
Lemma shr_1_spec (r : shr_record) :
  0 <= shr_m r ->
  0 <= shr_m (shr_1 r) /\
  Zdigits2 (shr_m (shr_1 r)) = Z.max 0 (Zdigits2 (shr_m r) - 1).
Proof.
  destruct r as [m r s]. cbn [shr_m]. intros Hm.
  destruct m as [|p|p]; [cbn; lia | | lia].
  destruct p as [p|p|]; cbn [shr_1 shr_m Zdigits2 digits2_pos];
    rewrite ?Pos2Z.inj_succ; lia.
Qed.

Lemma iter_shr_1_spec (p : positive) : forall r,
  0 <= shr_m r ->
  0 <= shr_m (iter_pos shr_1 p r) /\
  Zdigits2 (shr_m (iter_pos shr_1 p r)) =
    Z.max 0 (Zdigits2 (shr_m r) - Zpos p).
Proof.
  induction p as [p IH|p IH|]; intros r Hr; cbn [iter_pos].
  - destruct (shr_1_spec r Hr) as [H1 D1].
    destruct (IH _ H1) as [H2 D2]. destruct (IH _ H2) as [H3 D3].
    split; [exact H3|]. rewrite D3, D2, D1. lia.
  - destruct (IH _ Hr) as [H2 D2]. destruct (IH _ H2) as [H3 D3].
    split; [exact H3|]. rewrite D3, D2. lia.
  - apply shr_1_spec. exact Hr.
Qed.

Lemma shr_record_of_loc_m (m : Z) (l : location) :
  shr_m (shr_record_of_loc m l) = m.
Proof. destruct l as [|[| |]]; reflexivity. Qed.

Lemma shr_fexp_spec (m e : Z) (l : location) :
  0 <= m ->
  0 <= shr_m (fst (shr_fexp prec emax m e l)) /\
  snd (shr_fexp prec emax m e l) = Z.max e (fexp prec emax (Zdigits2 m + e)) /\
  Zdigits2 (shr_m (fst (shr_fexp prec emax m e l)))
    + snd (shr_fexp prec emax m e l)
  <= Z.max (Zdigits2 m + e) (snd (shr_fexp prec emax m e l)).
Proof.
  intros Hm. unfold shr_fexp, shr.
  pose proof (Zdigits2_nonneg m) as Hd.
  destruct (fexp prec emax (Zdigits2 m + e) - e) as [|p|p] eqn:En;
    cbn [fst snd]; rewrite ?shr_record_of_loc_m.
  - repeat split; [exact Hm|lia|lia].
  - destruct (iter_shr_1_spec p (shr_record_of_loc m l)) as [H D];
      [now rewrite shr_record_of_loc_m|].
    rewrite shr_record_of_loc_m in D.
    repeat split; [exact H|lia|]. rewrite D. lia.
  - repeat split; [exact Hm|lia|lia].
Qed.

Lemma round_nearest_even_spec (m : Z) (l : location) :
  0 <= m ->
  0 <= round_nearest_even m l /\
  Zdigits2 (round_nearest_even m l) <= Zdigits2 m + 1.
Proof.
  intros Hm. pose proof (Zdigits2_succ m Hm) as Hs.
  unfold round_nearest_even.
  destruct l as [|[| |]]; try destruct (Z.even m); split; lia.
Qed.

Lemma fexp_le (k : Z) : k <= 1023 -> fexp prec emax k <= 970.
Proof. unfold fexp, SpecFloat.emin, prec, emax. lia. Qed.

(** rounding a non-negative mantissa never gives NaN, keeps the sign *)
Lemma binary_round_aux_not_nan (s : bool) (m e : Z) (l : location) :
  0 <= m ->
  binary_round_aux prec emax s m e l <> S754_nan.
Proof.
  intros Hm. unfold binary_round_aux.
  destruct (shr_fexp prec emax m e l) as [r1 e1] eqn:E1.
  pose proof (shr_fexp_spec m e l Hm) as (H1 & _). rewrite E1 in H1.
  cbn [fst] in H1.
  destruct (round_nearest_even_spec (shr_m r1) (loc_of_shr_record r1) H1)
    as (H2 & _).
  destruct (shr_fexp prec emax _ e1 loc_Exact) as [r2 e2] eqn:E2.
  pose proof (shr_fexp_spec _ e1 loc_Exact H2) as (H3 & _). rewrite E2 in H3.
  cbn [fst] in H3.
  destruct (shr_m r2) as [|p|p]; [discriminate | | lia].
  destruct (e2 <=? emax - prec); discriminate.
Qed.

Lemma binary_round_aux_finite (s : bool) (m e : Z) (l : location) :
  0 <= m -> e <= 970 -> Zdigits2 m + e <= 1022 ->
  sf_signed s (binary_round_aux prec emax s m e l).
Proof.
  intros Hm He Hd. unfold binary_round_aux.
  destruct (shr_fexp prec emax m e l) as [r1 e1] eqn:E1.
  pose proof (shr_fexp_spec m e l Hm) as (H1 & X1 & D1). rewrite E1 in *.
  cbn [fst snd] in *.
  destruct (round_nearest_even_spec (shr_m r1) (loc_of_shr_record r1) H1)
    as (H2 & D2).
  destruct (shr_fexp prec emax _ e1 loc_Exact) as [r2 e2] eqn:E2.
  pose proof (shr_fexp_spec _ e1 loc_Exact H2) as (H3 & X3 & D3).
  rewrite E2 in *. cbn [fst snd] in *.
  assert (F1 : fexp prec emax (Zdigits2 m + e) <= 970) by (apply fexp_le; lia).
  assert (F2 : fexp prec emax
                 (Zdigits2 (round_nearest_even (shr_m r1)
                              (loc_of_shr_record r1)) + e1) <= 970)
    by (apply fexp_le; lia).
  destruct (shr_m r2) as [|p|p]; [reflexivity | | lia].
  replace (e2 <=? emax - prec) with true; [reflexivity|].
  symmetry. apply Z.leb_le. unfold emax, prec. lia.
Qed.

Lemma sf_signed_finite s x : sf_signed s x -> sf_finite x.
Proof. destruct x; cbn; auto. Qed.

Lemma digits2_pos_iter_xO (m d : positive) :
  Zpos (digits2_pos (Pos.iter xO m d)) = Zpos (digits2_pos m) + Zpos d.
Proof.
  induction d as [|d IH] using Pos.peano_ind.
  - cbn. rewrite Pos2Z.inj_succ. lia.
  - rewrite Pos.iter_succ. cbn [digits2_pos].
    rewrite !Pos2Z.inj_succ, IH. lia.
Qed.

(** an integer below 2^63 as a float: zero or finite, not negative *)
Lemma binary_normalize_small (m : Z) :
  0 <= m < 2 ^ 63 ->
  sf_signed false (binary_normalize prec emax m 0 false).
Proof.
  intros [Hm Hlt]. destruct m as [|p|p]; [reflexivity | | lia].
  cbn [binary_normalize]. unfold binary_round.
  assert (Hd : Zpos (digits2_pos p) <= 63).
  { apply (Zdigits2_bound (Zpos p) 63); lia. }
  unfold shl_align.
  destruct (fexp prec emax (Zpos (digits2_pos p) + 0) - 0) as [|q|q] eqn:Ef.
  - apply binary_round_aux_finite; cbn [Zdigits2]; lia.
  - apply binary_round_aux_finite; cbn [Zdigits2]; lia.
  - assert (Hf : fexp prec emax (Zpos (digits2_pos p) + 0) = - Zpos q) by lia.
    rewrite Hf.
    unfold fexp, SpecFloat.emin, prec, emax in Hf.
    apply binary_round_aux_finite; cbn [Zdigits2];
      rewrite ?digits2_pos_iter_xO; lia.
Qed.

Lemma SFopp_finite (x : spec_float) : sf_finite x -> sf_finite (SFopp x).
Proof. destruct x; cbn; auto. Qed.

Lemma float_of_Z_finite (z : Z) : sf_finite (Prim2SF (float_of_Z z)).
Proof.
  assert (H : forall n, sf_finite (Prim2SF (of_uint63 n))).
  { intros n. rewrite FloatAxioms.of_uint63_spec.
    apply (sf_signed_finite false), binary_normalize_small.
    pose proof (Uint63.to_Z_bounded n) as Hb.
    change wB with (2 ^ 63) in Hb. exact Hb. }
  unfold float_of_Z. destruct (z <? 0).
  - rewrite FloatAxioms.opp_spec. apply SFopp_finite, H.
  - apply H.
Qed.

Lemma float_of_Z_nonneg (z : Z) :
  0 <= z -> sf_signed false (Prim2SF (float_of_Z z)).
Proof.
  intros Hz. unfold float_of_Z.
  destruct (Z.ltb_spec z 0); [lia|].
  rewrite FloatAxioms.of_uint63_spec. apply binary_normalize_small.
  pose proof (Uint63.to_Z_bounded (of_Z z)) as Hb.
  change wB with (2 ^ 63) in Hb. exact Hb.
Qed.

(** the divisor *)
Lemma Prim2SF_1000 :
  Prim2SF 1000%float = S754_finite false 8796093022208000 (-43).
Proof. vm_compute. reflexivity. Qed.

(** a quotient by 1000 is zero or finite, with the sign of the dividend *)
Lemma div_1000_signed (x : PrimFloat.float) (s : bool) :
  sf_signed s (Prim2SF x) ->
  sf_signed s (Prim2SF (PrimFloat.div x 1000%float)).
Proof.
  intros Hx. rewrite FloatAxioms.div_spec, Prim2SF_1000.
  pose proof (Prim2SF_valid x) as Hv.
  destruct (Prim2SF x) as [s'| | |s' mx ex]; cbn in Hx; try contradiction.
  - cbn. subst s'. now destruct s.
  - subst s'. unfold SF64div, SFdiv.
    cbn in Hv. unfold bounded, canonical_mantissa in Hv.
    apply andb_prop in Hv. destruct Hv as [Hc Hb].
    apply Z.eqb_eq in Hc. apply Z.leb_le in Hb.
    unfold fexp, SpecFloat.emin, prec, emax in Hc, Hb.
    set (d1 := Zpos (digits2_pos mx)) in *.
    assert (Hd1 : 1 <= d1 <= 53) by (subst d1; lia).
    unfold SFdiv_core_binary.
    change (Zdigits2 (Zpos 8796093022208000)) with 53.
    change (Zdigits2 (Zpos mx)) with d1.
    set (e' := Z.min (fexp prec emax (d1 + ex - (53 + -43))) (ex - -43)).
    assert (He' : e' <= 961 /\ e' <= ex + 43).
    { subst e'. unfold fexp, SpecFloat.emin, prec, emax. lia. }
    set (sh := ex - -43 - e').
    assert (Hsh : 0 <= sh) by (subst sh; lia).
    set (m' := match sh with
               | Z0 => Zpos mx
               | Zpos _ => Z.shiftl (Zpos mx) sh
               | Zneg _ => 0
               end).
    assert (Hm' : 0 <= m' < 2 ^ (d1 + sh)).
    { assert (E : m' = Zpos mx * 2 ^ sh).
      { subst m'. destruct sh as [|p|p]; [cbn; lia | | lia].
        apply Z.shiftl_mul_pow2. lia. }
      rewrite E. pose proof (digits2_pos_upper mx) as Hu. fold d1 in Hu.
      rewrite Z.pow_add_r by lia.
      assert (0 < 2 ^ sh) by (apply Z.pow_pos_nonneg; lia).
      split; [lia|]. apply Z.mul_lt_mono_pos_r; lia. }
    destruct (Z.div_eucl m' 8796093022208000) as [q r] eqn:Eq.
    assert (Hq : q = m' / 8796093022208000).
    { unfold Z.div. now rewrite Eq. }
    assert (Hq0 : 0 <= q).
    { rewrite Hq. apply Z.div_pos; lia. }
    assert (Hqd : Zdigits2 q + e' <= 1022).
    { destruct (Z_lt_le_dec (d1 + sh) 52) as [Hs|Hs].
      - assert (m' < 2 ^ 52).
        { eapply Z.lt_le_trans; [apply Hm'|].
          apply Z.pow_le_mono_r; lia. }
        assert (Hz : q = 0) by (rewrite Hq; apply Z.div_small; lia).
        rewrite Hz. change (Zdigits2 0) with 0. lia.
      - assert (Hlt : q < 2 ^ (d1 + sh - 52)).
        { rewrite Hq. apply Z.div_lt_upper_bound; [lia|].
          eapply Z.lt_le_trans; [apply Hm'|].
          replace (d1 + sh) with (52 + (d1 + sh - 52)) at 1 by lia.
          rewrite Z.pow_add_r by lia.
          apply Z.mul_le_mono_nonneg_r; [|lia].
          apply Z.pow_nonneg. lia. }
        pose proof (Zdigits2_bound q (d1 + sh - 52) Hq0 ltac:(lia) Hlt).
        subst sh. lia. }
    replace (xorb s false) with s by now destruct s.
    apply binary_round_aux_finite; lia.
Qed.

Lemma binary_normalize_not_nan (m e : Z) (sz : bool) :
  binary_normalize prec emax m e sz <> S754_nan.
Proof.
  destruct m as [|p|p]; cbn [binary_normalize]; [discriminate | |];
    unfold binary_round;
    destruct (shl_align _ _ _) as [mz ez];
    apply binary_round_aux_not_nan; lia.
Qed.

(** a difference of finite numbers is a number *)
Lemma SFsub_not_nan (x y : spec_float) :
  sf_finite x -> sf_finite y -> SF64sub x y <> S754_nan.
Proof.
  unfold SF64sub, SFsub.
  destruct x as [sx| | |sx mx ex], y as [sy| | |sy my ey]; cbn;
    try contradiction; intros _ _.
  - destruct sx, sy; discriminate.
  - discriminate.
  - discriminate.
  - apply binary_normalize_not_nan.
Qed.

Lemma not_nan_is_nan (x : PrimFloat.float) :
  Prim2SF x <> S754_nan -> PrimFloat.is_nan x = false.
Proof.
  unfold Prim2SF. destruct (PrimFloat.is_nan x); [congruence | reflexivity].
Qed.

Lemma sub_of_finite_not_nan (a b : PrimFloat.float) :
  sf_finite (Prim2SF a) -> sf_finite (Prim2SF b) ->
  PrimFloat.is_nan (PrimFloat.sub a b) = false.
Proof.
  intros Ha Hb. apply not_nan_is_nan. rewrite FloatAxioms.sub_spec.
  now apply SFsub_not_nan.
Qed.

(** order *)
Lemma SFcompare_refl (x : spec_float) :
  x <> S754_nan -> SFcompare x x = Some Eq.
Proof.
  destruct x as [s|s| |s m e]; cbn; try congruence; intros _.
  - now destruct s.
  - destruct s; rewrite Z.compare_refl, Pos.compare_cont_refl; reflexivity.
Qed.

Lemma SFcompare_antisym (x y : spec_float) :
  SFcompare y x =
  match SFcompare x y with Some c => Some (CompOpp c) | None => None end.
Proof.
  assert (P : forall p q, Pos.compare_cont Eq q p
                          = CompOpp (Pos.compare_cont Eq p q)).
  { intros p q. now rewrite (Pos.compare_cont_antisym p q Eq). }
  destruct x as [sx|sx| |sx mx ex], y as [sy|sy| |sy my ey]; cbn;
    try reflexivity; try (destruct sx; reflexivity);
    try (destruct sy; reflexivity);
    try (destruct sx, sy; reflexivity).
  destruct sx, sy; try reflexivity;
    rewrite (Z.compare_antisym ex ey), (P mx my);
    destruct (ex ?= ey); cbn; try reflexivity;
    destruct (Pos.compare_cont Eq mx my); reflexivity.
Qed.

Lemma is_nan_false (x : PrimFloat.float) :
  PrimFloat.is_nan x = false -> Prim2SF x <> S754_nan.
Proof.
  intros Hx. unfold Prim2SF. rewrite Hx.
  destruct (PrimFloat.is_zero x); [discriminate|].
  destruct (PrimFloat.is_infinity x); [discriminate|].
  destruct (Z.frexp x). destruct (shr_fexp _ _ _ _ _) as [r e].
  destruct (shr_m r); discriminate.
Qed.

Lemma leb_refl (x : PrimFloat.float) :
  PrimFloat.is_nan x = false -> PrimFloat.leb x x = true.
Proof.
  intros Hx. rewrite FloatAxioms.leb_spec. unfold SFleb.
  rewrite SFcompare_refl; [reflexivity | now apply is_nan_false].
Qed.

Lemma leb_total (x y : PrimFloat.float) :
  PrimFloat.is_nan x = false -> PrimFloat.is_nan y = false ->
  PrimFloat.leb x y = false -> PrimFloat.leb y x = true.
Proof.
  intros Hx Hy. rewrite !FloatAxioms.leb_spec. unfold SFleb.
  rewrite (SFcompare_antisym (Prim2SF x) (Prim2SF y)).
  pose proof (is_nan_false x Hx) as Nx.
  pose proof (is_nan_false y Hy) as Ny.
  destruct (SFcompare (Prim2SF x) (Prim2SF y)) as [[| |]|] eqn:E;
    cbn; try congruence. intros _. exfalso.
  destruct (Prim2SF x), (Prim2SF y); cbn in E; congruence.
Qed.

Lemma sf_finite_signed (x : spec_float) :
  sf_finite x -> exists s, sf_signed s x.
Proof. destruct x as [s|s| |s m e]; cbn; try contradiction; eauto. Qed.

(** A time in seconds, [x / 1000] for an integer [x], is zero or finite. *)
Lemma of_ms_finite (z : Z) :
  sf_finite (Prim2SF (of_ms (JsNumber := binary64) z)).
Proof.
  cbn [of_ms binary64].
  destruct (sf_finite_signed _ (float_of_Z_finite z)) as [s Hs].
  apply (sf_signed_finite s), div_1000_signed, Hs.
Qed.

(** It is not negative when [x] is not. *)
Lemma of_ms_nonneg (z : Z) :
  0 <= z -> sf_signed false (Prim2SF (of_ms (JsNumber := binary64) z)).
Proof.
  intros Hz. cbn [of_ms binary64].
  apply div_1000_signed, float_of_Z_nonneg, Hz.
Qed.

Lemma of_ms_not_nan (z : Z) :
  PrimFloat.is_nan (of_ms (JsNumber := binary64) z) = false.
Proof.
  apply not_nan_is_nan. pose proof (of_ms_finite z) as H.
  intros E. rewrite E in H. exact H.
Qed.

(** [Math.max(0.001, x)] for a number [x] is the larger of the two. *)
Lemma float_max_larger (x : PrimFloat.float) :
  PrimFloat.is_nan x = false ->
  larger_of (float_max 0.001%float x) 0.001%float x.
Proof.
  intros Hx. unfold larger_of, float_max.
  change (PrimFloat.is_nan 0.001%float) with false. rewrite Hx. cbn [orb].
  destruct (PrimFloat.leb 0.001%float x) eqn:E1.
  - destruct (PrimFloat.leb x 0.001%float) eqn:E2.
    + change (classify 0.001%float) with PNormal. cbv iota.
      repeat split; auto.
    + repeat split; auto. now apply leb_refl.
  - repeat split; auto.
    apply leb_total; auto.
Qed.

(** The duration the encoder gives a note between two times in seconds. *)
Lemma duration_larger (a b : Z) :
  larger_of
    (Math_max (JsNumber := binary64) one_ms (minus (of_ms a) (of_ms b)))
    0.001%float
    (PrimFloat.sub (of_ms (JsNumber := binary64) a)
                   (of_ms (JsNumber := binary64) b)).
Proof.
  cbn [Math_max one_ms minus binary64].
  apply float_max_larger, sub_of_finite_not_nan; apply of_ms_finite.
Qed.

(** Zero is at or below a number that is not negative. *)
Lemma leb_0_nonneg (x : PrimFloat.float) :
  sf_signed false (Prim2SF x) -> PrimFloat.leb 0%float x = true.
Proof.
  intros H. rewrite FloatAxioms.leb_spec.
  change (Prim2SF 0%float) with (S754_zero false).
  destruct (Prim2SF x) as [s|s| |s m e]; cbn in H; try contradiction;
    subst s; reflexivity.
Qed.
(** ** The quotient by 1000 keeps the order *)

Lemma Zdigits2_eq (m k : Z) :
  0 < k -> 2 ^ (k - 1) <= m < 2 ^ k -> Zdigits2 m = k.
Proof.
  intros Hk [Hlo Hhi].
  assert (Hm : 0 < m).
  { assert (0 < 2 ^ (k - 1)) by (apply Z.pow_pos_nonneg; lia). lia. }
  pose proof (Zdigits2_bound m k ltac:(lia) ltac:(lia) Hhi) as Hub.
  destruct m as [|p|p]; try lia. cbn [Zdigits2] in *.
  destruct (Z_lt_le_dec (Zpos (digits2_pos p)) k) as [H|H]; [|lia].
  pose proof (digits2_pos_upper p) as Hu.
  assert (2 ^ Zpos (digits2_pos p) <= 2 ^ (k - 1))
    by (apply Z.pow_le_mono_r; lia).
  lia.
Qed.

Lemma loc_of_shr_record_of_loc (m : Z) (l : location) :
  loc_of_shr_record (shr_record_of_loc m l) = l.
Proof. destruct l as [|[| |]]; reflexivity. Qed.

Lemma binary_round_aux_53 (m e : Z) (l : location) :
  2 ^ 52 <= m < 2 ^ 53 -> -1074 <= e <= 971 ->
  round_nearest_even m l < 2 ^ 53 ->
  binary_round_aux prec emax false m e l =
  S754_finite false (Z.to_pos (round_nearest_even m l)) e.
Proof.
  intros Hm He Hr.
  assert (Hlo : m <= round_nearest_even m l).
  { unfold round_nearest_even. destruct l as [|[| |]];
      try destruct (Z.even m); lia. }
  unfold binary_round_aux, shr_fexp.
  rewrite (Zdigits2_eq m 53) by lia.
  replace (fexp prec emax (53 + e) - e) with 0
    by (unfold fexp, SpecFloat.emin, prec, emax; lia).
  cbn [shr]. rewrite shr_record_of_loc_m, loc_of_shr_record_of_loc.
  rewrite (Zdigits2_eq (round_nearest_even m l) 53) by lia.
  replace (fexp prec emax (53 + e) - e) with 0
    by (unfold fexp, SpecFloat.emin, prec, emax; lia).
  cbn [shr]. rewrite shr_record_of_loc_m.
  destruct (round_nearest_even m l) as [|p|p] eqn:E; try lia.
  replace (e <=? emax - prec) with true
    by (symmetry; apply Z.leb_le; unfold emax, prec; lia).
  reflexivity.
Qed.

Lemma shr_1_of_loc (m : Z) (l : location) :
  2 <= m ->
  shr_1 (shr_record_of_loc m l) =
  shr_record_of_loc (m / 2) (loc_half (Z.odd m) l).
Proof.
  intros Hm. destruct m as [|p|p]; try lia.
  destruct p as [p|p|]; try lia.
  - replace (Zpos p~1 / 2) with (Zpos p)
      by (apply Z.div_unique with 1; lia).
    destruct l as [|[| |]]; reflexivity.
  - replace (Zpos p~0 / 2) with (Zpos p)
      by (apply Z.div_unique with 0; lia).
    destruct l as [|[| |]]; reflexivity.
Qed.

Lemma binary_round_aux_54 (m e : Z) (l : location) :
  2 ^ 53 <= m < 2 ^ 54 -> -1075 <= e <= 970 ->
  round_nearest_even (m / 2) (loc_half (Z.odd m) l) < 2 ^ 53 ->
  binary_round_aux prec emax false m e l =
  S754_finite false
    (Z.to_pos (round_nearest_even (m / 2) (loc_half (Z.odd m) l))) (e + 1).
Proof.
  intros Hm He Hr.
  set (h := m / 2) in *. set (l' := loc_half (Z.odd m) l) in *.
  assert (Hh : 2 ^ 52 <= h < 2 ^ 53).
  { subst h. change (2 ^ 53) with (2 * 2 ^ 52) in Hm.
    change (2 ^ 54) with (2 * 2 ^ 53) in Hm.
    split; [apply Z.div_le_lower_bound; lia
           |apply Z.div_lt_upper_bound; lia]. }
  assert (Hlo : h <= round_nearest_even h l').
  { unfold round_nearest_even. destruct l' as [|[| |]];
      try destruct (Z.even h); lia. }
  unfold binary_round_aux, shr_fexp.
  rewrite (Zdigits2_eq m 54) by lia.
  replace (fexp prec emax (54 + e) - e) with 1
    by (unfold fexp, SpecFloat.emin, prec, emax; lia).
  cbn [shr iter_pos]. rewrite shr_1_of_loc by lia. fold h l'.
  rewrite shr_record_of_loc_m, loc_of_shr_record_of_loc.
  rewrite (Zdigits2_eq (round_nearest_even h l') 53) by lia.
  replace (fexp prec emax (53 + (e + 1)) - (e + 1)) with 0
    by (unfold fexp, SpecFloat.emin, prec, emax; lia).
  cbn [shr]. rewrite shr_record_of_loc_m.
  destruct (round_nearest_even h l') as [|p|p] eqn:E; try lia.
  replace (e + 1 <=? emax - prec) with true
    by (symmetry; apply Z.leb_le; unfold emax, prec; lia).
  reflexivity.
Qed.

Lemma rne_div_eq (T : Z) :
  let q := T / 1000 in
  let r := T mod 1000 in
  rne_div T =
  round_nearest_even q
    (if r =? 0 then loc_Exact else loc_Inexact (2 * r ?= 1000)).
Proof.
  intros q r. unfold rne_div. fold q r.
  pose proof (Z.mod_pos_bound T 1000 ltac:(lia)) as Hr. fold r in Hr.
  destruct (Z.eqb_spec r 0) as [E0|E0].
  - rewrite E0. reflexivity.
  - destruct (Z.compare_spec (2 * r) 1000) as [E|E|E]; cbn [round_nearest_even].
    + replace r with 500 by lia. cbn.
      rewrite <- Z.negb_even. destruct (Z.even q); reflexivity.
    + replace (500 <? r) with false by (symmetry; apply Z.ltb_ge; lia).
      replace (r =? 500) with false by (symmetry; apply Z.eqb_neq; lia).
      reflexivity.
    + replace (500 <? r) with true by (symmetry; apply Z.ltb_lt; lia).
      reflexivity.
Qed.

Lemma rne_div_half (T : Z) :
  let q := (2 * T) / 1000 in
  let r := (2 * T) mod 1000 in
  rne_div T =
  round_nearest_even (q / 2)
    (loc_half (Z.odd q)
       (if r =? 0 then loc_Exact else loc_Inexact (2 * r ?= 1000))).
Proof.
  intros q r. unfold rne_div.
  pose proof (Z.div_mod (2 * T) 1000 ltac:(lia)) as H1.
  pose proof (Z.mod_pos_bound (2 * T) 1000 ltac:(lia)) as H2.
  fold q r in H1, H2.
  pose proof (Z.div_mod T 1000 ltac:(lia)) as H3.
  pose proof (Z.mod_pos_bound T 1000 ltac:(lia)) as H4.
  pose proof (Z.div_mod q 2 ltac:(lia)) as H5.
  pose proof (Z.mod_pos_bound q 2 ltac:(lia)) as H6.
  rewrite Zmod_odd in H5, H6.
  set (Q := T / 1000) in *. set (R := T mod 1000) in *.
  set (h := q / 2) in *.
  destruct (Z.odd q) eqn:Eo.
  - assert (Q = h /\ R = 500 + r / 2 /\ r = 2 * (r / 2)).
    { pose proof (Z.div_mod r 2 ltac:(lia)).
      pose proof (Z.mod_pos_bound r 2 ltac:(lia)). lia. }
    destruct H as (-> & HR & Hr).
    destruct (Z.eqb_spec r 0) as [E0|E0]; cbn [loc_half round_nearest_even].
    + replace R with 500 by lia. cbn.
      rewrite <- Z.negb_even. destruct (Z.even h); reflexivity.
    + replace (500 <? R) with true by (symmetry; apply Z.ltb_lt; lia).
      destruct (2 * r ?= 1000); reflexivity.
  - assert (Q = h /\ R = r / 2 /\ r = 2 * (r / 2)).
    { pose proof (Z.div_mod r 2 ltac:(lia)).
      pose proof (Z.mod_pos_bound r 2 ltac:(lia)). lia. }
    destruct H as (-> & HR & Hr).
    replace (500 <? R) with false by (symmetry; apply Z.ltb_ge; lia).
    replace (R =? 500) with false by (symmetry; apply Z.eqb_neq; lia).
    cbn [orb andb].
    destruct (Z.eqb_spec r 0) as [E0|E0]; cbn [loc_half round_nearest_even].
    + reflexivity.
    + destruct (2 * r ?= 1000); reflexivity.
Qed.

Lemma rne_div_near (T : Z) :
  2 * T - 1000 <= 2000 * rne_div T <= 2 * T + 1000.
Proof.
  unfold rne_div.
  pose proof (Z.div_mod T 1000 ltac:(lia)) as H1.
  pose proof (Z.mod_pos_bound T 1000 ltac:(lia)) as H2.
  destruct (Z.ltb_spec 500 (T mod 1000)); cbn [orb]; [lia|].
  destruct (Z.eqb_spec (T mod 1000) 500); cbn [andb]; [|lia].
  destruct (Z.odd (T / 1000)); lia.
Qed.

Lemma rne_div_mono (T1 T2 : Z) : T1 <= T2 -> rne_div T1 <= rne_div T2.
Proof.
  intros H. destruct (Z.eq_dec T1 T2) as [->|Hne]; [lia|].
  pose proof (rne_div_near T1). pose proof (rne_div_near T2). lia.
Qed.

Lemma quot_m_normal (m : Z) :
  2 ^ 52 <= m < 2 ^ 53 -> 2 ^ 52 <= quot_m m < 2 ^ 53.
Proof.
  intros Hm. unfold quot_m, m1000.
  change (2 ^ 52) with 4503599627370496 in *.
  change (2 ^ 53) with 9007199254740992 in *.
  destruct (Z.ltb_spec m 8796093022208000).
  - pose proof (rne_div_near (m * 1024)). lia.
  - pose proof (rne_div_near (m * 512)). lia.
Qed.

Lemma quot_lt (m e : Z) :
  m < m1000 -> quot_m m = rne_div (m * 1024) /\ quot_e m e = e - 10.
Proof.
  intros H. unfold quot_m, quot_e.
  apply Z.ltb_lt in H. now rewrite H.
Qed.

Lemma quot_ge (m e : Z) :
  m1000 <= m -> quot_m m = rne_div (m * 512) /\ quot_e m e = e - 9.
Proof.
  intros H. unfold quot_m, quot_e.
  apply Z.ltb_ge in H. now rewrite H.
Qed.

Lemma div_eucl_1000 (m : Z) :
  0 <= m ->
  Z.div_eucl (m * 2 ^ 53) 8796093022208000 =
  (m * 1024 / 1000, 8796093022208 * ((m * 1024) mod 1000)).
Proof.
  intros Hm.
  destruct (Z.div_eucl (m * 2 ^ 53) 8796093022208000) as [q r] eqn:Eq.
  pose proof (Z_div_mod (m * 2 ^ 53) 8796093022208000 ltac:(lia)) as H.
  rewrite Eq in H. destruct H as [H1 H2].
  pose proof (Z.div_mod (m * 1024) 1000 ltac:(lia)) as H3.
  pose proof (Z.mod_pos_bound (m * 1024) 1000 ltac:(lia)) as H4.
  change (2 ^ 53) with 9007199254740992 in H1.
  assert (q = m * 1024 / 1000 /\
          r = 8796093022208 * ((m * 1024) mod 1000)) as [-> ->];
    [|reflexivity].
  apply (Z.div_mod_unique 8796093022208000); [lia | left; lia | lia].
Qed.

Lemma location_1000 (r : Z) :
  0 <= r < 1000 ->
  new_location 8796093022208000 (8796093022208 * r) =
  if r =? 0 then loc_Exact else loc_Inexact (2 * r ?= 1000).
Proof.
  intros Hr. unfold new_location.
  change (Z.even 8796093022208000) with true. cbv iota.
  unfold new_location_even.
  destruct (Z.eqb_spec r 0) as [E|E].
  - rewrite E. reflexivity.
  - replace (8796093022208 * r =? 0) with false
      by (symmetry; apply Z.eqb_neq; lia).
    f_equal.
    destruct (Z.compare_spec (2 * r) 1000);
      [apply Z.compare_eq_iff | apply Z.compare_lt_iff
      | apply Z.compare_gt_iff]; lia.
Qed.

Lemma SFdiv_1000_normal (mx : positive) (ex : Z) :
  2 ^ 52 <= Zpos mx < 2 ^ 53 -> -1000 <= ex <= 900 ->
  SFdiv prec emax (S754_finite false mx ex)
        (S754_finite false 8796093022208000 (-43)) =
  S754_finite false (Z.to_pos (quot_m (Zpos mx))) (quot_e (Zpos mx) ex).
Proof.
  intros Hm He.
  pose proof (quot_m_normal (Zpos mx) Hm) as Hqm.
  unfold SFdiv, SFdiv_core_binary.
  change (Zdigits2 (Zpos 8796093022208000)) with 53.
  rewrite (Zdigits2_eq (Zpos mx) 53) by lia.
  replace (Z.min (fexp prec emax (53 + ex - (53 + -43))) (ex - -43))
    with (ex - 10) by (unfold fexp, SpecFloat.emin, prec, emax; lia).
  replace (ex - -43 - (ex - 10)) with 53 by lia.
  cbv beta iota.
  rewrite Z.shiftl_mul_pow2 by lia.
  rewrite div_eucl_1000 by lia.
  set (T := Zpos mx * 1024) in *.
  pose proof (Z.mod_pos_bound T 1000 ltac:(lia)) as Hr'.
  pose proof (Z.div_mod T 1000 ltac:(lia)) as HT.
  rewrite location_1000 by exact Hr'.
  cbn [xorb].
  change (2 ^ 52) with 4503599627370496 in Hm, Hqm.
  change (2 ^ 53) with 9007199254740992 in Hm, Hqm.
  destruct (Z_lt_le_dec (Zpos mx) m1000) as [Hlt|Hge].
  - destruct (quot_lt (Zpos mx) ex Hlt) as [E1 E2].
    rewrite E1, E2 in *. clear E1 E2. fold T in Hqm |- *.
    rewrite (rne_div_eq T) in Hqm |- *. cbv zeta in Hqm |- *.
    unfold m1000 in Hlt.
    rewrite binary_round_aux_53; [reflexivity | | lia | ].
    + change (2 ^ 52) with 4503599627370496.
      change (2 ^ 53) with 9007199254740992. subst T. lia.
    + change (2 ^ 53) with 9007199254740992. lia.
  - destruct (quot_ge (Zpos mx) ex Hge) as [E1 E2].
    rewrite E1, E2 in *. clear E1 E2.
    assert (ET : T = 2 * (Zpos mx * 512)) by (subst T; lia).
    rewrite (rne_div_half (Zpos mx * 512)) in Hqm |- *.
    cbv zeta in Hqm |- *. rewrite <- ET in Hqm |- *.
    unfold m1000 in Hge.
    rewrite binary_round_aux_54; [f_equal; lia | | lia | ].
    + change (2 ^ 54) with 18014398509481984.
      change (2 ^ 53) with 9007199254740992. subst T. lia.
    + change (2 ^ 53) with 9007199254740992. lia.
Qed.

Lemma iter_xO_pow (p k : positive) :
  Zpos (Pos.iter xO p k) = Zpos p * 2 ^ Zpos k.
Proof.
  induction k as [|k IH] using Pos.peano_ind.
  - cbn. lia.
  - rewrite Pos.iter_succ, Pos2Z.inj_succ, Z.pow_succ_r by lia.
    rewrite Pos2Z.inj_xO, IH. lia.
Qed.

(** An integer below 2^53 is a binary64 number as it stands: its digits
    moved up to fill the 53 bits of the mantissa. *)
Lemma float_of_Z_normal (z : Z) :
  0 < z < 2 ^ 53 ->
  exists mx ex,
    Prim2SF (float_of_Z z) = S754_finite false mx ex /\
    2 ^ 52 <= Zpos mx < 2 ^ 53 /\
    -52 <= ex <= 0 /\
    Zpos mx = z * 2 ^ (- ex).
Proof.
  intros [Hz Hlt]. unfold float_of_Z.
  destruct (Z.ltb_spec z 0); [lia|].
  rewrite FloatAxioms.of_uint63_spec, Uint63.of_Z_spec.
  rewrite Z.mod_small
    by (change wB with (2 ^ 63);
        assert (2 ^ 53 <= 2 ^ 63) by (apply Z.pow_le_mono_r; lia); lia).
  destruct z as [|p|p]; try lia.
  cbn [binary_normalize]. unfold binary_round, shl_align.
  set (d := Zpos (digits2_pos p)).
  assert (Hd : 1 <= d <= 53).
  { subst d. split; [lia|].
    apply (Zdigits2_bound (Zpos p) 53); lia. }
  pose proof (digits2_pos_lower p) as Hlo. fold d in Hlo.
  pose proof (digits2_pos_upper p) as Hup. fold d in Hup.
  replace (fexp prec emax (d + 0) - 0) with (d - 53)
    by (unfold fexp, SpecFloat.emin, prec, emax; lia).
  replace (fexp prec emax (d + 0)) with (d - 53)
    by (unfold fexp, SpecFloat.emin, prec, emax; lia).
  destruct (d - 53) as [|k|k] eqn:Ek; try lia.
  - assert (d = 53) by lia.
    replace (d - 1) with 52 in Hlo by lia. replace d with 53 in Hup by lia.
    rewrite binary_round_aux_53; cbn [round_nearest_even]; try lia.
    exists p, 0. cbn [Z.to_pos]. repeat split; try lia.
  - assert (Hk : Zpos k = 53 - d) by lia.
    assert (Hm : 2 ^ 52 <= Zpos (Pos.iter xO p k) < 2 ^ 53).
    { rewrite iter_xO_pow, Hk.
      assert (0 < 2 ^ (53 - d)) by (apply Z.pow_pos_nonneg; lia).
      assert (E52 : 2 ^ 52 = 2 ^ (d - 1) * 2 ^ (53 - d)).
      { rewrite <- Z.pow_add_r by lia. f_equal. lia. }
      assert (E53 : 2 ^ 53 = 2 ^ d * 2 ^ (53 - d)).
      { rewrite <- Z.pow_add_r by lia. f_equal. lia. }
      rewrite E52, E53. split.
      - apply Z.mul_le_mono_nonneg_r; lia.
      - apply Z.mul_lt_mono_pos_r; lia. }
    rewrite binary_round_aux_53; cbn [round_nearest_even]; try lia.
    exists (Pos.iter xO p k), (Zneg k). cbn [Z.to_pos].
    repeat split; try lia.
    rewrite iter_xO_pow. reflexivity.
Qed.

(** Larger integers have larger mantissas or larger exponents. *)
Lemma normal_mono (a b ma ea mb eb : Z) :
  0 < a <= b ->
  ea <= 0 -> eb <= 0 ->
  ma = a * 2 ^ (- ea) -> mb = b * 2 ^ (- eb) ->
  2 ^ 52 <= ma < 2 ^ 53 -> 2 ^ 52 <= mb < 2 ^ 53 ->
  ea < eb \/ (ea = eb /\ ma <= mb).
Proof.
  intros Hab Hea Heb Ea Eb Hma Hmb.
  destruct (Z_lt_le_dec ea eb) as [H|H]; [now left|right].
  assert (Hp : 0 < 2 ^ (- ea)) by (apply Z.pow_pos_nonneg; lia).
  destruct (Z.eq_dec ea eb) as [E|E].
  - split; [exact E|]. subst ma mb. rewrite E.
    apply Z.mul_le_mono_nonneg_r; [|lia]. apply Z.pow_nonneg. lia.
  - exfalso.
    assert (E2 : 2 ^ (- eb) = 2 ^ (- ea) * 2 ^ (ea - eb)).
    { rewrite <- Z.pow_add_r by lia. f_equal. lia. }
    assert (H2 : 2 ^ 1 <= 2 ^ (ea - eb)) by (apply Z.pow_le_mono_r; lia).
    change (2 ^ 1) with 2 in H2.
    change (2 ^ 53) with (2 * 2 ^ 52) in *.
    assert (2 * ma <= mb); [|lia].
    subst ma mb. rewrite E2. nia.
Qed.

(** The quotient by 1000 keeps the order of normal numbers. *)
Lemma quot_mono (ma ea mb eb : Z) :
  2 ^ 52 <= ma < 2 ^ 53 -> 2 ^ 52 <= mb < 2 ^ 53 ->
  ea < eb \/ (ea = eb /\ ma <= mb) ->
  quot_e ma ea < quot_e mb eb \/
  (quot_e ma ea = quot_e mb eb /\ quot_m ma <= quot_m mb).
Proof.
  intros Ha Hb H.
  change (2 ^ 52) with 4503599627370496 in *.
  change (2 ^ 53) with 9007199254740992 in *.
  destruct (Z_lt_le_dec ma m1000) as [La|La];
    [destruct (quot_lt ma ea La) as [-> ->]
    |destruct (quot_ge ma ea La) as [-> ->]];
    (destruct (Z_lt_le_dec mb m1000) as [Lb|Lb];
     [destruct (quot_lt mb eb Lb) as [-> ->]
     |destruct (quot_ge mb eb Lb) as [-> ->]]);
    unfold m1000 in *.
  - destruct H as [H|[H1 H2]]; [left; lia|right].
    split; [lia|]. apply rne_div_mono. lia.
  - left. lia.
  - destruct H as [H|[H1 H2]]; [|lia].
    destruct (Z.eq_dec (ea + 1) eb) as [E|E]; [right|left; lia].
    split; [lia|]. apply rne_div_mono. lia.
  - destruct H as [H|[H1 H2]]; [left; lia|right].
    split; [lia|]. apply rne_div_mono. lia.
Qed.

Lemma Prim2SF_of_ms_0 :
  Prim2SF (of_ms (JsNumber := binary64) 0) = S754_zero false.
Proof. vm_compute. reflexivity. Qed.

(** The time in seconds of an offset of at least 1 ms below 2^53 ms. *)
Lemma Prim2SF_of_ms (z : Z) :
  0 < z < 2 ^ 53 ->
  exists m e,
    2 ^ 52 <= m < 2 ^ 53 /\ -52 <= e <= 0 /\ m = z * 2 ^ (- e) /\
    Prim2SF (of_ms (JsNumber := binary64) z) =
      S754_finite false (Z.to_pos (quot_m m)) (quot_e m e).
Proof.
  intros Hz. destruct (float_of_Z_normal z Hz) as (mx & ex & E & Hm & He & Em).
  exists (Zpos mx), ex. split; [exact Hm|]. split; [exact He|].
  split; [exact Em|].
  cbn [of_ms binary64].
  rewrite FloatAxioms.div_spec, E, Prim2SF_1000.
  apply SFdiv_1000_normal; lia.
Qed.

(** Dividing by 1000 in binary64 keeps the order of the offsets. *)
Lemma of_ms_mono (a b : Z) :
  0 <= a <= b -> b < 2 ^ 53 ->
  PrimFloat.leb (of_ms (JsNumber := binary64) a)
                (of_ms (JsNumber := binary64) b) = true.
Proof.
  intros Hab Hb. rewrite FloatAxioms.leb_spec.
  destruct (Z.eq_dec a 0) as [->|Ha].
  - rewrite Prim2SF_of_ms_0.
    pose proof (of_ms_nonneg b ltac:(lia)) as Hs.
    destruct (Prim2SF (of_ms (JsNumber := binary64) b)) as [s|s| |s m e];
      cbn in Hs;
      try contradiction; subst s; reflexivity.
  - destruct (Prim2SF_of_ms a ltac:(lia)) as (ma & ea & Hma & Hea & Ema & ->).
    destruct (Prim2SF_of_ms b ltac:(lia)) as (mb & eb & Hmb & Heb & Emb & ->).
    pose proof (normal_mono a b ma ea mb eb ltac:(lia) ltac:(lia) ltac:(lia)
                  Ema Emb Hma Hmb) as Hn.
    pose proof (quot_mono ma ea mb eb Hma Hmb Hn) as Hq.
    pose proof (quot_m_normal ma Hma) as Qa.
    pose proof (quot_m_normal mb Hmb) as Qb.
    unfold SFleb, SFcompare.
    destruct Hq as [Hq|[Hq1 Hq2]].
    + apply Z.compare_lt_iff in Hq. rewrite Hq. reflexivity.
    + rewrite Hq1, Z.compare_refl.
      change (Pos.compare_cont Eq) with Pos.compare.
      change (2 ^ 52) with 4503599627370496 in Qa, Qb.
      rewrite <- Z2Pos.inj_compare by lia.
      destruct (Z.compare_spec (quot_m ma) (quot_m mb)); [reflexivity..|lia].
Qed.

End Binary64Facts.

(** * Durations and closing times in binary64 *)

Section TimingFacts.
Context {N : JsNumber}.
Variable t0 : Z.
Variable log : list Recorded.

Lemma closeNote_well_timed (k : JsMap.key) (info : NoteInfo.t)
      (rc : Recorded) (c : Z) (track : Track) :
  set_by_log t0 log (k, info) ->
  In rc log ->
  Forall (well_timed t0 log) (notes track) ->
  Forall (well_timed t0 log)
         (notes (track ++ [closeNote k info (of_ms (timestamp rc - t0)) c])).
Proof.
  intros (ro & Hin & _ & _ & Hs & _) Hrc Ht.
  rewrite notes_app. apply Forall_app. split; [exact Ht|].
  constructor; [|constructor]. cbn in Hs.
  exists ro, rc. cbn. rewrite Hs. auto.
Qed.

Lemma well_timed_step (acc : Track * ActiveNotes) (e : Recorded) :
  In e log ->
  Forall (set_by_log t0 log) (snd acc) ->
  Forall (well_timed t0 log) (notes (fst acc)) ->
  Forall (well_timed t0 log) (notes (fst (encodeMessage t0 acc e))).
Proof.
  destruct acc as [track active]. cbn [fst snd]. intros Hin Ha Ht.
  assert (Hget : forall info, JsMap.get (note (msg e)) active = Some info ->
                              set_by_log t0 log (note (msg e), info)).
  { intros info Hg. apply get_In in Hg.
    rewrite Forall_forall in Ha. now apply Ha. }
  destruct (opens e) eqn:Eo; [|destruct (releases e) eqn:Er].
  - rewrite (encodeMessage_opens t0 track active e Eo). cbn zeta.
    destruct (JsMap.get (note (msg e)) active) as [info|] eqn:Hg;
      cbn [fst]; [|exact Ht].
    apply closeNote_well_timed; auto.
  - rewrite (encodeMessage_releases t0 track active e Eo Er). cbn zeta.
    destruct (JsMap.get (note (msg e)) active) as [info|] eqn:Hg;
      cbn [fst]; [|exact Ht].
    apply closeNote_well_timed; auto.
  - destruct (encodeMessage_other t0 track active e Eo Er) as [_ Hn].
    now rewrite Hn.
Qed.

Lemma well_timed_fold (l : list Recorded) : forall acc,
  incl l log ->
  Forall (from_log t0 log) (notes (fst acc)) ->
  Forall (set_by_log t0 log) (snd acc) ->
  Forall (well_timed t0 log) (notes (fst acc)) ->
  Forall (well_timed t0 log)
         (notes (fst (fold_left (encodeMessage t0) l acc))) /\
  Forall (set_by_log t0 log) (snd (fold_left (encodeMessage t0) l acc)).
Proof.
  induction l as [|e l IH]; intros acc Hi Hf Ha Hw; cbn [fold_left];
    [auto|].
  assert (He : In e log) by (apply Hi; now left).
  destruct (provenance_step t0 log acc e He (conj Hf Ha)) as [Hf' Ha'].
  apply IH; auto.
  - intros x Hx. apply Hi. now right.
  - now apply well_timed_step.
Qed.
End TimingFacts.

Lemma last_In {A : Type} (a : A) (l : list A) : In (last (a :: l) a) (a :: l).
Proof.
  revert a. induction l as [|b l IH]; intros a; [now left|].
  change (last (a :: b :: l) a) with (last (b :: l) a).
  right. destruct l as [|c l]; [now left|].
  specialize (IH b).
  change (last (b :: c :: l) a) with (last (c :: l) a).
  change (last (b :: c :: l) b) with (last (c :: l) b) in IH.
  replace (last (c :: l) a) with (last (c :: l) b); [exact IH|].
  clear. revert c. induction l as [|d l IH]; intros c; [reflexivity|].
  exact (IH d).
Qed.

(** The timing of the track of a log that is not empty, and of what is
    left active after its last message. *)
Lemma exportMIDI_timing `{JsNumber} (first : Recorded)
      (rest : list Recorded) :
  let log := first :: rest in
  let t0 := timestamp first in
  exists track,
    exportMIDI log = Some track /\
    Forall (well_timed t0 log) (notes track) /\
    Forall (set_by_log t0 log) (snd (encodeLoop t0 log)).
Proof.
  intros log t0. unfold log at 1. rewrite exportMIDI_cons.
  fold log t0. eexists. split; [reflexivity|].
  destruct (well_timed_fold t0 log log ([], []) (incl_refl _))
    as [Hw Ha]; [constructor | constructor | constructor |].
  fold (encodeLoop t0 log) in Hw, Ha.
  split; [|exact Ha].
  rewrite notes_app. apply Forall_app. split; [exact Hw|].
  rewrite notes_closeRemaining. apply Forall_forall.
  intros n Hn. apply in_map_iff in Hn.
  destruct Hn as ([k info] & <- & Hin).
  rewrite Forall_forall in Ha.
  destruct (Ha _ Hin) as (ro & Hro & _ & _ & Hs & _). cbn in Hs.
  exists ro, (last log first). cbn. rewrite Hs.
  repeat split; auto. apply last_In.
Qed.

Section StillActive.
Context {N : JsNumber}.
Variable t0 : Z.

(** A message that neither opens nor closes the note [k] leaves its entry
    in [activeNotes] alone. *)
Lemma encodeMessage_keeps_entry (acc : Track * ActiveNotes) (r : Recorded)
      (k : option Z) :
  (opens r || releases r = true -> note (msg r) <> k) ->
  JsMap.get k (snd (encodeMessage t0 acc r)) = JsMap.get k (snd acc).
Proof.
  destruct acc as [track active]. intros H. cbn [snd].
  destruct (opens r) eqn:Eo.
  - rewrite encodeMessage_opens by exact Eo. cbv zeta.
    specialize (H eq_refl).
    destruct (JsMap.get (note (msg r)) active); cbn [snd].
    + rewrite get_set_other, get_delete_other by exact H. reflexivity.
    + rewrite get_set_other by exact H. reflexivity.
  - destruct (releases r) eqn:Er.
    + rewrite encodeMessage_releases by assumption. cbv zeta.
      specialize (H eq_refl).
      destruct (JsMap.get (note (msg r)) active); cbn [snd];
        [rewrite get_delete_other by exact H|]; reflexivity.
    + destruct (encodeMessage_other t0 track active r Eo Er) as [E _].
      rewrite E. reflexivity.
Qed.

Lemma fold_keeps_entry (k : option Z) (l : list Recorded) :
  forall acc,
  untouched k l ->
  JsMap.get k (snd (fold_left (encodeMessage t0) l acc)) =
  JsMap.get k (snd acc).
Proof.
  induction l as [|r l IH]; intros acc Hu; [reflexivity|].
  inversion Hu; subst. cbn [fold_left].
  rewrite IH by assumption. now apply encodeMessage_keeps_entry.
Qed.

(** A note opened by [r] and touched by nothing after it is still active
    when the log ends, with the time, velocity and channel of [r]. *)
Lemma still_active (l1 l2 : list Recorded) (r : Recorded) :
  opens r = true ->
  untouched (note (msg r)) l2 ->
  JsMap.get (note (msg r)) (snd (encodeLoop t0 (l1 ++ r :: l2))) =
  Some (NoteInfo.mk _ (of_ms (timestamp r - t0))
          (js_or (velocity (msg r)) 100) (js_or (channel (msg r)) 0)).
Proof.
  intros Ho Hu. unfold encodeLoop. rewrite fold_left_app. cbn [fold_left].
  rewrite fold_keeps_entry by exact Hu.
  destruct (fold_left (encodeMessage t0) l1 ([], [])) as [track active].
  rewrite encodeMessage_opens by exact Ho. cbv zeta.
  destruct (JsMap.get (note (msg r)) active); cbn [snd];
    apply get_set_same.
Qed.
End StillActive.

(** C5: for every log that is not empty, in binary64 as the program
    computes: the track has exactly one note per message that opens one;
    each such message has its note in the track, with its pitch, its time
    as start and its velocity; every note lasts at least 0.001 s, its
    duration being the larger of 0.001 and the time from its start to a
    message of the log; each note still active after the last message
    is in the track, closed at [end_s], the time of the last message: its
    duration is the larger of 0.001 and [end_s - start]; and such is the
    note of every message that opens one and is followed by no message
    that opens or closes a note of the same number. *)
Theorem no_dangling_notes (first : Recorded) (rest : list Recorded) :
  let log := first :: rest in
  let t0 := timestamp first in
  let seconds := fun z : Z => PrimFloat.div (float_of_Z z) 1000%float in
  let end_s := seconds (timestamp (last log first) - t0) in
  exists track,
    exportMIDI (N := binary64) log = Some track /\
    List.length (notes track) = count_opens log /\
    (forall r, In r log -> opens r = true -> closed_in t0 track r) /\
    Forall (fun n : @Note.t binary64 =>
              PrimFloat.leb 0.001%float (Note.duration n) = true /\
              exists ro rc,
                In ro log /\ In rc log /\
                Note.time n = seconds (timestamp ro - t0) /\
                larger_of (Note.duration n) 0.001%float
                  (PrimFloat.sub (seconds (timestamp rc - t0))
                                 (Note.time n)))
           (notes track) /\
    (forall k info,
        In (k, info) (snd (encodeLoop t0 log)) ->
        exists n : @Note.t binary64,
          In n (notes track) /\
          Note.midi n = k /\
          Note.time n = NoteInfo.startTime info /\
          Note.velocity n = NoteInfo.velocity info /\
          Note.channel n = NoteInfo.channel info /\
          larger_of (Note.duration n) 0.001%float
            (PrimFloat.sub end_s (NoteInfo.startTime info))) /\
    (forall l1 r l2,
        log = l1 ++ r :: l2 ->
        opens r = true ->
        untouched (note (msg r)) l2 ->
        exists n : @Note.t binary64,
          In n (notes track) /\
          Note.midi n = note (msg r) /\
          Note.time n = seconds (timestamp r - t0) /\
          Note.velocity n = js_or (velocity (msg r)) 100 /\
          Note.channel n = js_or (channel (msg r)) 0 /\
          larger_of (Note.duration n) 0.001%float
            (PrimFloat.sub end_s (Note.time n))).
Proof.
  intros log t0 seconds end_s.
  destruct (exportMIDI_closes_all (H := binary64) first rest)
    as (track & He & Hn & Hc & _ & Hr).
  destruct (exportMIDI_timing (H := binary64) first rest)
    as (track' & He' & Hw & Ha).
  fold log t0 in He, He', Hn, Hc, Hr, Hw, Ha.
  assert (track' = track) by congruence. subst track'.
  exists track.
  assert (H5 : forall k info,
             In (k, info) (snd (encodeLoop t0 log)) ->
             exists n : @Note.t binary64,
               In n (notes track) /\
               Note.midi n = k /\
               Note.time n = NoteInfo.startTime info /\
               Note.velocity n = NoteInfo.velocity info /\
               Note.channel n = NoteInfo.channel info /\
               larger_of (Note.duration n) 0.001%float
                 (PrimFloat.sub end_s (NoteInfo.startTime info))).
  { intros k info Hin. specialize (Hr k info Hin).
    rewrite Forall_forall in Ha.
    destruct (Ha _ Hin) as (ro & _ & _ & _ & Hs & _). cbn in Hs.
    eexists. split; [exact Hr|]. cbn [Note.midi Note.time Note.velocity
                                      Note.channel Note.duration].
    do 4 (split; [reflexivity|]).
    rewrite Hs.
    apply (Binary64Facts.duration_larger
             (timestamp (last log first) - t0) (timestamp ro - t0)). }
  split; [exact He|]. split; [exact Hn|]. split; [exact Hc|].
  split; [|split; [exact H5|]].
  - eapply Forall_impl; [|exact Hw].
    intros n (ro & rc & Hro & Hrc & Ht & Hd).
    pose proof (Binary64Facts.duration_larger
                  (timestamp rc - t0) (timestamp ro - t0)) as Hl.
    rewrite <- Hd in Hl. split; [apply Hl|].
    exists ro, rc.
    split; [exact Hro|]. split; [exact Hrc|]. split; [exact Ht|].
    rewrite Ht. exact Hl.
  - intros l1 r l2 El Ho Hu.
    pose proof (still_active (N := binary64) t0 l1 l2 r Ho Hu) as Hg.
    rewrite <- El in Hg. apply get_In in Hg.
    destruct (H5 _ _ Hg) as (n & Hin & Hm & Ht & Hv & Hch & Hd).
    cbn [NoteInfo.startTime NoteInfo.velocity NoteInfo.channel] in *.
    exists n. rewrite Ht.
    split; [exact Hin|]. split; [exact Hm|]. split; [reflexivity|].
    split; [exact Hv|]. split; [exact Hch|]. exact Hd.
Qed.

(** X10: for a log in time order whose last offset is below 2^53 ms (the
    integers binary64 holds exactly), in binary64 as the program computes,
    every exported note starts at or after 0, the time of the first
    message, and at or before [end_s], the time of the last message. *)
Theorem notes_start_within_take (first : Recorded) (rest : list Recorded) :
  let log := first :: rest in
  let t0 := timestamp first in
  let seconds := fun z : Z => PrimFloat.div (float_of_Z z) 1000%float in
  let end_s := seconds (timestamp (last log first) - t0) in
  StronglySorted Z.le (map timestamp log) ->
  timestamp (last log first) - t0 < 2 ^ 53 ->
  exists track,
    exportMIDI (N := binary64) log = Some track /\
    Forall (fun n : @Note.t binary64 =>
              PrimFloat.leb 0%float (Note.time n) = true /\
              PrimFloat.leb (Note.time n) end_s = true)
           (notes track).
Proof.
  intros log t0 seconds end_s Hs Hb.
  destruct (exportMIDI_timing (H := binary64) first rest)
    as (track & He & Hw & _).
  exists track. split; [exact He|].
  eapply Forall_impl; [|exact Hw].
  intros n (ro & rc & Hro & _ & Ht & _).
  assert (Hlo : 0 <= timestamp ro - t0).
  { destruct Hro as [<-|Hro]; [subst t0; lia|].
    inversion Hs as [|a l _ Hall]; subst.
    rewrite Forall_map, Forall_forall in Hall.
    specialize (Hall ro Hro). subst t0. lia. }
  assert (Hhi : timestamp ro <= timestamp (last log first)).
  { pose proof (sorted_below_last _ Hs (timestamp first)) as Hl.
    rewrite last_map_timestamp in Hl.
    rewrite Forall_map, Forall_forall in Hl. exact (Hl ro Hro). }
  rewrite Ht. split.
  - apply Binary64Facts.leb_0_nonneg, Binary64Facts.of_ms_nonneg, Hlo.
  - apply Binary64Facts.of_ms_mono; [lia | exact Hb].
Qed.

Lemma notes_start_within_take_witness :
  exists track,
    exportMIDI (N := binary64)
      (two_notes_log None None None None None None) = Some track /\
    Forall (fun n : @Note.t binary64 =>
              PrimFloat.leb 0%float (Note.time n) = true /\
              PrimFloat.leb (Note.time n) 1.2%float = true)
           (notes track).
Proof.
  refine (notes_start_within_take _ _ _ _).
  - cbn. repeat constructor; lia.
  - cbn. lia.
Defined.
